(** * A shallow embedding of the w3g replay parser (package [w3g])

    The Go sources under [pkg/w3g] are rendered as Rocq functions over
    byte lists.  Conventions used throughout:

    - a byte is [Init.Byte.byte]; [u8 b] is its unsigned value;
    - a Go [[]byte] that is only read is a [list byte]; the cursor
      ([offset], [pos]) is a [Z], as Go's [int] (64 bits: no cursor below
      can overflow on data that fits in memory);
    - [uint16]/[uint32] values are [Z] with the wrap-around written out
      where the code does arithmetic on them;
    - a Go [string] is the list of its bytes ([go_string]);
    - a function that can panic returns an [outcome]. *)

From Stdlib Require Import ZArith List Lia Bool String Ascii DecimalString.
From Stdlib Require Import Floats.
From coqutil Require Import Byte Word.LittleEndianList.
Import ListNotations.
Local Open Scope Z_scope.

(** ** Bytes, slices and cursors *)

Definition go_string := list byte.

Definition u8 (b : byte) : Z := byte.unsigned b.

(** [len(data)]. *)
Definition len (data : list byte) : Z := Z.of_nat (List.length data).

(** [data[i]]; every use below sits under the bounds guard of the source. *)
Definition at_ (data : list byte) (i : Z) : byte :=
  nth (Z.to_nat i) data Byte.x00.

(** [data[i:]] for [0 <= i]; empty once [i] reaches [len(data)]. *)
Definition from (data : list byte) (i : Z) : list byte :=
  skipn (Z.to_nat i) data.

(** [data[a:b]] for [0 <= a <= b <= len(data)]. *)
Definition slice (data : list byte) (a b : Z) : list byte :=
  firstn (Z.to_nat (b - a)) (from data a).

(** [binary.LittleEndian.Uint16(b)] and [Uint32(b)]: the first two (four)
    bytes of [b], least significant first. *)
Definition Uint16 (b : list byte) : Z := le_combine (firstn 2 b).
Definition Uint32 (b : list byte) : Z := le_combine (firstn 4 b).

(** [uint32(x)]: wrap-around of 32-bit unsigned arithmetic. *)
Definition wrap32 (x : Z) : Z := x mod 2 ^ 32.

Fixpoint bytes_eqb (a b : list byte) : bool :=
  match a, b with
  | [], [] => true
  | x :: a', y :: b' => Byte.eqb x y && bytes_eqb a' b'
  | _, _ => false
  end.

(** The bytes before the first NUL: what the loops
    [for offset < len(data) && data[offset] != 0 { offset++ }] walk over. *)
Fixpoint until_nul (l : list byte) : list byte :=
  match l with
  | [] => []
  | b :: l' => if u8 b =? 0 then [] else b :: until_nul l'
  end.

Definition bytes_of_string (s : string) : go_string := list_byte_of_string s.

(** [fmt.Sprintf("%d", n)] for a non-negative [n]. *)
Definition decimal (n : Z) : go_string :=
  bytes_of_string (NilZero.string_of_uint (N.to_uint (Z.to_N n))).

(** ** Errors and outcomes (errors.go) *)

(** The error kinds the parser constructs; the offset is the one handed to
    the constructor, the formatted message is left out. *)
Inductive ParseError : Type :=
| InvalidHeaderError
| TruncatedDataError (offset : Z)
| DecompressionError (offset : Z).

(** What a call can end in: a value, a returned error, or a run-time panic
    (a slice expression past the capacity of its operand). *)
Inductive outcome (A : Type) : Type :=
| Ret (a : A)
| Fail (e : ParseError)
| Panic.
Arguments Ret {A} a.
Arguments Fail {A} e.
Arguments Panic {A}.

Definition bind {A B : Type} (m : outcome A) (k : A -> outcome B) : outcome B :=
  match m with
  | Ret a => k a
  | Fail e => Fail e
  | Panic => Panic
  end.

Notation "x <- m ;; k" := (bind m (fun x => k))
  (at level 61, m at next level, right associativity).
Notation "' p <- m ;; k" := (bind m (fun x => let p := x in k))
  (at level 61, p pattern, m at next level, right associativity).

(** ** Constants (constants.go) *)

Definition MagicString : list byte :=
  bytes_of_string "Warcraft III recorded game" ++ [Byte.x1a; Byte.x00].

Definition BaseHeaderSize : Z := 0x30.
Definition SubHeaderV0Size : Z := 0x10.
Definition SubHeaderV1Size : Z := 0x14.

Definition GameIDClassic : go_string := bytes_of_string "WAR3".
Definition GameIDTFT : go_string := bytes_of_string "W3XP".
Definition GameIDReforged : go_string := bytes_of_string "PX3W".

Definition ObserverTeamClassic : Z := 12.
Definition ObserverTeamReforged : Z := 24.
Definition ReforgedVersionThreshold : Z := 29.

Definition BlockLeaveGame : Z := 0x17.
Definition BlockGameStart : Z := 0x19.
Definition BlockFirstStart : Z := 0x1A.
Definition BlockSecondStart : Z := 0x1B.
Definition BlockThirdStart : Z := 0x1C.
Definition BlockTimeSlotOld : Z := 0x1E.
Definition BlockTimeSlot : Z := 0x1F.
Definition BlockChat : Z := 0x20.
Definition BlockChecksum : Z := 0x22.
Definition BlockForcedEnd : Z := 0x2F.

Definition RecordHost : Z := 0x00.
Definition RecordAdditionalPlayer : Z := 0x16.

Definition ActionPause : Z := 0x01.
Definition ActionResume : Z := 0x02.
Definition ActionSetSpeed : Z := 0x03.
Definition ActionIncSpeed : Z := 0x04.
Definition ActionDecSpeed : Z := 0x05.
Definition ActionSaveGame : Z := 0x06.
Definition ActionSaveFinished : Z := 0x07.
Definition ActionAbilityNoParams : Z := 0x10.
Definition ActionAbilityTargetPos : Z := 0x11.
Definition ActionAbilityPosObject : Z := 0x12.
Definition ActionAbilityDropItem : Z := 0x13.
Definition ActionAbilityTwoPos : Z := 0x14.
Definition ActionChangeSelection : Z := 0x16.
Definition ActionAssignGroup : Z := 0x17.
Definition ActionSelectGroup : Z := 0x18.
Definition ActionSelectSubgroup : Z := 0x19.
Definition ActionPreSubselection : Z := 0x1A.
Definition ActionSyncSelection : Z := 0x1B.
Definition ActionSelectGroundItem : Z := 0x1C.
Definition ActionCancelHeroRevival : Z := 0x1D.
Definition ActionRemoveFromQueue : Z := 0x1E.
Definition ActionAllyOptions : Z := 0x50.
Definition ActionTransferResources : Z := 0x51.
Definition ActionTriggerCommand : Z := 0x60.
Definition ActionEscPressed : Z := 0x61.
Definition ActionScenarioTrigger : Z := 0x62.
Definition ActionHeroSkillMenu : Z := 0x66.
Definition ActionBuildingMenu : Z := 0x67.
Definition ActionMinimapSignal : Z := 0x68.
Definition ActionContinueGameB : Z := 0x69.
Definition ActionContinueGameA : Z := 0x6A.
Definition ActionUnknown75 : Z := 0x75.

Definition ChatFlagStartup : Z := 0x10.
Definition ChatFlagNormal : Z := 0x20.

(** [ActionNames]: the empty string stands for a missing key, as the map
    lookup in [parseAction] reads it. *)
Definition ActionNames (id : Z) : string :=
  if id =? ActionPause then "pause"
  else if id =? ActionResume then "resume"
  else if id =? ActionSetSpeed then "set_speed"
  else if id =? ActionIncSpeed then "increase_speed"
  else if id =? ActionDecSpeed then "decrease_speed"
  else if id =? ActionSaveGame then "save_game"
  else if id =? ActionSaveFinished then "save_finished"
  else if id =? ActionAbilityNoParams then "ability"
  else if id =? ActionAbilityTargetPos then "ability_position"
  else if id =? ActionAbilityPosObject then "ability_object"
  else if id =? ActionAbilityDropItem then "drop_item"
  else if id =? ActionAbilityTwoPos then "ability_two_positions"
  else if id =? ActionChangeSelection then "select_units"
  else if id =? ActionAssignGroup then "assign_group"
  else if id =? ActionSelectGroup then "select_group"
  else if id =? ActionSelectSubgroup then "select_subgroup"
  else if id =? ActionPreSubselection then "pre_subselection"
  else if id =? ActionSyncSelection then "sync_selection"
  else if id =? ActionSelectGroundItem then "select_item"
  else if id =? ActionCancelHeroRevival then "cancel_revival"
  else if id =? ActionRemoveFromQueue then "remove_from_queue"
  else if id =? ActionAllyOptions then "ally_options"
  else if id =? ActionTransferResources then "transfer_resources"
  else if id =? ActionTriggerCommand then "trigger_command"
  else if id =? ActionEscPressed then "escape"
  else if id =? ActionScenarioTrigger then "scenario_trigger"
  else if id =? ActionHeroSkillMenu then "hero_skill_menu"
  else if id =? ActionBuildingMenu then "building_menu"
  else if id =? ActionMinimapSignal then "minimap_ping"
  else if id =? ActionContinueGameB then "continue_game_b"
  else if id =? ActionContinueGameA then "continue_game_a"
  else if id =? ActionUnknown75 then "unknown_75"
  else "".

(** ** Data model (models.go) *)

(** [Race], [SlotStatus] and [LeaveResult] are [uint8] types in the source;
    a field can hold a value that is none of the named constants (the zero
    value of [Race], for one), so they stay numbers here. *)
Definition RaceHuman : Z := 0x01.
Definition RaceOrc : Z := 0x02.
Definition RaceNightElf : Z := 0x04.
Definition RaceUndead : Z := 0x08.
Definition RaceRandom : Z := 0x20.
Definition RaceSelectable : Z := 0x40.
Definition RaceUnknown : Z := 0xFF.

Definition SlotEmpty : Z := 0x00.
Definition SlotClosed : Z := 0x01.
Definition SlotUsed : Z := 0x02.

(** [RaceFromFlags]: the lowest set bit among the race bits decides. *)
Definition RaceFromFlags (flags : Z) : Z :=
  if negb (Z.land flags 0x01 =? 0) then RaceHuman
  else if negb (Z.land flags 0x02 =? 0) then RaceOrc
  else if negb (Z.land flags 0x04 =? 0) then RaceNightElf
  else if negb (Z.land flags 0x08 =? 0) then RaceUndead
  else if negb (Z.land flags 0x20 =? 0) then RaceRandom
  else if negb (Z.land flags 0x40 =? 0) then RaceSelectable
  else RaceUnknown.

Module ReplayHeader.
Record t : Type := mk {
  Magic : list byte;
  HeaderSize : Z;
  CompressedSize : Z;
  HeaderVersion : Z;
  DecompressedSize : Z;
  NumCompressedBlocks : Z;
  GameIdentifier : go_string;
  Version : Z;
  BuildNumber : Z;
  Flags : Z;
  DurationMs : Z;
  CRC32 : Z;
  RawHeader : list byte
}.
End ReplayHeader.

(** [h.IsReforged()]. *)
Definition IsReforged (h : ReplayHeader.t) : bool :=
  (ReforgedVersionThreshold <=? ReplayHeader.Version h)
  || bytes_eqb (ReplayHeader.GameIdentifier h) GameIDReforged.

(** [h.IsExpansion()]. *)
Definition IsExpansion (h : ReplayHeader.t) : bool :=
  bytes_eqb (ReplayHeader.GameIdentifier h) GameIDTFT
  || bytes_eqb (ReplayHeader.GameIdentifier h) GameIDReforged.

Module PlayerInfo.
(** [LeaveResult] and [LeaveTimeMs] are pointers in the source: [None] is
    [nil].  [LeaveTimeMs] is set to the address of the walker's clock
    variable, so what it holds when the parse is over is the final clock;
    [parseGameData] below resolves it that way. *)
Record t : Type := mk {
  ID : Z;
  Name : go_string;
  Race : Z;
  Team : Z;
  Color : Z;
  Handicap : Z;
  IsHost : bool;
  IsComputer : bool;
  IsObserver : bool;
  SlotStatus : Z;
  RuntimeMs : Z;
  ActionCount : Z;
  APM : float;
  LeaveResult : option Z;
  LeaveTimeMs : option Z
}.
End PlayerInfo.

Module GameSettings.
Record t : Type := mk {
  Speed : Z;
  Visibility : Z;
  Observers : Z;
  TeamsTogether : bool;
  LockTeams : bool;
  FullSharedControl : bool;
  RandomHero : bool;
  RandomRaces : bool;
  Referees : bool;
  MapChecksum : list byte
}.
End GameSettings.

Module ChatMessage.
Record t : Type := mk {
  TimestampMs : Z;
  PlayerID : Z;
  PlayerName : go_string;
  Message : go_string;
  Mode : Z;
  IsStartup : bool
}.
End ChatMessage.

Module GameAction.
(** The decoded attribute map [Data] is left out: nothing below reads it,
    and every read that fills it sits under a length guard. *)
Record t : Type := mk {
  TimestampMs : Z;
  PlayerID : Z;
  ActionType : Z;
  ActionName : string;
  Payload : list byte
}.
End GameAction.

Module SlotRecord.
Record t : Type := mk {
  PlayerID : Z;
  DownloadPercent : Z;
  SlotStatus : Z;
  IsComputer : bool;
  Team : Z;
  Color : Z;
  RaceFlags : Z;
  AIStrength : Z;
  Handicap : Z
}.
End SlotRecord.

Module W3GReplay.
Record t : Type := mk {
  Header : ReplayHeader.t;
  GameName : go_string;
  MapName : go_string;
  MapPath : go_string;
  HostName : go_string;
  Settings : GameSettings.t;
  Players : list PlayerInfo.t;
  ChatMessages : list ChatMessage.t;
  Actions : list GameAction.t;
  RawDecompressed : list byte
}.
End W3GReplay.

(** ** Header decoder (header.go) *)

(** [io.ReadFull(r, make([]byte, n))] on a reader that still holds the bytes
    [r]: the [n] bytes read and the reader after them, or [None] when fewer
    than [n] bytes are left ([io.EOF] or [io.ErrUnexpectedEOF]). *)
Definition ReadFull (r : list byte) (n : Z) : option (list byte * list byte) :=
  if n <=? len r then Some (firstn (Z.to_nat n) r, skipn (Z.to_nat n) r)
  else None.

(** [parseHeader]: the header, the raw header bytes, and the reader as the
    call leaves it. *)
Definition parseHeader (r : list byte)
  : outcome (ReplayHeader.t * list byte * list byte) :=
  match ReadFull r BaseHeaderSize with
  | None => Fail (TruncatedDataError BaseHeaderSize)
  | Some (baseHeader, r1) =>
    let magic := slice baseHeader 0 28 in
    if negb (bytes_eqb magic MagicString) then Fail InvalidHeaderError
    else
      let headerSize := Uint32 (from baseHeader 0x1C) in
      let compressedSize := Uint32 (from baseHeader 0x20) in
      let headerVersion := Uint32 (from baseHeader 0x24) in
      let decompressedSize := Uint32 (from baseHeader 0x28) in
      let numBlocks := Uint32 (from baseHeader 0x2C) in
      let subHeaderSize :=
        if headerVersion =? 0 then Some SubHeaderV0Size
        else if headerVersion =? 1 then Some SubHeaderV1Size
        else None in
      match subHeaderSize with
      | None => Fail InvalidHeaderError
      | Some subHeaderSize =>
        match ReadFull r1 subHeaderSize with
        | None => Fail (TruncatedDataError BaseHeaderSize)
        | Some (subHeader, r2) =>
          let rawHeader := baseHeader ++ subHeader in
          let header :=
            if headerVersion =? 0 then
              ReplayHeader.mk magic headerSize compressedSize headerVersion
                decompressedSize numBlocks
                GameIDClassic
                (Uint16 (from subHeader 0x02))
                (Uint16 (from subHeader 0x04))
                (Uint16 (from subHeader 0x06))
                (Uint32 (from subHeader 0x08))
                (Uint32 (from subHeader 0x0C))
                rawHeader
            else
              ReplayHeader.mk magic headerSize compressedSize headerVersion
                decompressedSize numBlocks
                (slice subHeader 0x00 0x04)
                (Uint32 (from subHeader 0x04))
                (Uint16 (from subHeader 0x08))
                (Uint16 (from subHeader 0x0A))
                (Uint32 (from subHeader 0x0C))
                (Uint32 (from subHeader 0x10))
                rawHeader in
          Ret (header, rawHeader, r2)
        end
      end
  end.

(** [parseHeaderFromBytes]. *)
Definition parseHeaderFromBytes (data : list byte) : outcome ReplayHeader.t :=
  '(header, _, _) <- parseHeader data ;; Ret header.

(** ** What the parser takes from Go's library and run time

    [compress/flate], [compress/zlib] and [bytes.Buffer] are not code of the
    package; the model takes their behaviour as a parameter.

    - [flate_ReadAll data] is [io.ReadAll(flate.NewReader(bytes.NewReader(data)))]:
      the bytes when the error is [nil], [None] otherwise.
    - A zlib reader is described by the bytes its [Read]s hand out up to the
      first non-nil error, and by that error ([read_end]).  [zlib_body rest]
      is that for a stream with a good two-byte header, no preset dictionary
      and the non-empty deflate data [rest]; [zlib_dict rest] is the same for
      a header that asks for a dictionary ([None]: [zlib.NewReader] fails).
    - [buffer_spare data] is what the backing array of the [bytes.Buffer]
      holds past [data], the bytes [Bytes()] returns: [cap] minus [len] of
      the slice handed to [parseGameData]. *)

Inductive read_end : Type :=
| EndEOF            (* io.EOF *)
| EndUnexpectedEOF  (* an error whose text is "unexpected EOF" *)
| EndOther.         (* any other error *)

Record GoLibrary : Type := {
  flate_ReadAll : list byte -> option (list byte);
  zlib_body : list byte -> list byte * read_end;
  zlib_dict : list byte -> option (list byte * read_end);
  buffer_spare : list byte -> list byte
}.

(** The header check of [zlib.NewReader] (RFC 1950, 2.2): compression
    method 8, window size at most 7, and the two bytes, read as a
    big-endian number, a multiple of 31. *)
Definition zlib_header_ok (cmf flg : Z) : bool :=
  (Z.land cmf 0x0f =? 8) && (Z.shiftr cmf 4 <=? 7)
  && ((cmf * 256 + flg) mod 31 =? 0).

(** [zlib.NewReader] followed by [Read]s up to the first error.  A stream
    shorter than its header, or with a bad header, makes [NewReader] fail.
    With a good header and nothing after it, the first [Read] finds no
    deflate block header and returns [io.ErrUnexpectedEOF] with no byte. *)
Definition zlib_stream (go : GoLibrary) (data : list byte)
  : option (list byte * read_end) :=
  match data with
  | cmf :: flg :: rest =>
    if zlib_header_ok (u8 cmf) (u8 flg) then
      if negb (Z.land (u8 flg) 0x20 =? 0) then zlib_dict go rest
      else
        match rest with
        | [] => Some ([], EndUnexpectedEOF)
        | _ => Some (zlib_body go rest)
        end
    else None
  | _ => None
  end.

(** ** Block decompressor (decompressor.go) *)

Section Decompressor.
Variable go : GoLibrary.

(** [decompressZlib]: [None] is a returned error.  The read loop keeps what
    was produced when the stream ends with [io.EOF] or "unexpected EOF", and
    on any other error as soon as a byte was produced. *)
Definition decompressZlib (data : list byte) : option (list byte) :=
  match zlib_stream go data with
  | None => None
  | Some (result, e) =>
    match e with
    | EndEOF | EndUnexpectedEOF => Some result
    | EndOther => if len result =? 0 then None else Some result
    end
  end.

(** [decompressDeflate]. *)
Definition decompressDeflate (data : list byte) : option (list byte) :=
  flate_ReadAll go data.

(** [decompressSingleBlock]. *)
Definition decompressSingleBlock (data : list byte) (useZlibHeader : bool)
  : option (list byte) :=
  if useZlibHeader then decompressZlib data
  else
    match decompressDeflate data with
    | Some decompressed => Some decompressed
    | None => decompressZlib data
    end.

(** The loop of [decompressBlocks], [n] blocks still to read from [r];
    [result] is the buffer filled so far. *)
Fixpoint decompress_loop (n : nat) (isReforged : bool) (r : list byte)
  (result : list byte) : outcome (list byte) :=
  match n with
  | O => Ret result
  | S n' =>
    match ReadFull r (if isReforged then 12 else 8) with
    | None => Fail (TruncatedDataError (len result))
    | Some (blockHeader, r1) =>
      let compressedSize := Uint16 blockHeader in
      match ReadFull r1 compressedSize with
      | None => Fail (TruncatedDataError (len result))
      | Some (compressedData, r2) =>
        let decompressed :=
          if isReforged then decompressZlib compressedData
          else
            match decompressDeflate compressedData with
            | Some d => Some d
            | None => decompressZlib compressedData
            end in
        match decompressed with
        | None => Fail (DecompressionError (len result))
        | Some d => decompress_loop n' isReforged r2 (result ++ d)
        end
      end
    end
  end.

(** [decompressBlocks]. *)
Definition decompressBlocks (r : list byte) (header : ReplayHeader.t)
  : outcome (list byte) :=
  decompress_loop (Z.to_nat (ReplayHeader.NumCompressedBlocks header))
    (IsReforged header) r [].

End Decompressor.

(** ** Encoded strings and settings (encoded.go) *)

(** The inner loop of [decodeEncodedString]: up to [n] data bytes under the
    control byte [control], the next one at bit [bit + 1].  The last
    component tells whether the function returned from inside the loop (a
    NUL data byte). *)
Fixpoint decode_bits (control : Z) (bit : Z) (n : nat) (rest : list byte)
  (result : list byte) (pos : Z) : list byte * Z * list byte * bool :=
  match n with
  | O => (result, pos, rest, false)
  | S n' =>
    match rest with
    | [] => (result, pos, rest, false)
    | b :: rest' =>
      if u8 b =? 0 then (result ++ [Byte.x00], pos + 1, rest', true)
      else
        let out :=
          if Z.land control (Z.shiftl 1 (bit + 1)) =? 0
          then byte.of_Z (u8 b - 1)
          else b in
        decode_bits control (bit + 1) n' rest' (result ++ [out]) (pos + 1)
    end
  end.

(** The outer loop: [rest] is [data[pos:]]. *)
Fixpoint decode_loop (fuel : nat) (rest : list byte) (result : list byte)
  (pos : Z) : list byte * Z :=
  match fuel with
  | O => (result, pos)
  | S fuel' =>
    match rest with
    | [] => (result, pos)
    | control :: rest' =>
      if u8 control =? 0 then (result, pos + 1)
      else
        let '(r, p, rest'', returned) :=
          decode_bits (u8 control) 0 7 rest' result (pos + 1) in
        if returned then (r, p) else decode_loop fuel' rest'' r p
    end
  end.

(** [decodeEncodedString].  Every pass of the outer loop takes a byte, so
    the length of what is left bounds the number of passes. *)
Definition decodeEncodedString (data : list byte) (offset : Z)
  : list byte * Z :=
  decode_loop (List.length (from data offset)) (from data offset) [] offset.

Definition is_sep (b : byte) : bool := (u8 b =? 0x2F) || (u8 b =? 0x5C).

(** What follows the last ['/'] or ['\'] of a path, if there is one. *)
Fixpoint after_last_sep (l : list byte) : option (list byte) :=
  match l with
  | [] => None
  | b :: l' =>
    match after_last_sep l' with
    | Some r => Some r
    | None => if is_sep b then Some l' else None
    end
  end.

(** [extractMapName]. *)
Definition extractMapName (mapPath : go_string) : go_string :=
  let mapName :=
    match after_last_sep mapPath with
    | Some r => r
    | None => mapPath
    end in
  if 4 <? len mapName then
    let ext := from mapName (len mapName - 4) in
    if bytes_eqb ext (bytes_of_string ".w3x")
       || bytes_eqb ext (bytes_of_string ".w3m")
       || bytes_eqb ext (bytes_of_string ".W3X")
       || bytes_eqb ext (bytes_of_string ".W3M")
    then slice mapName 0 (len mapName - 4)
    else mapName
  else mapName.

Definition default_settings : GameSettings.t :=
  GameSettings.mk 2 0 0 false false false false false false [].

(** [parseEncodedSettings]. *)
Definition parseEncodedSettings (encodedData : list byte)
  : GameSettings.t * go_string * go_string :=
  if len encodedData <? 13 then (default_settings, [], [])
  else
    let byte1 := u8 (at_ encodedData 1) in
    let byte3 := u8 (at_ encodedData 3) in
    let settings :=
      GameSettings.mk
        (Z.land (u8 (at_ encodedData 0)) 0x03)
        (Z.land byte1 0x0F)
        (Z.land (Z.shiftr byte1 4) 0x03)
        (negb (Z.land byte1 0x40 =? 0))
        (negb (Z.land (u8 (at_ encodedData 2)) 0x06 =? 0))
        (negb (Z.land byte3 0x01 =? 0))
        (negb (Z.land byte3 0x02 =? 0))
        (negb (Z.land byte3 0x04 =? 0))
        (negb (Z.land byte3 0x40 =? 0))
        (slice encodedData 9 13) in
    let offset := 13 in
    let offset :=
      if (offset <? len encodedData) && (u8 (at_ encodedData offset) =? 0)
      then offset + 1 else offset in
    let mapPath := until_nul (from encodedData offset) in
    if 0 <? len mapPath then (settings, mapPath, extractMapName mapPath)
    else (settings, [], []).

(** ** Player and slot records (players.go) *)

(** [&PlayerInfo{ID: ..., Name: ..., Race: ..., IsHost: ..., RuntimeMs: ...,
    Handicap: 100}]: the other fields hold their zero value. *)
Definition new_player (id : Z) (name : go_string) (race : Z) (isHost : bool)
  (runtimeMs : Z) : PlayerInfo.t :=
  PlayerInfo.mk id name race 0 0 100 isHost false false 0 runtimeMs 0
    0%float None None.

(** [parsePlayerRecord]: [None] is the [nil] player. *)
Definition parsePlayerRecord (data : list byte) (offset : Z) (isHost : bool)
  : option PlayerInfo.t * Z :=
  if len data <=? offset then (None, offset)
  else
    let recordID := u8 (at_ data offset) in
    let offset := offset + 1 in
    let expectedID := if isHost then RecordHost else RecordAdditionalPlayer in
    if negb (recordID =? expectedID) then (None, offset - 1)
    else if len data <=? offset then (None, offset)
    else
      let playerID := u8 (at_ data offset) in
      let offset := offset + 1 in
      let name := until_nul (from data offset) in
      let offset := offset + len name in
      let offset := offset + 1 in
      if len data <=? offset
      then (Some (new_player playerID name 0 isHost 0), offset)
      else
        let extraSize := u8 (at_ data offset) in
        let offset := offset + 1 in
        if extraSize =? 0x01 then
          (Some (new_player playerID name RaceUnknown isHost 0), offset + 1)
        else if extraSize =? 0x08 then
          if offset + 8 <=? len data then
            let runtimeMs := Uint32 (from data offset) in
            let raceFlags := Uint32 (from data (offset + 4)) in
            (Some (new_player playerID name
                     (RaceFromFlags (raceFlags mod 256)) isHost runtimeMs),
             offset + 8)
          else (Some (new_player playerID name RaceUnknown isHost 0), offset)
        else
          (Some (new_player playerID name RaceUnknown isHost 0),
           offset + extraSize).

(** [parseSlotRecord]: [None] is the [nil] slot. *)
Definition parseSlotRecord (data : list byte) (offset : Z) (version : Z)
  : option SlotRecord.t * Z :=
  let slotSize := if version <? 3 then 7 else if version <? 7 then 8 else 9 in
  if len data <? offset + slotSize then (None, offset)
  else
    (Some (SlotRecord.mk
             (u8 (at_ data offset))
             (u8 (at_ data (offset + 1)))
             (u8 (at_ data (offset + 2)))
             (u8 (at_ data (offset + 3)) =? 0x01)
             (u8 (at_ data (offset + 4)))
             (u8 (at_ data (offset + 5)))
             (u8 (at_ data (offset + 6)))
             (if 8 <=? slotSize then u8 (at_ data (offset + 7)) else 0)
             (if 9 <=? slotSize then u8 (at_ data (offset + 8)) else 100)),
     offset + slotSize).

(** The slot loop of [parseGameStartRecord], [n] records still to read. *)
Fixpoint slot_loop (n : nat) (data : list byte) (offset : Z) (version : Z)
  (slots : list SlotRecord.t) : list SlotRecord.t * Z :=
  match n with
  | O => (slots, offset)
  | S n' =>
    let '(slot, newOffset) := parseSlotRecord data offset version in
    slot_loop n' data newOffset version
      (match slot with Some s => slots ++ [s] | None => slots end)
  end.

(** [parseGameStartRecord]: slots, random seed, select mode, new offset. *)
Definition parseGameStartRecord (data : list byte) (offset : Z) (version : Z)
  : list SlotRecord.t * Z * Z * Z :=
  if (len data <=? offset) || negb (u8 (at_ data offset) =? BlockGameStart)
  then ([], 0, 0, offset)
  else
    let offset := offset + 1 in
    if len data <? offset + 2 then ([], 0, 0, offset)
    else
      let offset := offset + 2 in
      if len data <=? offset then ([], 0, 0, offset)
      else
        let numSlots := u8 (at_ data offset) in
        let offset := offset + 1 in
        let '(slots, offset) :=
          slot_loop (Z.to_nat numSlots) data offset version [] in
        let '(randomSeed, offset) :=
          if offset + 4 <=? len data
          then (Uint32 (from data offset), offset + 4)
          else (0, offset) in
        let '(selectMode, offset) :=
          if offset <? len data then (u8 (at_ data offset), offset + 1)
          else (0, offset) in
        let offset := if offset <? len data then offset + 1 else offset in
        (slots, randomSeed, selectMode, offset).

(** [playerMap[id]] after [for _, p := range players { playerMap[p.ID] = p }]:
    a later player with the same ID replaces an earlier one, so the entry is
    the last such player, given here by its position in [players]. *)
Fixpoint playerMap (players : list PlayerInfo.t) (id : Z) : option nat :=
  match players with
  | [] => None
  | p :: players' =>
    match playerMap players' id with
    | Some i => Some (S i)
    | None => if PlayerInfo.ID p =? id then Some O else None
    end
  end.

(** An assignment through the pointer held at position [i]. *)
Fixpoint update_at {A : Type} (i : nat) (f : A -> A) (l : list A) : list A :=
  match l, i with
  | [], _ => []
  | x :: l', O => f x :: l'
  | x :: l', S i' => x :: update_at i' f l'
  end.

(** The computer player [applySlotInfoToPlayers] builds for a slot. *)
Definition computer_player (slot : SlotRecord.t) : PlayerInfo.t :=
  PlayerInfo.mk
    (SlotRecord.PlayerID slot)
    (bytes_of_string "Computer " ++ decimal (SlotRecord.PlayerID slot))
    (RaceFromFlags (SlotRecord.RaceFlags slot))
    (SlotRecord.Team slot)
    (SlotRecord.Color slot)
    (SlotRecord.Handicap slot)
    false true false SlotUsed 0 0 0%float None None.

(** The assignments to an existing player. *)
Definition stamp_slot (slot : SlotRecord.t) (observerTeam : Z)
  (p : PlayerInfo.t) : PlayerInfo.t :=
  let race :=
    if PlayerInfo.Race p =? RaceUnknown
    then RaceFromFlags (SlotRecord.RaceFlags slot)
    else PlayerInfo.Race p in
  let team := SlotRecord.Team slot in
  PlayerInfo.mk
    (PlayerInfo.ID p) (PlayerInfo.Name p) race team
    (SlotRecord.Color slot) (SlotRecord.Handicap slot)
    (PlayerInfo.IsHost p) (PlayerInfo.IsComputer p)
    (if team =? observerTeam then true else PlayerInfo.IsObserver p)
    (SlotRecord.SlotStatus slot) (PlayerInfo.RuntimeMs p)
    (PlayerInfo.ActionCount p) (PlayerInfo.APM p)
    (PlayerInfo.LeaveResult p) (PlayerInfo.LeaveTimeMs p).

(** The slot loop of [applySlotInfoToPlayers].  [objs] are the player
    objects the caller's slice points to; [appended] are the computers added
    to the function's own copy of the slice header. *)
Fixpoint apply_slots (pmap : Z -> option nat) (observerTeam : Z)
  (slots : list SlotRecord.t) (objs appended : list PlayerInfo.t)
  : list PlayerInfo.t * list PlayerInfo.t :=
  match slots with
  | [] => (objs, appended)
  | slot :: slots' =>
    if negb (SlotRecord.SlotStatus slot =? SlotUsed) then
      apply_slots pmap observerTeam slots' objs appended
    else if SlotRecord.IsComputer slot then
      apply_slots pmap observerTeam slots' objs
        (appended ++ [computer_player slot])
    else
      match pmap (SlotRecord.PlayerID slot) with
      | Some i =>
        apply_slots pmap observerTeam slots'
          (update_at i (stamp_slot slot observerTeam) objs) appended
      | None => apply_slots pmap observerTeam slots' objs appended
      end
  end.

(** [applySlotInfoToPlayers(players, slots, version)].

    [players] is a slice of pointers passed by value.  Assignments through
    the pointers reach the caller's players; [players = append(players,
    computer)] only changes the function's own slice header, so the caller's
    slice keeps its length and never shows the computers.  The result is the
    pair of the players as the caller sees them after the call and of the
    function's local slice when it returns (which is dropped). *)
Definition applySlotInfoToPlayers (players : list PlayerInfo.t)
  (slots : list SlotRecord.t) (version : Z)
  : list PlayerInfo.t * list PlayerInfo.t :=
  let observerTeam :=
    if ReforgedVersionThreshold <=? version then ObserverTeamReforged
    else ObserverTeamClassic in
  let '(objs, appended) :=
    apply_slots (playerMap players) observerTeam slots players [] in
  (objs, objs ++ appended).

(** [isValidGameStartRecord]. *)
Definition isValidGameStartRecord (data : list byte) (offset : Z) : bool :=
  if (len data <? offset + 4) || negb (u8 (at_ data offset) =? BlockGameStart)
  then false
  else
    let numBytes := Uint16 (from data (offset + 1)) in
    if (numBytes <? 10) || (500 <? numBytes) then false
    else
      let numSlots := u8 (at_ data (offset + 3)) in
      (2 <=? numSlots) && (numSlots <=? 24).

(** ** Chat blocks (chat.go) *)

(** [playerNames[id]] on the map kept as the list of its insertions, newest
    first; a missing key reads as the empty string. *)
Fixpoint lookup_name (playerNames : list (Z * go_string)) (id : Z)
  : go_string :=
  match playerNames with
  | [] => []
  | (k, v) :: rest => if k =? id then v else lookup_name rest id
  end.

(** [parseChatMessage]: [None] is the [nil] message. *)
Definition parseChatMessage (data : list byte) (offset : Z)
  (playerNames : list (Z * go_string)) : option ChatMessage.t * Z :=
  if len data <? offset + 4 then (None, offset)
  else
    let playerID := u8 (at_ data offset) in
    let offset := offset + 1 in
    let offset := offset + 2 in
    let flags := u8 (at_ data offset) in
    let offset := offset + 1 in
    let '(mode, isStartup, offset) :=
      if flags =? ChatFlagStartup then (0, true, offset)
      else if flags =? ChatFlagNormal then
        if offset + 4 <=? len data
        then (Uint32 (from data offset), false, offset + 4)
        else (0, false, offset)
      else (0, false, offset) in
    let message := until_nul (from data offset) in
    let offset := offset + len message in
    let offset := offset + 1 in
    let playerName := lookup_name playerNames playerID in
    let playerName :=
      if len playerName =? 0
      then bytes_of_string "Player " ++ decimal playerID
      else playerName in
    (Some (ChatMessage.mk 0 playerID playerName message mode isStartup),
     offset).

(** ** Action decoder (actions.go) *)

(** A slice expression [data[a:b]] with [0 <= a <= b] whose upper bound may
    pass [len(data)]: Go allows it up to the capacity of [data] and panics
    beyond.  [spare] are the bytes of the backing array past [len(data)]. *)
Definition go_slice (data spare : list byte) (a b : Z) : outcome (list byte) :=
  if b <=? len data + len spare then Ret (slice (data ++ spare) a b)
  else Panic.

(** The object-ID loops of the selection actions: [n] units still
    announced; the loop breaks at the first unit that does not fit. *)
Fixpoint unit_loop (n : nat) (data : list byte) (offset : Z) : Z :=
  match n with
  | O => offset
  | S n' =>
    if offset + 8 <=? len data then unit_loop n' data (offset + 8)
    else offset
  end.

(** The [switch] of [parseAction]: the action's name and the offset after
    its body, [offset] being the offset after the opcode.  [None] is the
    [return nil, offset] of an opcode the decoder does not know. *)
Definition action_body (data spare : list byte) (version : Z) (actionID : Z)
  (offset : Z) : outcome (option (string * Z)) :=
  let actionName := ActionNames actionID in
  let known (off : Z) := Ret (Some (actionName, off)) in
  if (actionID =? ActionPause) || (actionID =? ActionResume) then known offset
  else if actionID =? ActionSetSpeed then
    known (if offset <? len data then offset + 1 else offset)
  else if (actionID =? ActionIncSpeed) || (actionID =? ActionDecSpeed) then
    known offset
  else if actionID =? ActionSaveGame then
    let offset := offset + len (until_nul (from data offset)) in
    known (offset + 1)
  else if actionID =? ActionSaveFinished then known (offset + 4)
  else if actionID =? ActionAbilityNoParams then
    let actionSize := if version <? 13 then 13 else 14 in
    if offset + actionSize - 1 <=? len data then
      let flagsSize := if version <? 13 then 1 else 2 in
      let offset := offset + flagsSize in
      known (offset + (actionSize - 1 - flagsSize))
    else known offset
  else if actionID =? ActionAbilityTargetPos then
    let actionSize := if version <? 13 then 21 else 22 in
    if offset + actionSize - 1 <=? len data then
      let flagsSize := if version <? 13 then 1 else 2 in
      let offset := offset + flagsSize in
      let offset := offset + 4 in
      let offset := offset + 8 in
      known (offset + 8)
    else known offset
  else if actionID =? ActionAbilityPosObject then
    let actionSize := if version <? 13 then 25 else 26 in
    if offset + actionSize - 1 <=? len data then
      let flagsSize := if version <? 13 then 1 else 2 in
      let offset := offset + flagsSize in
      let offset := offset + 4 in
      let offset := offset + 8 in
      let offset := offset + 8 in
      let offset := if offset + 4 <=? len data then offset + 4 else offset in
      let offset := if offset + 4 <=? len data then offset + 4 else offset in
      known offset
    else known offset
  else if actionID =? ActionAbilityDropItem then
    let actionSize := if 13 <=? version then 38 else 37 in
    known (offset + (actionSize - 1))
  else if actionID =? ActionAbilityTwoPos then
    let actionSize := if 13 <=? version then 43 else 42 in
    known (offset + (actionSize - 1))
  else if (actionID =? ActionChangeSelection)
          || (actionID =? ActionAssignGroup) then
    if offset + 3 <=? len data then
      let offset := offset + 1 in
      let unitCount := Uint16 (from data offset) in
      let offset := offset + 2 in
      known (unit_loop (Z.to_nat unitCount) data offset)
    else known offset
  else if actionID =? ActionSelectGroup then
    known (if offset + 2 <=? len data then offset + 2 else offset)
  else if actionID =? ActionSelectSubgroup then
    known (if 14 <=? version then offset + 12 else offset + 1)
  else if actionID =? ActionPreSubselection then known offset
  else if actionID =? ActionSyncSelection then
    if offset + 9 <=? len data then
      let offset := offset + 1 in
      let offset := offset + 4 in
      known (offset + 4)
    else known (offset + 9)
  else if actionID =? ActionSelectGroundItem then known (offset + 9)
  else if actionID =? ActionCancelHeroRevival then known (offset + 8)
  else if (actionID =? ActionRemoveFromQueue)
          || (actionID =? ActionAllyOptions) then
    known (if offset + 5 <=? len data then offset + 1 + 4 else offset)
  else if actionID =? ActionTransferResources then
    known (if offset + 9 <=? len data then offset + 1 + 4 + 4 else offset)
  else if actionID =? ActionTriggerCommand then
    let offset := offset + 8 in
    let strStart := offset in
    let offset := offset + len (until_nul (from data offset)) in
    _ <- go_slice data spare strStart offset ;;
    known (offset + 1)
  else if actionID =? ActionEscPressed then known offset
  else if actionID =? ActionScenarioTrigger then known (offset + 12)
  else if (actionID =? ActionHeroSkillMenu)
          || (actionID =? ActionBuildingMenu) then known offset
  else if actionID =? ActionMinimapSignal then
    known (if offset + 12 <=? len data then offset + 12 else offset)
  else if (actionID =? ActionContinueGameB)
          || (actionID =? ActionContinueGameA) then known (offset + 16)
  else if actionID =? ActionUnknown75 then known (offset + 1)
  else if (0x20 <=? actionID) && (actionID <=? 0x32) then
    Ret (Some ("cheat"%string,
               if offset + 5 <=? len data then offset + 5 else offset))
  else Ret None.

(** [parseAction]: [None] is the [nil] action.  The payload is
    [data[startOffset:offset]], a slice that may run past [len(data)]. *)
Definition parseAction (data spare : list byte) (offset : Z) (version : Z)
  : outcome (option GameAction.t * Z) :=
  if len data <=? offset then Ret (None, offset)
  else
    let actionID := u8 (at_ data offset) in
    let startOffset := offset in
    let offset := offset + 1 in
    body <- action_body data spare version actionID offset ;;
    match body with
    | None => Ret (None, offset)
    | Some (actionName, offset) =>
      payload <- go_slice data spare startOffset offset ;;
      Ret (Some (GameAction.mk 0 0 actionID actionName payload), offset)
    end.

(** An entry of the result of [parseCommandData]. *)
Definition command : Type := (Z * GameAction.t)%type.

Definition set_action_player (a : GameAction.t) (playerID : Z)
  : GameAction.t :=
  GameAction.mk (GameAction.TimestampMs a) playerID (GameAction.ActionType a)
    (GameAction.ActionName a) (GameAction.Payload a).

(** The inner loop of [parseCommandData], [for offset < actionEnd].  An
    action takes at least its opcode, so [actionEnd - offset] passes are
    enough; the last component is the offset the loop stops at. *)
Fixpoint action_loop (fuel : nat) (data spare : list byte) (version : Z)
  (playerID : Z) (offset actionEnd : Z) (results : list command)
  : outcome (list command) :=
  match fuel with
  | O => Ret results
  | S fuel' =>
    if offset <? actionEnd then
      '(action, newOffset) <- parseAction data spare offset version ;;
      match action with
      | Some a =>
        action_loop fuel' data spare version playerID newOffset actionEnd
          (results ++ [(playerID, set_action_player a playerID)])
      | None => Ret results
      end
    else Ret results
  end.

(** The outer loop, [for offset < end]: a frame takes at least its three
    header bytes. *)
Fixpoint frame_loop (fuel : nat) (data spare : list byte) (version : Z)
  (offset end_ : Z) (results : list command) : outcome (list command) :=
  match fuel with
  | O => Ret results
  | S fuel' =>
    if offset <? end_ then
      if len data <? offset + 3 then Ret results
      else
        let playerID := u8 (at_ data offset) in
        let offset := offset + 1 in
        let actionLength := Uint16 (from data offset) in
        let offset := offset + 2 in
        let actionEnd := offset + actionLength in
        results <- action_loop (Z.to_nat actionLength) data spare version
                     playerID offset actionEnd results ;;
        frame_loop fuel' data spare version actionEnd end_ results
    else Ret results
  end.

(** [parseCommandData]. *)
Definition parseCommandData (data spare : list byte) (offset : Z)
  (length : Z) (version : Z) : outcome (list command) :=
  frame_loop (Z.to_nat length) data spare version offset (offset + length) [].

(** ** The parser (parser.go) *)

Module Walk.
(** The variables of [parseGameData] that the block loop changes. *)
Record t : Type := mk {
  offset : Z;
  currentTimeMs : Z;
  players : list PlayerInfo.t;
  chatMessages : list ChatMessage.t;
  actions : list GameAction.t
}.
End Walk.

Definition set_action_count (p : PlayerInfo.t) (n : Z) : PlayerInfo.t :=
  PlayerInfo.mk
    (PlayerInfo.ID p) (PlayerInfo.Name p) (PlayerInfo.Race p)
    (PlayerInfo.Team p) (PlayerInfo.Color p) (PlayerInfo.Handicap p)
    (PlayerInfo.IsHost p) (PlayerInfo.IsComputer p) (PlayerInfo.IsObserver p)
    (PlayerInfo.SlotStatus p) (PlayerInfo.RuntimeMs p)
    n (PlayerInfo.APM p)
    (PlayerInfo.LeaveResult p) (PlayerInfo.LeaveTimeMs p).

Definition set_apm (p : PlayerInfo.t) (apm : float) : PlayerInfo.t :=
  PlayerInfo.mk
    (PlayerInfo.ID p) (PlayerInfo.Name p) (PlayerInfo.Race p)
    (PlayerInfo.Team p) (PlayerInfo.Color p) (PlayerInfo.Handicap p)
    (PlayerInfo.IsHost p) (PlayerInfo.IsComputer p) (PlayerInfo.IsObserver p)
    (PlayerInfo.SlotStatus p) (PlayerInfo.RuntimeMs p)
    (PlayerInfo.ActionCount p) apm
    (PlayerInfo.LeaveResult p) (PlayerInfo.LeaveTimeMs p).

Definition set_leave (p : PlayerInfo.t) (result : option Z) (time : option Z)
  : PlayerInfo.t :=
  PlayerInfo.mk
    (PlayerInfo.ID p) (PlayerInfo.Name p) (PlayerInfo.Race p)
    (PlayerInfo.Team p) (PlayerInfo.Color p) (PlayerInfo.Handicap p)
    (PlayerInfo.IsHost p) (PlayerInfo.IsComputer p) (PlayerInfo.IsObserver p)
    (PlayerInfo.SlotStatus p) (PlayerInfo.RuntimeMs p)
    (PlayerInfo.ActionCount p) (PlayerInfo.APM p)
    result time.

(** [for _, player := range players { if player.ID == id { ...; break } }]:
    [f] is applied to the first player carrying [id], if there is one. *)
Fixpoint update_first (id : Z) (f : PlayerInfo.t -> PlayerInfo.t)
  (players : list PlayerInfo.t) : list PlayerInfo.t :=
  match players with
  | [] => []
  | p :: players' =>
    if PlayerInfo.ID p =? id then f p :: players'
    else p :: update_first id f players'
  end.

(** [player.ActionCount++]. *)
Definition count_action (p : PlayerInfo.t) : PlayerInfo.t :=
  set_action_count p (PlayerInfo.ActionCount p + 1).

Definition set_action_time (a : GameAction.t) (t : Z) : GameAction.t :=
  GameAction.mk t (GameAction.PlayerID a) (GameAction.ActionType a)
    (GameAction.ActionName a) (GameAction.Payload a).

(** [for _, ca := range cmdActions { ... }] of the time-slot case. *)
Fixpoint record_commands (cmdActions : list command) (currentTimeMs : Z)
  (players : list PlayerInfo.t) (actions : list GameAction.t)
  : list PlayerInfo.t * list GameAction.t :=
  match cmdActions with
  | [] => (players, actions)
  | (playerID, action) :: rest =>
    record_commands rest currentTimeMs
      (update_first playerID count_action players)
      (actions ++ [set_action_time action currentTimeMs])
  end.

Section Walker.
Variable strict : bool.
Variable data spare : list byte.
Variable version : Z.
Variable playerNames : list (Z * go_string).

(** One pass of [for offset < len(data)] in [parseGameData], entered with
    [offset < len(data)]. *)
Definition block_step (st : Walk.t) : outcome Walk.t :=
  let blockID := u8 (at_ data (Walk.offset st)) in
  let offset := Walk.offset st + 1 in
  let clock := Walk.currentTimeMs st in
  let players := Walk.players st in
  let chat := Walk.chatMessages st in
  let actions := Walk.actions st in
  if blockID =? BlockLeaveGame then
    if offset + 13 <=? len data then
      let offset := offset + 4 in
      let leavePlayerID := u8 (at_ data offset) in
      let offset := offset + 1 in
      let result := Uint32 (from data offset) in
      let offset := offset + 4 in
      let offset := offset + 4 in
      let players :=
        update_first leavePlayerID
          (fun p => set_leave p (Some (result mod 256)) (Some clock))
          players in
      Ret (Walk.mk offset clock players chat actions)
    else Ret (Walk.mk offset clock players chat actions)
  else if (blockID =? BlockFirstStart) || (blockID =? BlockSecondStart)
          || (blockID =? BlockThirdStart) then
    Ret (Walk.mk (offset + 4) clock players chat actions)
  else if (blockID =? BlockTimeSlot) || (blockID =? BlockTimeSlotOld) then
    if offset + 4 <=? len data then
      let numBytes := Uint16 (from data offset) in
      let offset := offset + 2 in
      let timeIncrement := Uint16 (from data offset) in
      let offset := offset + 2 in
      let clock := wrap32 (clock + timeIncrement) in
      if 2 <? numBytes then
        let cmdLength := numBytes - 2 in
        cmdActions <- parseCommandData data spare offset cmdLength version ;;
        let '(players, actions) :=
          record_commands cmdActions clock players actions in
        Ret (Walk.mk (offset + cmdLength) clock players chat actions)
      else Ret (Walk.mk offset clock players chat actions)
    else Ret (Walk.mk offset clock players chat actions)
  else if blockID =? BlockChat then
    let '(chatMsg, newOffset) := parseChatMessage data offset playerNames in
    let chat :=
      match chatMsg with
      | Some m =>
        chat ++ [ChatMessage.mk clock (ChatMessage.PlayerID m)
                   (ChatMessage.PlayerName m) (ChatMessage.Message m)
                   (ChatMessage.Mode m) (ChatMessage.IsStartup m)]
      | None => chat
      end in
    Ret (Walk.mk newOffset clock players chat actions)
  else if blockID =? BlockChecksum then
    if offset <? len data then
      let length := u8 (at_ data offset) in
      Ret (Walk.mk (offset + 1 + length) clock players chat actions)
    else Ret (Walk.mk offset clock players chat actions)
  else if blockID =? BlockForcedEnd then
    Ret (Walk.mk (offset + 8) clock players chat actions)
  else if blockID =? 0x23 then
    if offset <? len data then
      let length := u8 (at_ data offset) in
      Ret (Walk.mk (offset + 1 + length) clock players chat actions)
    else Ret (Walk.mk offset clock players chat actions)
  else
    (* default: [if !p.Strict { continue }; break].  The [break] leaves the
       [switch], not the [for]: either way the next pass of the loop runs. *)
    if negb strict then Ret (Walk.mk offset clock players chat actions)
    else Ret (Walk.mk offset clock players chat actions).

(** [for offset < len(data) { ... }]: a pass takes at least the block ID. *)
Fixpoint block_loop (fuel : nat) (st : Walk.t) : outcome Walk.t :=
  match fuel with
  | O => Ret st
  | S fuel' =>
    if Walk.offset st <? len data then
      st' <- block_step st ;; block_loop fuel' st'
    else Ret st
  end.

End Walker.

(** The loop over the additional player records. *)
Fixpoint additional_players (fuel : nat) (data : list byte) (offset : Z)
  (players : list PlayerInfo.t) (playerNames : list (Z * go_string))
  : Z * list PlayerInfo.t * list (Z * go_string) :=
  match fuel with
  | O => (offset, players, playerNames)
  | S fuel' =>
    if offset <? len data then
      match parsePlayerRecord data offset false with
      | (Some player, newOffset) =>
        additional_players fuel' data newOffset (players ++ [player])
          ((PlayerInfo.ID player, PlayerInfo.Name player) :: playerNames)
      | (None, _) => (offset, players, playerNames)
      end
    else (offset, players, playerNames)
  end.

(** The search for the game-start record,
    [for searchOffset < len(data)-4 { ... searchOffset++ }]. *)
Fixpoint search_loop (fuel : nat) (data : list byte) (searchOffset : Z) : Z :=
  match fuel with
  | O => searchOffset
  | S fuel' =>
    if searchOffset <? len data - 4 then
      if (u8 (at_ data searchOffset) =? BlockGameStart)
         && isValidGameStartRecord data searchOffset
      then searchOffset
      else search_loop fuel' data (searchOffset + 1)
    else searchOffset
  end.

(** [float64(n)] for [0 <= n < 2^63]. *)
Definition float64 (n : Z) : float := PrimFloat.of_uint63 (Uint63.of_Z n).

(** The APM pass at the end of [parseGameData]. *)
Definition compute_apm (durationMs : Z) (players : list PlayerInfo.t)
  : list PlayerInfo.t :=
  let durationMinutes := PrimFloat.div (float64 durationMs) 60000%float in
  if PrimFloat.ltb 0%float durationMinutes then
    map (fun p =>
           set_apm p (PrimFloat.div (float64 (PlayerInfo.ActionCount p))
                        durationMinutes))
      players
  else players.

(** [player.LeaveTimeMs = &currentTimeMs]: every leave time points to the
    one clock variable, which holds [clock] when the parse is over. *)
Definition resolve_leave_time (clock : Z) (p : PlayerInfo.t) : PlayerInfo.t :=
  match PlayerInfo.LeaveTimeMs p with
  | Some _ => set_leave p (PlayerInfo.LeaveResult p) (Some clock)
  | None => p
  end.

Module Lobby.
(** What [parseGameData] holds when it reaches the block loop: the lobby
    fields of the replay, the name map for chat, and the loop variables. *)
Record t : Type := mk {
  gameName : go_string;
  mapName : go_string;
  mapPath : go_string;
  hostName : go_string;
  settings : GameSettings.t;
  playerNames : list (Z * go_string);
  start : Walk.t
}.
End Lobby.

(** [parseGameData], from its first line to the game-start record.
    [spare] is what the backing array of [data] holds past its length (see
    [go_slice]). *)
Definition parse_lobby (header : ReplayHeader.t) (data spare : list byte)
  : outcome Lobby.t :=
  let version := ReplayHeader.Version header in
  let offset := 0 in
  let offset := if offset + 4 <=? len data then offset + 4 else offset in
  let '(players, playerNames, hostName, offset) :=
    match parsePlayerRecord data offset true with
    | (Some hostPlayer, newOffset) =>
      ([hostPlayer],
       [(PlayerInfo.ID hostPlayer, PlayerInfo.Name hostPlayer)],
       PlayerInfo.Name hostPlayer, newOffset)
    | (None, _) => ([], [], [], offset)
    end in
  let gameNameStart := offset in
  let offset := offset + len (until_nul (from data offset)) in
  gameName <- go_slice data spare gameNameStart offset ;;
  let offset := offset + 1 in
  let offset :=
    if (offset <? len data) && (u8 (at_ data offset) =? 0)
    then offset + 1 else offset in
  let '(encodedData, newOffset) := decodeEncodedString data offset in
  let offset := newOffset in
  let '(settings, mapPath, mapName) :=
    if 0 <? len encodedData then parseEncodedSettings encodedData
    else (default_settings, [], []) in
  let offset := if offset + 12 <=? len data then offset + 12 else offset in
  let '(offset, players, playerNames) :=
    additional_players (List.length data) data offset players playerNames in
  let offset :=
    if (offset <? len data) && negb (isValidGameStartRecord data offset) then
      let searchOffset := search_loop (List.length data) data offset in
      if (searchOffset <? len data)
         && isValidGameStartRecord data searchOffset
      then searchOffset else offset
    else offset in
  let '(offset, players) :=
    if (offset <? len data) && (u8 (at_ data offset) =? BlockGameStart) then
      let '(slots, _, _, newOffset) :=
        parseGameStartRecord data offset version in
      (newOffset, fst (applySlotInfoToPlayers players slots version))
    else (offset, players) in
  Ret (Lobby.mk gameName mapName mapPath hostName settings playerNames
         (Walk.mk offset 0 players [] [])).

(** [parseGameData], after the block loop: the APM pass and the replay. *)
Definition finish_replay (header : ReplayHeader.t) (data : list byte)
  (lobby : Lobby.t) (st : Walk.t) : W3GReplay.t :=
  let players := compute_apm (ReplayHeader.DurationMs header)
                   (Walk.players st) in
  let players := map (resolve_leave_time (Walk.currentTimeMs st)) players in
  W3GReplay.mk header (Lobby.gameName lobby) (Lobby.mapName lobby)
    (Lobby.mapPath lobby) (Lobby.hostName lobby) (Lobby.settings lobby)
    players (Walk.chatMessages st) (Walk.actions st) data.

(** [parseGameData]. *)
Definition parseGameData (strict : bool) (header : ReplayHeader.t)
  (data spare : list byte) : outcome W3GReplay.t :=
  lobby <- parse_lobby header data spare ;;
  st <- block_loop strict data spare (ReplayHeader.Version header)
          (Lobby.playerNames lobby) (List.length data) (Lobby.start lobby) ;;
  Ret (finish_replay header data lobby st).

(** [Parser.ParseStream] on a reader holding [r]. *)
Definition ParseStream (go : GoLibrary) (strict : bool) (r : list byte)
  : outcome W3GReplay.t :=
  '(header, _, r') <- parseHeader r ;;
  decompressed <- decompressBlocks go r' header ;;
  parseGameData strict header decompressed (buffer_spare go decompressed).

(** [Parser.Parse] on a file whose content is [file]: after the header
    the file is read again from [header.HeaderSize] on. *)
Definition Parse (go : GoLibrary) (strict : bool) (file : list byte)
  : outcome W3GReplay.t :=
  '(header, _, _) <- parseHeader file ;;
  decompressed <-
    decompressBlocks go (from file (ReplayHeader.HeaderSize header)) header ;;
  parseGameData strict header decompressed (buffer_spare go decompressed).

(** ** The stuffing encoder *)








(** ** Measures used in the statements below *)

(** The bytes the block loop of [decompressBlocks] reads for [n] blocks
    from a reader holding [r]: the framing headers and the payloads they
    announce.  [None] when the reader ends before the last of them. *)
Fixpoint blocks_span (n : nat) (isReforged : bool) (r : list byte)
  : option Z :=
  match n with
  | O => Some 0
  | S n' =>
    match ReadFull r (if isReforged then 12 else 8) with
    | None => None
    | Some (blockHeader, r1) =>
      match ReadFull r1 (Uint16 blockHeader) with
      | None => None
      | Some (_, r2) =>
        match blocks_span n' isReforged r2 with
        | Some s =>
          Some ((if isReforged then 12 else 8) + Uint16 blockHeader + s)
        | None => None
        end
      end
    end
  end.

(** The time increment that a pass of the block loop at [offset] adds to
    the clock: that of a time-slot block with its four header bytes in the
    data, 0 otherwise. *)
Definition time_increment (data : list byte) (offset : Z) : Z :=
  let blockID := u8 (at_ data offset) in
  if ((blockID =? BlockTimeSlot) || (blockID =? BlockTimeSlotOld))
     && (offset + 1 + 4 <=? len data)
  then Uint16 (from data (offset + 3))
  else 0.

(** The sum of the time increments over the passes of [block_loop]. *)
Fixpoint elapsed (strict : bool) (data spare : list byte) (version : Z)
  (playerNames : list (Z * go_string)) (fuel : nat) (st : Walk.t) : Z :=
  match fuel with
  | O => 0
  | S fuel' =>
    if Walk.offset st <? len data then
      match block_step strict data spare version playerNames st with
      | Ret st' =>
        time_increment data (Walk.offset st)
        + elapsed strict data spare version playerNames fuel' st'
      | _ => time_increment data (Walk.offset st)
      end
    else 0
  end.

(** The game time a payload spans: the sum of the time increments of the
    time slots [parseGameData] walks over, as a number (no wrap-around). *)
Definition game_time (strict : bool) (header : ReplayHeader.t)
  (data spare : list byte) : Z :=
  match parse_lobby header data spare with
  | Ret lobby =>
    elapsed strict data spare (ReplayHeader.Version header)
      (Lobby.playerNames lobby) (List.length data) (Lobby.start lobby)
  | _ => 0
  end.

(** The number of actions of [actions] issued by player [id], and the
    number of those whose opcode is not [opcode]. *)
Definition actions_of (id : Z) (actions : list GameAction.t) : Z :=
  Z.of_nat
    (List.length (filter (fun a => GameAction.PlayerID a =? id) actions)).

Definition actions_of_except (opcode : Z) (id : Z)
  (actions : list GameAction.t) : Z :=
  Z.of_nat
    (List.length
       (filter (fun a => (GameAction.PlayerID a =? id)
                         && negb (GameAction.ActionType a =? opcode))
          actions)).

(** [r.GetPlayer(id)]: the first player of the list carrying [id]. *)
Definition GetPlayer (players : list PlayerInfo.t) (id : Z)
  : option PlayerInfo.t :=
  find (fun p => PlayerInfo.ID p =? id) players.

(** ** Predicates used in the statements below *)

(** The payload width the decoder gives the two opaque ability actions,
    counted after the opcode byte. *)
Definition opaque_width (opcode version : Z) : Z :=
  (if opcode =? ActionAbilityDropItem then 37 else 42)
  - (if 13 <=? version then 0 else 1).

(** An entry of [parseCommandData] carries its player ID in its action. *)
Definition command_ok (c : command) : Prop :=
  GameAction.PlayerID (snd c) = fst c.

(** A change to a player that keeps what the statements below look at. *)
Definition keeps_player (f : PlayerInfo.t -> PlayerInfo.t) : Prop :=
  forall p, PlayerInfo.ID (f p) = PlayerInfo.ID p
            /\ PlayerInfo.ActionCount (f p) = PlayerInfo.ActionCount p
            /\ PlayerInfo.IsComputer (f p) = PlayerInfo.IsComputer p.

(** The count of the first player carrying [id], 0 when there is none. *)
Definition count_of (players : list PlayerInfo.t) (id : Z) : Z :=
  match GetPlayer players id with
  | Some p => PlayerInfo.ActionCount p
  | None => 0
  end.

Definition present (players : list PlayerInfo.t) (id : Z) : bool :=
  match GetPlayer players id with Some _ => true | None => false end.

(** A player as the lobby records build it: not a computer, no action
    counted yet. *)
Definition fresh_player (p : PlayerInfo.t) : Prop :=
  PlayerInfo.ActionCount p = 0 /\ PlayerInfo.IsComputer p = false.

Definition human (p : PlayerInfo.t) : Prop :=
  PlayerInfo.IsComputer p = false.

(** Timestamps in list order never go down. *)
Definition nondecreasing (actions : list GameAction.t) : Prop :=
  forall (i j : nat) (a b : GameAction.t),
    nth_error actions i = Some a -> nth_error actions j = Some b ->
    (i <= j)%nat ->
    GameAction.TimestampMs a <= GameAction.TimestampMs b.

Definition stamped_before (clock : Z) (actions : list GameAction.t) : Prop :=
  Forall (fun a => GameAction.TimestampMs a <= clock) actions.

(** The exclusion set of C4 as the specification words it: sync selection
    (0x1B), select subgroup (0x19) and pre-subselection (0x1A). *)
Definition apm_excluded (opcode : Z) : bool :=
  (opcode =? ActionSyncSelection) || (opcode =? ActionSelectSubgroup)
  || (opcode =? ActionPreSubselection).

(** The number of actions of player [id] outside the exclusion set. *)
Definition counted_actions_of (id : Z) (actions : list GameAction.t) : Z :=
  Z.of_nat
    (List.length
       (filter (fun a => (GameAction.PlayerID a =? id)
                         && negb (apm_excluded (GameAction.ActionType a)))
          actions)).

(** The file position the declared blocks extend to: the first block
    starts at [HeaderSize]; a file with no block needs nothing there. *)
Definition blocks_end (h : ReplayHeader.t) (span : Z) : Z :=
  if span =? 0 then 0 else ReplayHeader.HeaderSize h + span.


(** ** Sample inputs *)

(** A byte list from its values. *)
Definition bytes (l : list Z) : list byte := map byte.of_Z l.

(** A whole variant-0 header: magic, first block at 0x40, no block, the
    sub-header of version 6 with zero flags and duration. *)
Definition sample_header_v0 : list byte :=
  MagicString
  ++ bytes [0x40; 0; 0; 0;  0x40; 0; 0; 0;  0; 0; 0; 0;  0; 0; 0; 0;
            0; 0; 0; 0]
  ++ bytes [0; 0;  6; 0;  0xA0; 0x0F;  0; 0;  0; 0; 0; 0;  0; 0; 0; 0].

(** Thirty bytes that are not the magic string. *)
Definition sample_short_input : list byte := repeat Byte.x00 30.


(** A header record for the payload samples: a Frozen Throne replay of
    version 26 that lasted one minute. *)
Definition sample_header : ReplayHeader.t :=
  ReplayHeader.mk MagicString 0x44 0 1 0 1 GameIDTFT 26 6059 0x8000 60000 0
    [].

(** The lobby part of a payload: four unknown bytes, the host record of
    player 1 "alice", the game name "g", an empty encoded string, the
    twelve bytes of player count, game type and language, and the record of
    player 2 "bob". *)
Definition sample_lobby : list byte :=
  bytes [0; 0; 0; 0]
  ++ bytes [0x00; 1] ++ bytes_of_string "alice" ++ bytes [0; 1; 0]
  ++ bytes [0x67; 0; 0; 0]
  ++ bytes [0; 0; 0; 0; 0; 0; 0; 0; 0; 0; 0; 0]
  ++ bytes [0x16; 2] ++ bytes_of_string "bob" ++ bytes [0; 1; 0].

(** A game-start record with two Used slots: player 1 (human, team 0) and
    a computer with player ID 3 (team 1, colour 1, orc, handicap 80). *)
Definition sample_game_start : list byte :=
  bytes [0x19; 25; 0; 2;
         1; 100; 2; 0; 0; 0; 1; 0; 100;
         3; 100; 2; 1; 1; 1; 2; 1; 80;
         1; 2; 3; 4; 0; 2].

Definition sample_computer_payload : list byte :=
  sample_lobby ++ sample_game_start.

(** A chat block "hello" by player 2, the unmapped block ID 0xAB, and a
    startup chat block "gg" by player 1. *)
Definition sample_unknown_block_payload : list byte :=
  sample_lobby
  ++ bytes [0x20; 2; 6; 0; 0x20; 0; 0; 0; 0]
  ++ bytes_of_string "hello" ++ bytes [0]
  ++ bytes [0xAB]
  ++ bytes [0x20; 1; 3; 0; 0x10] ++ bytes_of_string "gg" ++ bytes [0].

(** Two time slots of 1000 ms: in the first, player 1 issues a
    pre-subselection (0x1A); in the second, player 2 issues a pause (0x01)
    and a resume (0x02). *)
Definition sample_selection_payload : list byte :=
  sample_lobby
  ++ bytes [0x1F; 6; 0; 0xE8; 0x03;  1; 1; 0; 0x1A]
  ++ bytes [0x1F; 7; 0; 0xE8; 0x03;  2; 2; 0; 0x01; 0x02].

(** A drop-item action (0x13) followed by 39 zero bytes. *)
Definition sample_drop_item : list byte :=
  bytes [0x13] ++ repeat Byte.x00 39.


(** A Reforged file with one compressed block: the 68-byte variant-1
    header (game "PX3W", version 10032, build 6106, first block at 0x44),
    the 12-byte block header announcing two bytes, and the zlib stream
    [78 9C] (a stream header and no deflate data). *)
Definition sample_reforged_file : list byte :=
  MagicString
  ++ bytes [0x44; 0; 0; 0;  82; 0; 0; 0;  1; 0; 0; 0;  0; 0; 0; 0;
            1; 0; 0; 0]
  ++ bytes_of_string "PX3W"
  ++ bytes [0x30; 0x27; 0; 0;  0xDA; 0x17;  0; 0x80;  0; 0; 0; 0;
            0; 0; 0; 0]
  ++ bytes [2; 0;  0; 0;  0; 0; 0; 0;  0; 0; 0; 0]
  ++ bytes [0x78; 0x9C].

(** A library none of whose decompressors yields a byte, for evaluating
    inputs that the model does not hand to them. *)
Definition sample_library : GoLibrary :=
  {| flate_ReadAll := fun _ => None;
     zlib_body := fun _ => ([], EndOther);
     zlib_dict := fun _ => None;
     buffer_spare := fun _ => [] |}.

(** ** Further entry points (parser.go) *)

(** [Parser.ParseHeaderOnly] on a file whose content is [file]. *)
Definition ParseHeaderOnly (file : list byte) : outcome ReplayHeader.t :=
  '(header, _, _) <- parseHeader file ;; Ret header.

(** ** Further predicates and samples *)


(** A time slot of 1000 ms, the leave block of player 1 (result 9), a chat
    block "gg" by player 2 and a second time slot of 1000 ms in which
    player 2 pauses. *)
Definition sample_leave_payload : list byte :=
  sample_lobby
  ++ bytes [0x1F; 2; 0; 0xE8; 0x03]
  ++ bytes [0x17; 1; 0; 0; 0;  1;  9; 0; 0; 0;  0; 0; 0; 0]
  ++ bytes [0x20; 2; 3; 0; 0x10] ++ bytes_of_string "gg" ++ bytes [0]
  ++ bytes [0x1F; 6; 0; 0xE8; 0x03;  2; 1; 0; 0x01].

(** What the lobby part of the payload settles about a player: every
    field but the action count, the APM and the leave fields. *)
Definition lobby_fields (p : PlayerInfo.t)
  : Z * go_string * Z * Z * Z * Z * bool * bool * bool * Z * Z :=
  (PlayerInfo.ID p, PlayerInfo.Name p, PlayerInfo.Race p, PlayerInfo.Team p,
   PlayerInfo.Color p, PlayerInfo.Handicap p, PlayerInfo.IsHost p,
   PlayerInfo.IsComputer p, PlayerInfo.IsObserver p,
   PlayerInfo.SlotStatus p, PlayerInfo.RuntimeMs p).

(** The sample header with a duration of zero. *)
Definition sample_header_no_duration : ReplayHeader.t :=
  ReplayHeader.mk MagicString 0x44 0 1 0 1 GameIDTFT 26 6059 0x8000 0 0 [].

(** The six race bits [RaceFromFlags] looks at. *)
Definition race_bits : list Z :=
  [RaceHuman; RaceOrc; RaceNightElf; RaceUndead; RaceRandom; RaceSelectable].

(** A byte that is no path separator. *)
Definition no_sep (b : byte) : Prop := is_sep b = false.

(** A byte that is not NUL. *)
Definition non_nul (b : byte) : Prop := u8 b <> 0.

(** A path with a directory part, and a bare file name. *)
Definition sample_map_path : go_string :=
  bytes_of_string "Maps\FrozenThrone\(2)EchoIsles.w3x".

Definition sample_map_file : go_string :=
  bytes_of_string "(2)EchoIsles.w3x".

(** The slots of a game-start record that [applySlotInfoToPlayers] turns
    into computer players. *)
Definition computer_slots (slots : list SlotRecord.t) : list SlotRecord.t :=
  filter (fun s => (SlotRecord.SlotStatus s =? SlotUsed)
                   && SlotRecord.IsComputer s) slots.

(** ** Duration formatting (w3g.go) *)

(** The loop of [intToStr], [for n > 0]: the digit [n % 10] goes in front
    of [digits] and [n] becomes [n / 10].  [n] drops at every pass, so [n]
    passes are enough. *)
Fixpoint intToStr_loop (fuel : nat) (n : Z) (digits : list byte)
  : list byte :=
  match fuel with
  | O => digits
  | S fuel' =>
    if 0 <? n
    then intToStr_loop fuel' (n / 10) (byte.of_Z (48 + n mod 10) :: digits)
    else digits
  end.

(** [intToStr]. *)
Definition intToStr (n : Z) : go_string :=
  if n =? 0 then bytes_of_string "0"
  else intToStr_loop (Z.to_nat n) n [].

(** [padInt]. *)
Definition padInt (n : Z) : go_string :=
  if n <? 10 then bytes_of_string "0" ++ intToStr n else intToStr n.

(** [formatDurationParts] and [formatDurationMinSec]. *)
Definition formatDurationParts (h m s : Z) : go_string :=
  padInt h ++ bytes_of_string ":" ++ padInt m ++ bytes_of_string ":"
  ++ padInt s.

Definition formatDurationMinSec (m s : Z) : go_string :=
  intToStr m ++ bytes_of_string ":" ++ padInt s.

(** [FormatDuration(ms)] for a [uint32] value [ms]. *)
Definition FormatDuration (ms : Z) : go_string :=
  let totalSeconds := ms / 1000 in
  let hours := totalSeconds / 3600 in
  let minutes := (totalSeconds mod 3600) / 60 in
  let seconds := totalSeconds mod 60 in
  if 0 <? hours then formatDurationParts hours minutes seconds
  else formatDurationMinSec minutes seconds.

(** Reading a formatted duration back: the value of a run of decimal
    digits, and the fields between the colons of a text. *)
Definition is_digit (b : byte) : Prop := 48 <= u8 b <= 57.

Definition digits_value (l : list byte) : Z :=
  fold_left (fun acc b => acc * 10 + (u8 b - 48)) l 0.

Fixpoint colon_fields (l : list byte) : list (list byte) :=
  match l with
  | [] => [[]]
  | b :: l' =>
    if u8 b =? 58 then [] :: colon_fields l'
    else
      match colon_fields l' with
      | f :: fs => (b :: f) :: fs
      | [] => [[b]]
      end
  end.

(** The players of a list that come after another player with the same
    ID; [seen] holds the IDs met so far.  The loops of [parseGameData] that
    look a player up by ID stop at the first one, so they never reach
    these. *)
Fixpoint shadowed (seen : list Z) (players : list PlayerInfo.t)
  : list PlayerInfo.t :=
  match players with
  | [] => []
  | p :: players' =>
    if existsb (Z.eqb (PlayerInfo.ID p)) seen
    then p :: shadowed seen players'
    else shadowed (PlayerInfo.ID p :: seen) players'
  end.

(** A lobby with two records for player ID 1 ("alice" as host, then
    "bob"), and a time slot in which player 1 pauses. *)
Definition sample_duplicate_payload : list byte :=
  bytes [0; 0; 0; 0]
  ++ bytes [0x00; 1] ++ bytes_of_string "alice" ++ bytes [0; 1; 0]
  ++ bytes [0x67; 0; 0; 0]
  ++ bytes [0; 0; 0; 0; 0; 0; 0; 0; 0; 0; 0; 0]
  ++ bytes [0x16; 1] ++ bytes_of_string "bob" ++ bytes [0; 1; 0]
  ++ bytes [0x1F; 6; 0; 0xE8; 0x03;  1; 1; 0; 0x01].

(** * Properties *)

(** ** Bytes and slices *)

Lemma len_nonneg (l : list byte) : 0 <= len l.
Proof. unfold len. lia. Qed.

Lemma len_app (a b : list byte) : len (a ++ b) = len a + len b.
Proof. unfold len. rewrite length_app. lia. Qed.

Lemma u8_range (b : byte) : 0 <= u8 b < 256.
Proof. exact (byte.unsigned_range b). Qed.

Lemma u8_of_Z (z : Z) : u8 (byte.of_Z z) = z mod 2 ^ 8.
Proof. unfold u8. now rewrite byte.unsigned_of_Z. Qed.

Lemma bytes_eqb_eq (a b : list byte) : bytes_eqb a b = true <-> a = b.
Proof.
  revert b. induction a as [|x a IH]; intros [|y b]; simpl; split;
    try congruence; try reflexivity.
  - intros H. apply andb_true_iff in H as [Hx Ha].
    apply Byte.byte_dec_bl in Hx. apply IH in Ha. congruence.
  - intros H. inversion H; subst. apply andb_true_iff. split.
    + now apply Byte.byte_dec_lb.
    + now apply IH.
Qed.

Lemma bytes_eqb_neq (a b : list byte) : bytes_eqb a b = false <-> a <> b.
Proof.
  split.
  - intros H E. apply bytes_eqb_eq in E. congruence.
  - intros H. destruct (bytes_eqb a b) eqn:E; [|reflexivity].
    apply bytes_eqb_eq in E. contradiction.
Qed.

Lemma firstn_add_split {A : Type} (a b : nat) (l : list A) :
  firstn a l ++ firstn b (skipn a l) = firstn (a + b) l.
Proof.
  revert l. induction a as [|a IH]; intros [|x l]; simpl;
    try reflexivity.
  - now rewrite firstn_nil.
  - now rewrite IH.
Qed.


(** The run [until_nul] returns holds no NUL, and stops at a NUL byte or
    at the end of the list. *)
Lemma until_nul_nonzero (l : list byte) :
  Forall (fun b => u8 b <> 0) (until_nul l).
Proof.
  induction l as [|b l IH]; simpl; [constructor|].
  destruct (u8 b =? 0) eqn:E; constructor; [|exact IH].
  now apply Z.eqb_neq.
Qed.

Lemma until_nul_len (l : list byte) : len (until_nul l) <= len l.
Proof.
  induction l as [|b l IH]; simpl; [lia|].
  destruct (u8 b =? 0); unfold len in *; simpl; lia.
Qed.


Lemma ReadFull_some (r : list byte) (n : Z) :
  n <= len r ->
  ReadFull r n = Some (firstn (Z.to_nat n) r, skipn (Z.to_nat n) r).
Proof. intros H. unfold ReadFull. now rewrite (proj2 (Z.leb_le _ _) H). Qed.

Lemma ReadFull_none (r : list byte) (n : Z) :
  len r < n -> ReadFull r n = None.
Proof. intros H. unfold ReadFull. now rewrite (proj2 (Z.leb_gt _ _) H). Qed.

Lemma Uint32_from_firstn (l : list byte) (n i : nat) :
  (i + 4 <= n)%nat ->
  Uint32 (skipn i (firstn n l)) = Uint32 (skipn i l).
Proof.
  intros H. unfold Uint32. rewrite skipn_firstn_comm, firstn_firstn.
  now replace (Nat.min 4 (n - i)) with 4%nat by lia.
Qed.

(** ** The header decoder *)

(** C9 (amended).  An input shorter than the 48-byte base header fails with
    Truncated, whatever its bytes.  With 48 bytes or more, the decoder
    fails with InvalidHeader exactly when the first 28 bytes differ from the
    magic string or the header-variant field at offset 0x24 is neither 0 nor
    1; with a good magic and variant it fails with Truncated when fewer than
    16 (variant 0) or 20 (variant 1) bytes follow the base header, and
    otherwise succeeds, having read 48 + 16 or 48 + 20 bytes. *)
Theorem parseHeader_outcome (input : list byte) :
  (len input < 48 -> parseHeader input = Fail (TruncatedDataError 48)) /\
  (48 <= len input ->
   let variant := Uint32 (from input 0x24) in
   let sub := if variant =? 0 then 16 else 20 in
   (parseHeader input = Fail InvalidHeaderError <->
    firstn 28 input <> MagicString \/ (variant <> 0 /\ variant <> 1)) /\
   (firstn 28 input = MagicString -> variant = 0 \/ variant = 1 ->
    (len input - 48 < sub ->
     parseHeader input = Fail (TruncatedDataError 48)) /\
    (sub <= len input - 48 ->
     exists h : ReplayHeader.t,
       parseHeader input
       = Ret (h, firstn (Z.to_nat (48 + sub)) input,
              skipn (Z.to_nat (48 + sub)) input)
       /\ ReplayHeader.HeaderVersion h = variant))).
Proof.
  split.
  - intros H. unfold parseHeader. now rewrite ReadFull_none.
  - intros H variant sub.
    assert (Hm : slice (firstn 48 input) 0 28 = firstn 28 input).
    { change (slice (firstn 48 input) 0 28)
        with (firstn 28 (skipn 0 (firstn 48 input))).
      cbn [skipn]. now rewrite firstn_firstn. }
    assert (Hv : Uint32 (from (firstn 48 input) 0x24) = variant).
    { unfold variant, from. change (Z.to_nat 0x24) with 36%nat.
      apply Uint32_from_firstn. lia. }
    unfold parseHeader. rewrite ReadFull_some by exact H.
    change (Z.to_nat BaseHeaderSize) with 48%nat.
    rewrite Hm, Hv.
    assert (Hr : len (skipn 48 input) = len input - 48).
    { unfold len. rewrite length_skipn. unfold len in H. lia. }
    destruct (bytes_eqb (firstn 28 input) MagicString) eqn:Em; cbn [negb].
    + apply bytes_eqb_eq in Em.
      destruct (variant =? 0) eqn:E0; [|destruct (variant =? 1) eqn:E1].
      * apply Z.eqb_eq in E0. split.
        { split.
          - unfold ReadFull.
            destruct (SubHeaderV0Size <=? len (skipn 48 input));
              intros Hd; discriminate Hd.
          - intros [Hd|[Hd _]]; contradiction. }
        intros _ _. split.
        { intros Hs. rewrite ReadFull_none; [reflexivity|].
          rewrite Hr. subst sub. exact Hs. }
        intros Hs. subst sub.
        rewrite ReadFull_some by (rewrite Hr; exact Hs).
        eexists. split.
        { change (Z.to_nat (48 + 16)) with (48 + 16)%nat.
          change (Z.to_nat SubHeaderV0Size) with 16%nat.
          rewrite <- firstn_add_split, skipn_skipn.
          replace (16 + 48)%nat with (48 + 16)%nat by lia. reflexivity. }
        reflexivity.
      * apply Z.eqb_eq in E1. split.
        { split.
          - unfold ReadFull.
            destruct (SubHeaderV1Size <=? len (skipn 48 input));
              intros Hd; discriminate Hd.
          - intros [Hd|[_ Hd]]; contradiction. }
        intros _ _. split.
        { intros Hs. rewrite ReadFull_none; [reflexivity|].
          rewrite Hr. subst sub. exact Hs. }
        intros Hs. subst sub.
        rewrite ReadFull_some by (rewrite Hr; exact Hs).
        eexists. split.
        { change (Z.to_nat (48 + 20)) with (48 + 20)%nat.
          change (Z.to_nat SubHeaderV1Size) with 20%nat.
          rewrite <- firstn_add_split, skipn_skipn.
          replace (20 + 48)%nat with (48 + 20)%nat by lia. reflexivity. }
        reflexivity.
      * apply Z.eqb_neq in E0, E1. split.
        { split; [intros _; right; now split | reflexivity]. }
        intros _ [Hd|Hd]; contradiction.
    + apply bytes_eqb_neq in Em. split.
      * split; [intros _; now left | reflexivity].
      * intros Hd. contradiction.
Qed.

(** The theorem at a whole variant-0 header: it is accepted. *)
Lemma parseHeader_outcome_witness :
  48 <= len sample_header_v0
  /\ firstn 28 sample_header_v0 = MagicString
  /\ Uint32 (from sample_header_v0 0x24) = 0
  /\ exists h : ReplayHeader.t,
       parseHeader sample_header_v0
       = Ret (h, firstn 64 sample_header_v0, skipn 64 sample_header_v0)
       /\ ReplayHeader.HeaderVersion h = 0.
Proof.
  split; [vm_compute; discriminate|].
  split; [reflexivity|]. split; [reflexivity|].
  destruct (parseHeader_outcome sample_header_v0) as [_ H].
  destruct (H ltac:(vm_compute; discriminate)) as [_ H'].
  destruct (H' eq_refl (or_introl eq_refl)) as [_ Hok].
  exact (Hok ltac:(vm_compute; discriminate)).
Defined.

(** C9 as stated fails on a short input: thirty zero bytes do not start
    with the magic string, yet the decoder reports Truncated, not
    InvalidHeader. *)
Lemma parseHeader_short_input_counterexample :
  ~ (forall input : list byte,
       parseHeader input = Fail InvalidHeaderError <->
       firstn 28 input <> MagicString
       \/ (Uint32 (from input 0x24) <> 0 /\ Uint32 (from input 0x24) <> 1)).
Proof.
  intros H. destruct (H sample_short_input) as [_ H'].
  assert (E : parseHeader sample_short_input
              = Fail (TruncatedDataError 48)) by reflexivity.
  rewrite E in H'.
  assert (Hd : Fail (A := ReplayHeader.t * list byte * list byte)
                 (TruncatedDataError 48) = Fail InvalidHeaderError).
  { apply H'. left. vm_compute. discriminate. }
  discriminate Hd.
Qed.

(** ** The chat decoder *)



(** ** The control-byte scheme *)














(** ** The action decoder *)

Lemma slice_app_l (data spare : list byte) (a b : Z) :
  0 <= a -> a <= b -> b <= len data ->
  slice (data ++ spare) a b = slice data a b.
Proof.
  intros Ha Hab Hb. unfold slice, from, len in *.
  rewrite skipn_app, firstn_app, length_skipn.
  replace (Z.to_nat (b - a) - (List.length data - Z.to_nat a))%nat
    with 0%nat by lia.
  now rewrite firstn_O, app_nil_r.
Qed.

Lemma go_slice_within (data spare : list byte) (a b : Z) :
  0 <= a -> a <= b -> b <= len data ->
  go_slice data spare a b = Ret (slice data a b).
Proof.
  intros Ha Hab Hb. unfold go_slice.
  pose proof (len_nonneg spare).
  rewrite (proj2 (Z.leb_le b (len data + len spare))) by lia.
  now rewrite slice_app_l.
Qed.

Lemma action_body_drop_item (data spare : list byte) (version offset : Z) :
  action_body data spare version ActionAbilityDropItem offset
  = Ret (Some ("drop_item"%string,
               offset + ((if 13 <=? version then 38 else 37) - 1))).
Proof. reflexivity. Qed.

Lemma action_body_two_pos (data spare : list byte) (version offset : Z) :
  action_body data spare version ActionAbilityTwoPos offset
  = Ret (Some ("ability_two_positions"%string,
               offset + ((if 13 <=? version then 43 else 42) - 1))).
Proof. reflexivity. Qed.

Lemma action_body_no_params (data spare : list byte) (version offset : Z) :
  offset + (if version <? 13 then 13 else 14) - 1 <= len data ->
  action_body data spare version ActionAbilityNoParams offset
  = Ret (Some ("ability"%string,
               offset + ((if version <? 13 then 13 else 14) - 1))).
Proof.
  intros H. unfold action_body.
  change (ActionAbilityNoParams =? ActionPause) with false.
  change (ActionAbilityNoParams =? ActionResume) with false.
  change (ActionAbilityNoParams =? ActionSetSpeed) with false.
  change (ActionAbilityNoParams =? ActionIncSpeed) with false.
  change (ActionAbilityNoParams =? ActionDecSpeed) with false.
  change (ActionAbilityNoParams =? ActionSaveGame) with false.
  change (ActionAbilityNoParams =? ActionSaveFinished) with false.
  change (ActionAbilityNoParams =? ActionAbilityNoParams) with true.
  cbv beta iota zeta. cbn [orb].
  rewrite (proj2 (Z.leb_le _ _) H).
  do 3 f_equal. destruct (version <? 13); lia.
Qed.

(** With the whole action in the data, decoding a drop-item (0x13) or a
    two-position (0x14) ability action moves the cursor 37 or 42 bytes past
    the opcode for version 13 and later, and 36 or 41 bytes before: the
    [actionSize] of the source counts the opcode.  The payload is the
    opcode with these bytes. *)
Theorem parseAction_opaque_width (data spare : list byte)
  (offset version : Z) :
  0 <= offset -> offset < len data ->
  u8 (at_ data offset) = ActionAbilityDropItem
  \/ u8 (at_ data offset) = ActionAbilityTwoPos ->
  let w := opaque_width (u8 (at_ data offset)) version in
  offset + 1 + w <= len data ->
  exists a : GameAction.t,
    parseAction data spare offset version = Ret (Some a, offset + 1 + w)
    /\ GameAction.ActionType a = u8 (at_ data offset)
    /\ GameAction.Payload a = slice data offset (offset + 1 + w).
Proof.
  intros H0 Hlt Hop w Hw. unfold parseAction.
  rewrite (proj2 (Z.leb_gt _ _) Hlt).
  subst w. unfold opaque_width in *.
  destruct Hop as [E|E]; rewrite E in *.
  - change (ActionAbilityDropItem =? ActionAbilityDropItem) with true in *.
    cbv iota in *.
    rewrite action_body_drop_item. cbn [bind].
    replace (offset + 1 + ((if 13 <=? version then 38 else 37) - 1))
      with (offset + 1 + (37 - (if 13 <=? version then 0 else 1)))
      by (destruct (13 <=? version); lia).
    rewrite go_slice_within by (destruct (13 <=? version); lia).
    cbn [bind].
    eexists. split; [reflexivity|]. split; reflexivity.
  - change (ActionAbilityTwoPos =? ActionAbilityDropItem) with false in *.
    cbv iota in *.
    rewrite action_body_two_pos. cbn [bind].
    replace (offset + 1 + ((if 13 <=? version then 43 else 42) - 1))
      with (offset + 1 + (42 - (if 13 <=? version then 0 else 1)))
      by (destruct (13 <=? version); lia).
    rewrite go_slice_within by (destruct (13 <=? version); lia).
    cbn [bind].
    eexists. split; [reflexivity|]. split; reflexivity.
Qed.

(** The theorem at a drop-item action with 39 bytes after the opcode, for
    version 13: the cursor ends at 38, that is 37 bytes past the opcode. *)
Lemma parseAction_opaque_width_witness :
  exists a : GameAction.t,
    parseAction sample_drop_item [] 0 13 = Ret (Some a, 38)
    /\ GameAction.ActionType a = ActionAbilityDropItem.
Proof.
  destruct (parseAction_opaque_width sample_drop_item [] 0 13)
    as [a [H1 [H2 _]]].
  - lia.
  - vm_compute. reflexivity.
  - left. reflexivity.
  - vm_compute. discriminate.
  - exists a. split; [exact H1|exact H2].
Defined.

(** C7 as stated fails: with version 13 and 39 bytes after a 0x13 opcode,
    the cursor ends 37 bytes past the opcode, not 38. *)
Lemma parseAction_width_counterexample :
  ~ (forall (data spare : list byte) (offset version : Z)
            (a : GameAction.t) (offset' : Z),
       13 <= version -> 0 <= offset -> offset + 1 + 38 <= len data ->
       u8 (at_ data offset) = ActionAbilityDropItem ->
       parseAction data spare offset version = Ret (Some a, offset') ->
       offset' = offset + 1 + 38).
Proof.
  intros H.
  destruct (parseAction sample_drop_item [] 0 13) as [[[a|] off]| |] eqn:E;
    try (vm_compute in E; discriminate E).
  assert (Hoff : off = 38).
  { vm_compute in E. now inversion E. }
  specialize (H sample_drop_item [] 0 13 a off).
  rewrite H in Hoff; try assumption; try lia.
  - vm_compute. discriminate.
  - reflexivity.
Qed.

(** ** The block loop *)



Lemma action_loop_ok (fuel : nat) :
  forall data spare version playerID offset actionEnd results results',
  Forall command_ok results ->
  action_loop fuel data spare version playerID offset actionEnd results
  = Ret results' ->
  Forall command_ok results'.
Proof.
  induction fuel as [|fuel IH];
    intros data spare version playerID offset actionEnd results results'
      Hok H; cbn [action_loop] in H.
  - now inversion H; subst.
  - destruct (offset <? actionEnd); [|now inversion H; subst].
    destruct (parseAction data spare offset version)
      as [[[a|] newOffset]| |] eqn:E; cbn [bind] in H; try discriminate.
    + eapply IH; [|exact H]. apply Forall_app. split; [exact Hok|].
      constructor; [reflexivity|constructor].
    + now inversion H; subst.
Qed.

Lemma frame_loop_ok (fuel : nat) :
  forall data spare version offset end_ results results',
  Forall command_ok results ->
  frame_loop fuel data spare version offset end_ results = Ret results' ->
  Forall command_ok results'.
Proof.
  induction fuel as [|fuel IH];
    intros data spare version offset end_ results results' Hok H;
    cbn [frame_loop] in H.
  - now inversion H; subst.
  - destruct (offset <? end_); [|now inversion H; subst].
    destruct (len data <? offset + 3); [now inversion H; subst|].
    cbv zeta in H.
    destruct (action_loop _ data spare version _ _ _ results)
      as [res| |] eqn:E; cbn [bind] in H; try discriminate.
    eapply IH; [|exact H]. eapply action_loop_ok; eassumption.
Qed.

Lemma parseCommandData_ok data spare offset length version cmds :
  parseCommandData data spare offset length version = Ret cmds ->
  Forall command_ok cmds.
Proof. intros H. eapply frame_loop_ok; [constructor|exact H]. Qed.

Lemma keeps_set_leave (result time : option Z) :
  keeps_player (fun p => set_leave p result time).
Proof. intros p. repeat split. Qed.

(** What one pass of the block loop does to the clock, the players and
    the actions: either it is no time slot, and then it leaves clock and
    actions alone and changes at most one player's leave fields; or it
    advances the clock by the slot's increment and records the commands of
    the slot at the new clock.  The cursor moves forward in both cases. *)
Lemma block_step_cases strict data spare version names st st' :
  block_step strict data spare version names st = Ret st' ->
  Walk.offset st < Walk.offset st'
  /\ ((time_increment data (Walk.offset st) = 0
       /\ Walk.currentTimeMs st' = Walk.currentTimeMs st
       /\ Walk.actions st' = Walk.actions st
       /\ exists id f, keeps_player f
            /\ Walk.players st' = update_first id f (Walk.players st))
      \/ (exists cmds,
            Forall command_ok cmds
            /\ Walk.currentTimeMs st'
               = wrap32 (Walk.currentTimeMs st
                         + time_increment data (Walk.offset st))
            /\ (Walk.players st', Walk.actions st')
               = record_commands cmds (Walk.currentTimeMs st')
                   (Walk.players st) (Walk.actions st))).
Proof.
  intros H. unfold block_step in H. unfold time_increment.
  set (blockID := u8 (at_ data (Walk.offset st))) in *.
  assert (Hid : forall players : list PlayerInfo.t,
            exists id f, keeps_player f
              /\ players = update_first id f players).
  { intros players. exists 0, (fun p => p). split.
    - intros p. repeat split.
    - induction players as [|p ps IHp]; cbn; [reflexivity|].
      destruct (PlayerInfo.ID p =? 0); [reflexivity|]. now f_equal. }
  destruct (blockID =? BlockLeaveGame) eqn:E1.
  { apply Z.eqb_eq in E1. rewrite E1. cbn [orb andb Z.eqb].
    change ((BlockLeaveGame =? BlockTimeSlot)
            || (BlockLeaveGame =? BlockTimeSlotOld)) with false.
    cbn [andb].
    destruct (Walk.offset st + 1 + 13 <=? len data);
      inversion H; subst; clear H; cbn; (split; [lia|]); left;
      repeat split; try reflexivity.
    - eexists _, _. split; [apply keeps_set_leave|reflexivity].
    - apply Hid. }
  destruct ((blockID =? BlockFirstStart) || (blockID =? BlockSecondStart)
            || (blockID =? BlockThirdStart)) eqn:E2.
  { assert (Et : (blockID =? BlockTimeSlot) || (blockID =? BlockTimeSlotOld)
                 = false).
    { apply orb_true_iff in E2 as [E2|E2];
        [apply orb_true_iff in E2 as [E2|E2]|];
        apply Z.eqb_eq in E2; rewrite E2; reflexivity. }
    rewrite Et. cbn [andb].
    inversion H; subst; clear H; cbn; (split; [lia|]); left;
      repeat split; try reflexivity. apply Hid. }
  destruct ((blockID =? BlockTimeSlot) || (blockID =? BlockTimeSlotOld))
    eqn:E3.
  { cbn [andb].
    replace (Walk.offset st + 1 + 2 + 2) with (Walk.offset st + 1 + 4)
      in H by lia.
    destruct (Walk.offset st + 1 + 4 <=? len data) eqn:E4.
    - replace (Walk.offset st + 1 + 2) with (Walk.offset st + 3) in H by lia.
      destruct (2 <? Uint16 (from data (Walk.offset st + 1))) eqn:E5.
      + destruct (parseCommandData data spare _ _ version)
          as [cmds| |] eqn:Ec; cbn [bind] in H; try discriminate.
        destruct (record_commands cmds _ (Walk.players st) (Walk.actions st))
          as [players actions] eqn:Er.
        inversion H; subst; clear H. cbn.
        apply Z.ltb_lt in E5. split; [lia|]. right. exists cmds.
        split; [eapply parseCommandData_ok; eassumption|].
        split; [reflexivity|]. now rewrite Er.
      + inversion H; subst; clear H. cbn. split; [lia|]. right.
        exists []. split; [constructor|]. split; reflexivity.
    - inversion H; subst; clear H; cbn; (split; [lia|]); left;
        repeat split; try reflexivity. apply Hid. }
  cbn [andb].
  destruct (blockID =? BlockChat) eqn:E6.
  { destruct (parseChatMessage data (Walk.offset st + 1) names)
      as [chatMsg newOffset] eqn:Ec.
    assert (Hoff : Walk.offset st + 1 <= newOffset).
    { unfold parseChatMessage in Ec.
      destruct (len data <? Walk.offset st + 1 + 4).
      - inversion Ec; subst. lia.
      - destruct (_ =? ChatFlagStartup); [|destruct (_ =? ChatFlagNormal);
          [destruct (_ <=? len data)|]];
          inversion Ec; subst;
          match goal with
          | |- context [len (until_nul ?l)] =>
            pose proof (len_nonneg (until_nul l))
          end; lia. }
    inversion H; subst; clear H; cbn; (split; [lia|]); left;
      repeat split; try reflexivity. apply Hid. }
  destruct (blockID =? BlockChecksum) eqn:E7.
  { destruct (Walk.offset st + 1 <? len data);
      inversion H; subst; clear H; cbn;
      (split; [pose proof (u8_range (at_ data (Walk.offset st + 1))); lia|]);
      left; repeat split; try reflexivity; apply Hid. }
  destruct (blockID =? BlockForcedEnd) eqn:E8.
  { inversion H; subst; clear H; cbn; (split; [lia|]); left;
      repeat split; try reflexivity. apply Hid. }
  destruct (blockID =? 35) eqn:E9.
  { destruct (Walk.offset st + 1 <? len data);
      inversion H; subst; clear H; cbn;
      (split; [pose proof (u8_range (at_ data (Walk.offset st + 1))); lia|]);
      left; repeat split; try reflexivity; apply Hid. }
  destruct (negb strict);
    inversion H; subst; clear H; cbn; (split; [lia|]); left;
    repeat split; try reflexivity; apply Hid.
Qed.




(** ** Action counts *)

Lemma GetPlayer_update_first id f players id' :
  keeps_player f ->
  GetPlayer (update_first id f players) id'
  = if id' =? id then option_map f (GetPlayer players id')
    else GetPlayer players id'.
Proof.
  intros Hf. unfold GetPlayer.
  induction players as [|p ps IH]; cbn [update_first find].
  - now destruct (id' =? id).
  - destruct (PlayerInfo.ID p =? id) eqn:E.
    + apply Z.eqb_eq in E. cbn [find].
      rewrite (proj1 (Hf p)), E.
      destruct (Z.eqb_spec id id') as [->|N].
      * now rewrite Z.eqb_refl.
      * destruct (Z.eqb_spec id' id); [congruence|reflexivity].
    + cbn [find]. destruct (PlayerInfo.ID p =? id') eqn:E'.
      * apply Z.eqb_eq in E'. apply Z.eqb_neq in E.
        destruct (Z.eqb_spec id' id); [congruence|reflexivity].
      * exact IH.
Qed.

Lemma actions_of_app id a b :
  actions_of id (a ++ b) = actions_of id a + actions_of id b.
Proof. unfold actions_of. rewrite filter_app, length_app. lia. Qed.



Lemma keeps_count_action : forall p,
  PlayerInfo.ID (count_action p) = PlayerInfo.ID p
  /\ PlayerInfo.IsComputer (count_action p) = PlayerInfo.IsComputer p.
Proof. intros p. split; reflexivity. Qed.

Lemma GetPlayer_count_action id players id' :
  GetPlayer (update_first id count_action players) id'
  = if id' =? id then option_map count_action (GetPlayer players id')
    else GetPlayer players id'.
Proof.
  unfold GetPlayer.
  induction players as [|p ps IH]; cbn [update_first find].
  - now destruct (id' =? id).
  - destruct (PlayerInfo.ID p =? id) eqn:E.
    + apply Z.eqb_eq in E. cbn [find].
      change (PlayerInfo.ID (count_action p)) with (PlayerInfo.ID p).
      rewrite E.
      destruct (Z.eqb_spec id id') as [->|N].
      * now rewrite Z.eqb_refl.
      * destruct (Z.eqb_spec id' id); [congruence|reflexivity].
    + cbn [find]. destruct (PlayerInfo.ID p =? id') eqn:E'.
      * apply Z.eqb_eq in E'. apply Z.eqb_neq in E.
        destruct (Z.eqb_spec id' id); [congruence|reflexivity].
      * exact IH.
Qed.

(** Recording the commands of a slot: every command, whatever its opcode,
    adds one to the count of the first player carrying its ID. *)
Lemma record_commands_counts cmds :
  forall clock players actions players' actions' id,
  Forall command_ok cmds ->
  record_commands cmds clock players actions = (players', actions') ->
  present players' id = present players id
  /\ (present players id = true ->
      count_of players' id - actions_of id actions'
      = count_of players id - actions_of id actions).
Proof.
  induction cmds as [|[pid a] cmds IH];
    intros clock players actions players' actions' id Hok H;
    cbn [record_commands] in H.
  - inversion H; subst. split; [reflexivity|]. intros _. reflexivity.
  - inversion Hok as [|c cs Hc Hcs]; subst. unfold command_ok in Hc.
    cbn in Hc.
    destruct (IH _ _ _ _ _ id Hcs H) as [Hp Hcnt].
    assert (Hp1 : present (update_first pid count_action players) id
                  = present players id).
    { unfold present. rewrite GetPlayer_count_action.
      destruct (id =? pid); [|reflexivity].
      now destruct (GetPlayer players id). }
    split; [congruence|].
    intros Hpr. rewrite Hcnt by congruence.
    rewrite actions_of_app.
    unfold count_of. rewrite GetPlayer_count_action.
    unfold actions_of at 2. cbn [filter]. cbn [GameAction.PlayerID set_action_time].
    rewrite Hc. rewrite (Z.eqb_sym pid id).
    unfold present in Hpr.
    destruct (id =? pid).
    + destruct (GetPlayer players id); [|discriminate].
      cbn. lia.
    + cbn. lia.
Qed.

Lemma block_step_counts strict data spare version names st st' id :
  block_step strict data spare version names st = Ret st' ->
  present (Walk.players st') id = present (Walk.players st) id
  /\ (present (Walk.players st) id = true ->
      count_of (Walk.players st') id - actions_of id (Walk.actions st')
      = count_of (Walk.players st) id - actions_of id (Walk.actions st)).
Proof.
  intros H. apply block_step_cases in H as [_ [H|H]].
  - destruct H as [_ [_ [Ha [pid [f [Hf Hp]]]]]].
    rewrite Ha, Hp. unfold present, count_of.
    rewrite GetPlayer_update_first by exact Hf.
    destruct (id =? pid); [|split; reflexivity].
    destruct (GetPlayer (Walk.players st) id) as [p|]; cbn.
    + split; [reflexivity|]. intros _. now rewrite (proj1 (proj2 (Hf p))).
    + split; [reflexivity|discriminate].
  - destruct H as [cmds [Hok [_ Hr]]].
    eapply record_commands_counts; [exact Hok|]. symmetry. exact Hr.
Qed.

Lemma block_loop_counts strict data spare version names fuel :
  forall st st' id,
  block_loop strict data spare version names fuel st = Ret st' ->
  present (Walk.players st') id = present (Walk.players st) id
  /\ (present (Walk.players st) id = true ->
      count_of (Walk.players st') id - actions_of id (Walk.actions st')
      = count_of (Walk.players st) id - actions_of id (Walk.actions st)).
Proof.
  induction fuel as [|fuel IH]; intros st st' id H; cbn [block_loop] in H.
  - inversion H; subst. split; [reflexivity|]. intros _. reflexivity.
  - destruct (Walk.offset st <? len data).
    + destruct (block_step strict data spare version names st)
        as [st1| |] eqn:E; cbn [bind] in H; try discriminate.
      destruct (block_step_counts _ _ _ _ _ _ _ id E) as [Hp1 Hc1].
      destruct (IH _ _ id H) as [Hp2 Hc2].
      split; [congruence|]. intros Hpr.
      rewrite Hc2 by congruence. now apply Hc1.
    + inversion H; subst. split; [reflexivity|]. intros _. reflexivity.
Qed.

(** ** The lobby *)


Lemma parsePlayerRecord_fresh data offset isHost p newOffset :
  parsePlayerRecord data offset isHost = (Some p, newOffset) ->
  fresh_player p.
Proof.
  unfold parsePlayerRecord.
  repeat match goal with
         | |- context [if ?c then _ else _] => destruct c
         end;
    intros H; inversion H; subst; split; reflexivity.
Qed.

Lemma additional_players_fresh fuel :
  forall data offset players names offset' players' names',
  Forall fresh_player players ->
  additional_players fuel data offset players names
  = (offset', players', names') ->
  Forall fresh_player players'.
Proof.
  induction fuel as [|fuel IH];
    intros data offset players names offset' players' names' Hf H;
    cbn [additional_players] in H.
  - now inversion H; subst.
  - destruct (offset <? len data); [|now inversion H; subst].
    destruct (parsePlayerRecord data offset false) as [[p|] newOffset] eqn:E.
    + eapply IH; [|exact H]. apply Forall_app. split; [exact Hf|].
      constructor; [|constructor].
      eapply parsePlayerRecord_fresh; eassumption.
    + now inversion H; subst.
Qed.

Lemma update_at_Forall {A : Type} (P : A -> Prop) (f : A -> A) i l :
  (forall x, P x -> P (f x)) -> Forall P l -> Forall P (update_at i f l).
Proof.
  intros Hf. revert i. induction l as [|x l IH]; intros i Hl.
  - destruct i; constructor.
  - inversion Hl; subst. destruct i; cbn [update_at]; constructor; auto.
Qed.

Lemma apply_slots_fresh pmap observerTeam slots :
  forall objs appended objs' appended',
  Forall fresh_player objs ->
  apply_slots pmap observerTeam slots objs appended = (objs', appended') ->
  Forall fresh_player objs'.
Proof.
  induction slots as [|slot slots IH];
    intros objs appended objs' appended' Hf H; cbn [apply_slots] in H.
  - now inversion H; subst.
  - destruct (negb (SlotRecord.SlotStatus slot =? SlotUsed));
      [eapply IH; eassumption|].
    destruct (SlotRecord.IsComputer slot); [eapply IH; eassumption|].
    destruct (pmap (SlotRecord.PlayerID slot)) as [i|];
      [|eapply IH; eassumption].
    eapply IH; [|exact H]. apply update_at_Forall; [|exact Hf].
    intros p [Hc Hi]. split; assumption.
Qed.

Lemma applySlotInfoToPlayers_fresh players slots version :
  Forall fresh_player players ->
  Forall fresh_player (fst (applySlotInfoToPlayers players slots version)).
Proof.
  intros Hf. unfold applySlotInfoToPlayers.
  destruct (apply_slots _ _ slots players []) as [objs appended] eqn:E.
  cbn [fst]. eapply apply_slots_fresh; eassumption.
Qed.

(** The state the block loop starts from: clock 0, no action, players
    that are no computers and have no action counted. *)
Lemma parse_lobby_start header data spare lobby :
  parse_lobby header data spare = Ret lobby ->
  Walk.currentTimeMs (Lobby.start lobby) = 0
  /\ Walk.actions (Lobby.start lobby) = []
  /\ Forall fresh_player (Walk.players (Lobby.start lobby)).
Proof.
  unfold parse_lobby. cbv zeta.
  destruct (parsePlayerRecord data _ true) as [[host|] newOffset] eqn:Eh.
  - destruct (go_slice data spare _ _) as [gameName| |]; cbn [bind];
      try discriminate.
    destruct (decodeEncodedString data _) as [encodedData newOffset'].
    destruct (if 0 <? len encodedData then _ else _) as [[settings mapPath] mapName].
    destruct (additional_players _ data _ [host] _)
      as [[offset players] names] eqn:Ea.
    assert (Hp : Forall fresh_player players).
    { eapply additional_players_fresh; [|exact Ea].
      constructor; [|constructor].
      eapply parsePlayerRecord_fresh; eassumption. }
    match goal with
    | |- context [if ?c then _ else (_, players)] => destruct c
    end.
    + destruct (parseGameStartRecord data _ _) as [[[slots seed] mode] off].
      intros H. inversion H; subst. cbn.
      repeat split. now apply applySlotInfoToPlayers_fresh.
    + intros H. inversion H; subst. cbn. repeat split. exact Hp.
  - destruct (go_slice data spare _ _) as [gameName| |]; cbn [bind];
      try discriminate.
    destruct (decodeEncodedString data _) as [encodedData newOffset'].
    destruct (if 0 <? len encodedData then _ else _) as [[settings mapPath] mapName].
    destruct (additional_players _ data _ [] _)
      as [[offset players] names] eqn:Ea.
    assert (Hp : Forall fresh_player players).
    { eapply additional_players_fresh; [|exact Ea]. constructor. }
    match goal with
    | |- context [if ?c then _ else (_, players)] => destruct c
    end.
    + destruct (parseGameStartRecord data _ _) as [[[slots seed] mode] off].
      intros H. inversion H; subst. cbn.
      repeat split. now apply applySlotInfoToPlayers_fresh.
    + intros H. inversion H; subst. cbn. repeat split. exact Hp.
Qed.

(** ** The finished replay *)

Lemma GetPlayer_map (f : PlayerInfo.t -> PlayerInfo.t) players id :
  (forall p, PlayerInfo.ID (f p) = PlayerInfo.ID p) ->
  GetPlayer (map f players) id = option_map f (GetPlayer players id).
Proof.
  intros Hf. unfold GetPlayer.
  induction players as [|p ps IH]; cbn [map find]; [reflexivity|].
  rewrite Hf. destruct (PlayerInfo.ID p =? id); [reflexivity|exact IH].
Qed.

Lemma resolve_leave_time_keeps clock p :
  PlayerInfo.ID (resolve_leave_time clock p) = PlayerInfo.ID p
  /\ PlayerInfo.ActionCount (resolve_leave_time clock p)
     = PlayerInfo.ActionCount p
  /\ PlayerInfo.IsComputer (resolve_leave_time clock p)
     = PlayerInfo.IsComputer p.
Proof.
  unfold resolve_leave_time.
  destruct (PlayerInfo.LeaveTimeMs p); repeat split.
Qed.

(** The players of the finished replay are those the loop ended with,
    one for one, with the same ID, action count and computer flag. *)
Lemma finish_replay_players header data lobby st :
  exists f : PlayerInfo.t -> PlayerInfo.t,
    W3GReplay.Players (finish_replay header data lobby st)
    = map f (Walk.players st)
    /\ forall p, PlayerInfo.ID (f p) = PlayerInfo.ID p
                 /\ PlayerInfo.ActionCount (f p) = PlayerInfo.ActionCount p
                 /\ PlayerInfo.IsComputer (f p) = PlayerInfo.IsComputer p.
Proof.
  unfold finish_replay, compute_apm. cbn [W3GReplay.Players].
  destruct (PrimFloat.ltb _ _).
  - eexists. rewrite map_map. split; [reflexivity|].
    intros p. cbv beta.
    destruct (resolve_leave_time_keeps (Walk.currentTimeMs st)
                (set_apm p (PrimFloat.div
                              (float64 (PlayerInfo.ActionCount p))
                              (PrimFloat.div
                                 (float64 (ReplayHeader.DurationMs header))
                                 60000%float))))
      as [H1 [H2 H3]].
    rewrite H1, H2, H3. repeat split.
  - eexists. split; [reflexivity|]. apply resolve_leave_time_keeps.
Qed.

Lemma GetPlayer_In players id p :
  GetPlayer players id = Some p -> In p players /\ PlayerInfo.ID p = id.
Proof.
  unfold GetPlayer. intros H. apply find_some in H as [Hin He].
  split; [exact Hin|]. now apply Z.eqb_eq.
Qed.

(** The count of the first player carrying an ID is the number of decoded
    actions of that ID, whatever their opcodes. *)
Lemma action_count_exact strict header data spare r id p :
  parseGameData strict header data spare = Ret r ->
  GetPlayer (W3GReplay.Players r) id = Some p ->
  PlayerInfo.ActionCount p = actions_of id (W3GReplay.Actions r).
Proof.
  unfold parseGameData. intros H Hg.
  destruct (parse_lobby header data spare) as [lobby| |] eqn:El;
    cbn [bind] in H; try discriminate.
  destruct (block_loop strict data spare _ _ _ (Lobby.start lobby))
    as [st| |] eqn:Eb; cbn [bind] in H; try discriminate.
  inversion H; subst r; clear H.
  destruct (finish_replay_players header data lobby st) as [f [Hpl Hf]].
  rewrite Hpl, GetPlayer_map in Hg by (intros q; apply Hf).
  destruct (GetPlayer (Walk.players st) id) as [p0|] eqn:E0;
    [|discriminate].
  cbn in Hg. inversion Hg; subst p; clear Hg.
  rewrite (proj1 (proj2 (Hf p0))).
  cbn [W3GReplay.Actions finish_replay].
  destruct (parse_lobby_start _ _ _ _ El) as [_ [Ha Hfresh]].
  destruct (block_loop_counts _ _ _ _ _ _ _ _ id Eb) as [Hp Hc].
  assert (Hpr : present (Walk.players st) id = true).
  { unfold present. now rewrite E0. }
  rewrite Hp in Hpr. specialize (Hc Hpr).
  unfold count_of in Hc. rewrite E0, Ha in Hc.
  unfold present in Hpr.
  destruct (GetPlayer (Walk.players (Lobby.start lobby)) id) as [q|] eqn:Eq;
    [|discriminate].
  apply GetPlayer_In in Eq as [Hin _].
  rewrite Forall_forall in Hfresh. destruct (Hfresh q Hin) as [Hq _].
  rewrite Hq in Hc. unfold actions_of at 2 in Hc. cbn in Hc. lia.
Qed.

Lemma actions_of_except_le opcode id actions :
  actions_of_except opcode id actions <= actions_of id actions.
Proof.
  unfold actions_of_except, actions_of.
  induction actions as [|a actions IH]; cbn [filter]; [lia|].
  destruct (GameAction.PlayerID a =? id); cbn [andb].
  - destruct (negb _); cbn [List.length]; lia.
  - exact IH.
Qed.

(** The action count of the first player carrying an ID lies between the
    number of that player's actions other than sync selection (0x1B) and
    the number of all of that player's actions. *)
Theorem action_count_bounds strict header data spare r id p :
  parseGameData strict header data spare = Ret r ->
  GetPlayer (W3GReplay.Players r) id = Some p ->
  actions_of_except ActionSyncSelection id (W3GReplay.Actions r)
  <= PlayerInfo.ActionCount p
  <= actions_of id (W3GReplay.Actions r).
Proof.
  intros H Hg. rewrite (action_count_exact _ _ _ _ _ _ _ H Hg).
  split; [apply actions_of_except_le|lia].
Qed.

Lemma update_first_Forall (P : PlayerInfo.t -> Prop) id f players :
  (forall p, P p -> P (f p)) ->
  Forall P players -> Forall P (update_first id f players).
Proof.
  intros Hf Hp. induction Hp as [|p ps Hp Hps IH]; cbn [update_first].
  - constructor.
  - destruct (PlayerInfo.ID p =? id); constructor; auto.
Qed.


Lemma record_commands_human cmds :
  forall clock players actions players' actions',
  Forall human players ->
  record_commands cmds clock players actions = (players', actions') ->
  Forall human players'.
Proof.
  induction cmds as [|[pid a] cmds IH];
    intros clock players actions players' actions' Hh H;
    cbn [record_commands] in H.
  - now inversion H; subst.
  - eapply IH; [|exact H]. apply update_first_Forall; [|exact Hh].
    intros p Hp. exact Hp.
Qed.

Lemma block_loop_human strict data spare version names fuel :
  forall st st',
  Forall human (Walk.players st) ->
  block_loop strict data spare version names fuel st = Ret st' ->
  Forall human (Walk.players st').
Proof.
  induction fuel as [|fuel IH]; intros st st' Hh H; cbn [block_loop] in H.
  - now inversion H; subst.
  - destruct (Walk.offset st <? len data); [|now inversion H; subst].
    destruct (block_step strict data spare version names st)
      as [st1| |] eqn:E; cbn [bind] in H; try discriminate.
    eapply IH; [|exact H].
    apply block_step_cases in E as [_ [E|E]].
    + destruct E as [_ [_ [_ [pid [f [Hf Hp]]]]]]. rewrite Hp.
      apply update_first_Forall; [|exact Hh].
      intros p Hp'. unfold human. now rewrite (proj2 (proj2 (Hf p))).
    + destruct E as [cmds [_ [_ Hr]]].
      eapply record_commands_human; [exact Hh|]. symmetry. exact Hr.
Qed.

(** No player of a parsed replay is a computer: the game-start record's
    computer slots add no player to the list [parseGameData] returns,
    because [applySlotInfoToPlayers] appends them to its own copy of the
    slice header. *)
Lemma parseGameData_no_computer strict header data spare r :
  parseGameData strict header data spare = Ret r ->
  Forall (fun p => PlayerInfo.IsComputer p = false) (W3GReplay.Players r).
Proof.
  unfold parseGameData. intros H.
  destruct (parse_lobby header data spare) as [lobby| |] eqn:El;
    cbn [bind] in H; try discriminate.
  destruct (block_loop strict data spare _ _ _ (Lobby.start lobby))
    as [st| |] eqn:Eb; cbn [bind] in H; try discriminate.
  inversion H; subst r; clear H.
  destruct (finish_replay_players header data lobby st) as [f [Hpl Hf]].
  rewrite Hpl. apply Forall_map.
  destruct (parse_lobby_start _ _ _ _ El) as [_ [_ Hfresh]].
  assert (Hh : Forall human (Walk.players st)).
  { eapply block_loop_human; [|exact Eb].
    eapply Forall_impl; [|exact Hfresh]. intros p [_ Hp]. exact Hp. }
  eapply Forall_impl; [|exact Hh].
  intros p Hp. now rewrite (proj2 (proj2 (Hf p))).
Qed.

(** ** The game clock *)

Lemma Uint16_nonneg (b : list byte) : 0 <= Uint16 b.
Proof. unfold Uint16. apply le_combine_bound. Qed.

Lemma time_increment_nonneg data offset : 0 <= time_increment data offset.
Proof.
  unfold time_increment. destruct (_ && _); [apply Uint16_nonneg|lia].
Qed.

Lemma elapsed_nonneg strict data spare version names fuel :
  forall st, 0 <= elapsed strict data spare version names fuel st.
Proof.
  induction fuel as [|fuel IH]; intros st; cbn [elapsed]; [lia|].
  destruct (Walk.offset st <? len data); [|lia].
  pose proof (time_increment_nonneg data (Walk.offset st)).
  destruct (block_step strict data spare version names st); [|lia|lia].
  specialize (IH a). lia.
Qed.



Lemma record_commands_actions cmds :
  forall clock players actions,
  snd (record_commands cmds clock players actions)
  = actions ++ map (fun c => set_action_time (snd c) clock) cmds.
Proof.
  induction cmds as [|[pid a] cmds IH]; intros clock players actions;
    cbn [record_commands map].
  - now rewrite app_nil_r.
  - rewrite IH, <- app_assoc. reflexivity.
Qed.

Lemma nondecreasing_stamp clock actions cmds :
  nondecreasing actions -> stamped_before clock actions ->
  nondecreasing
    (actions ++ map (fun c : command => set_action_time (snd c) clock) cmds).
Proof.
  intros Hn Hs i j a b Hi Hj Hij.
  assert (Hnew : forall k x,
            nth_error
              (map (fun c : command => set_action_time (snd c) clock) cmds) k
            = Some x -> GameAction.TimestampMs x = clock).
  { intros k x Hk. apply nth_error_In in Hk. apply in_map_iff in Hk.
    destruct Hk as [c [Hc _]]. now subst x. }
  destruct (Nat.lt_ge_cases j (List.length actions)) as [Lj|Lj].
  - rewrite nth_error_app1 in Hi, Hj by lia. eapply Hn; eassumption.
  - rewrite nth_error_app2 in Hj by lia. apply Hnew in Hj. rewrite Hj.
    destruct (Nat.lt_ge_cases i (List.length actions)) as [Li|Li].
    + rewrite nth_error_app1 in Hi by lia. apply nth_error_In in Hi.
      unfold stamped_before in Hs. rewrite Forall_forall in Hs.
      now apply Hs.
    + rewrite nth_error_app2 in Hi by lia. apply Hnew in Hi. lia.
Qed.

Lemma stamped_before_stamp clock clock' actions cmds :
  clock <= clock' -> stamped_before clock actions ->
  stamped_before clock'
    (actions ++ map (fun c : command => set_action_time (snd c) clock') cmds).
Proof.
  intros Hc Hs. apply Forall_app. split.
  - eapply Forall_impl; [|exact Hs]. cbv beta. intros a Ha. lia.
  - apply Forall_map. apply Forall_forall. intros c _. cbn. lia.
Qed.

(** A pass that does not take the clock past [2^32 - 1] keeps the
    timestamps in order. *)
Lemma block_step_clock strict data spare version names st st' :
  block_step strict data spare version names st = Ret st' ->
  0 <= Walk.currentTimeMs st ->
  Walk.currentTimeMs st + time_increment data (Walk.offset st) < 2 ^ 32 ->
  nondecreasing (Walk.actions st) ->
  stamped_before (Walk.currentTimeMs st) (Walk.actions st) ->
  Walk.currentTimeMs st'
  = Walk.currentTimeMs st + time_increment data (Walk.offset st)
  /\ nondecreasing (Walk.actions st')
  /\ stamped_before (Walk.currentTimeMs st') (Walk.actions st').
Proof.
  intros H H0 Hw Hn Hs.
  pose proof (time_increment_nonneg data (Walk.offset st)) as Hi.
  apply block_step_cases in H as [_ [H|H]].
  - destruct H as [Ht [Hc [Ha _]]]. rewrite Hc, Ha, Ht.
    repeat split; [lia|assumption|assumption].
  - destruct H as [cmds [_ [Hc Hr]]].
    assert (Hc' : Walk.currentTimeMs st'
                  = Walk.currentTimeMs st
                    + time_increment data (Walk.offset st)).
    { rewrite Hc. unfold wrap32. apply Z.mod_small. lia. }
    assert (Ha : Walk.actions st'
                 = Walk.actions st
                   ++ map (fun c : command =>
                             set_action_time (snd c) (Walk.currentTimeMs st'))
                        cmds).
    { rewrite <- record_commands_actions with (players := Walk.players st).
      now rewrite <- Hr. }
    split; [exact Hc'|]. rewrite Ha. split.
    + apply nondecreasing_stamp; [assumption|].
      eapply Forall_impl; [|exact Hs]. cbv beta. intros a Hle. lia.
    + apply stamped_before_stamp with (clock := Walk.currentTimeMs st);
        [lia|assumption].
Qed.

Lemma block_loop_clock strict data spare version names fuel :
  forall st st',
  block_loop strict data spare version names fuel st = Ret st' ->
  0 <= Walk.currentTimeMs st ->
  Walk.currentTimeMs st
  + elapsed strict data spare version names fuel st < 2 ^ 32 ->
  nondecreasing (Walk.actions st) ->
  stamped_before (Walk.currentTimeMs st) (Walk.actions st) ->
  nondecreasing (Walk.actions st').
Proof.
  induction fuel as [|fuel IH]; intros st st' H H0 Hw Hn Hs;
    cbn [block_loop elapsed] in *.
  - now inversion H; subst.
  - destruct (Walk.offset st <? len data); [|now inversion H; subst].
    destruct (block_step strict data spare version names st)
      as [st1| |] eqn:E; cbn [bind] in H; try discriminate.
    pose proof (elapsed_nonneg strict data spare version names fuel st1).
    pose proof (time_increment_nonneg data (Walk.offset st)).
    destruct (block_step_clock _ _ _ _ _ _ _ E H0 ltac:(lia) Hn Hs)
      as [Hc [Hn1 Hs1]].
    eapply IH; [exact H|lia|lia|exact Hn1|exact Hs1].
Qed.

(** The actions of a replay whose game time stays below 2^32 ms carry
    timestamps that never go down in list order.  (The clock is a [uint32]
    and wraps around beyond that.) *)
Theorem action_timestamps_nondecreasing strict header data spare r :
  parseGameData strict header data spare = Ret r ->
  game_time strict header data spare < 2 ^ 32 ->
  forall (i j : nat) (a b : GameAction.t),
    nth_error (W3GReplay.Actions r) i = Some a ->
    nth_error (W3GReplay.Actions r) j = Some b ->
    (i <= j)%nat ->
    GameAction.TimestampMs a <= GameAction.TimestampMs b.
Proof.
  unfold parseGameData, game_time. intros H Hg.
  destruct (parse_lobby header data spare) as [lobby| |] eqn:El;
    cbn [bind] in H; try discriminate.
  destruct (block_loop strict data spare _ _ _ (Lobby.start lobby))
    as [st| |] eqn:Eb; cbn [bind] in H; try discriminate.
  inversion H; subst r; clear H. cbn [W3GReplay.Actions finish_replay].
  destruct (parse_lobby_start _ _ _ _ El) as [Hc [Ha _]].
  eapply block_loop_clock; [exact Eb| | | |].
  - rewrite Hc. lia.
  - rewrite Hc. lia.
  - rewrite Ha. intros i j a b Hi. destruct i; discriminate Hi.
  - rewrite Ha. constructor.
Qed.

(** ** The claims at the sample payloads *)

(** C1, at a payload whose game-start record has a Used computer slot with
    player ID 3: the parse returns a replay whose players are "alice" and
    "bob"; no player is named "Computer 3".  The computer was appended to
    the slice header local to [applySlotInfoToPlayers] only. *)
Lemma computer_slot_player_missing :
  exists (slots : list SlotRecord.t) (r : W3GReplay.t),
    fst (fst (fst (parseGameStartRecord sample_computer_payload 38 26)))
    = slots
    /\ Exists (fun s => SlotRecord.SlotStatus s = SlotUsed
                        /\ SlotRecord.IsComputer s = true
                        /\ SlotRecord.PlayerID s = 3) slots
    /\ In (bytes_of_string "Computer 3")
          (map PlayerInfo.Name (snd (applySlotInfoToPlayers [] slots 26)))
    /\ parseGameData false sample_header sample_computer_payload [] = Ret r
    /\ map PlayerInfo.Name (W3GReplay.Players r)
       = [bytes_of_string "alice"; bytes_of_string "bob"]
    /\ ~ In (bytes_of_string "Computer 3")
            (map PlayerInfo.Name (W3GReplay.Players r)).
Proof.
  eexists. eexists.
  split; [vm_compute; reflexivity|].
  split; [right; left; repeat split|].
  split; [left; reflexivity|].
  split; [vm_compute; reflexivity|].
  split; [reflexivity|].
  cbn. intros [H|[H|[]]]; discriminate H.
Qed.

(** C2, at a payload with the unmapped block ID 0xAB between two chat
    blocks: the strict parse returns no error; it returns the replay with
    both chat messages, as the non-strict parse does. *)
Lemma strict_parse_skips_unknown_block :
  exists r : W3GReplay.t,
    parseGameData true sample_header sample_unknown_block_payload [] = Ret r
    /\ map ChatMessage.Message (W3GReplay.ChatMessages r)
       = [bytes_of_string "hello"; bytes_of_string "gg"]
    /\ parseGameData false sample_header sample_unknown_block_payload []
       = Ret r.
Proof.
  eexists. split; [vm_compute; reflexivity|].
  split; [reflexivity|]. vm_compute. reflexivity.
Qed.

(** The theorem at a payload where player 1 issues one pre-subselection
    (0x1A): the action is counted. *)
Lemma action_count_bounds_witness :
  exists (r : W3GReplay.t) (p : PlayerInfo.t),
    parseGameData false sample_header sample_selection_payload [] = Ret r
    /\ GetPlayer (W3GReplay.Players r) 1 = Some p
    /\ map GameAction.ActionType
         (filter (fun a => GameAction.PlayerID a =? 1) (W3GReplay.Actions r))
       = [ActionPreSubselection]
    /\ actions_of_except ActionSyncSelection 1 (W3GReplay.Actions r) = 1
    /\ actions_of 1 (W3GReplay.Actions r) = 1
    /\ actions_of_except ActionSyncSelection 1 (W3GReplay.Actions r)
       <= PlayerInfo.ActionCount p
       <= actions_of 1 (W3GReplay.Actions r).
Proof.
  eexists. eexists.
  split; [vm_compute; reflexivity|].
  split; [vm_compute; reflexivity|].
  split; [reflexivity|].
  split; [reflexivity|].
  split; [reflexivity|].
  eapply (action_count_bounds false sample_header sample_selection_payload
            []); vm_compute; reflexivity.
Defined.

(** C4 as stated fails: the pre-subselection of player 1 is in the
    exclusion set, and it is counted. *)
Lemma excluded_opcodes_counterexample :
  ~ (forall (strict : bool) (header : ReplayHeader.t)
            (data spare : list byte) (r : W3GReplay.t) (id : Z)
            (p : PlayerInfo.t),
       parseGameData strict header data spare = Ret r ->
       GetPlayer (W3GReplay.Players r) id = Some p ->
       PlayerInfo.ActionCount p
       = counted_actions_of id (W3GReplay.Actions r)).
Proof.
  intros H.
  destruct (parseGameData false sample_header sample_selection_payload [])
    as [r| |] eqn:E; try (vm_compute in E; discriminate E).
  destruct (GetPlayer (W3GReplay.Players r) 1) as [p|] eqn:G.
  - specialize (H _ _ _ _ _ _ _ E G).
    vm_compute in E. inversion E; subst r; clear E.
    vm_compute in G. inversion G; subst p; clear G.
    vm_compute in H. discriminate H.
  - vm_compute in E. inversion E; subst r; clear E.
    vm_compute in G. discriminate G.
Qed.

(** The theorem at a payload with two time slots of 1000 ms each. *)
Lemma action_timestamps_nondecreasing_witness :
  exists r : W3GReplay.t,
    parseGameData false sample_header sample_selection_payload [] = Ret r
    /\ game_time false sample_header sample_selection_payload [] = 2000
    /\ map GameAction.TimestampMs (W3GReplay.Actions r) = [1000; 2000; 2000]
    /\ forall (i j : nat) (a b : GameAction.t),
         nth_error (W3GReplay.Actions r) i = Some a ->
         nth_error (W3GReplay.Actions r) j = Some b ->
         (i <= j)%nat ->
         GameAction.TimestampMs a <= GameAction.TimestampMs b.
Proof.
  eexists.
  split; [vm_compute; reflexivity|].
  split; [vm_compute; reflexivity|].
  split; [reflexivity|].
  apply (action_timestamps_nondecreasing false sample_header
           sample_selection_payload []).
  - vm_compute. reflexivity.
  - vm_compute. reflexivity.
Defined.

(** ** Truncated files *)


Lemma blocks_span_nonneg (n : nat) (isReforged : bool) :
  forall (r : list byte) (span : Z),
  blocks_span n isReforged r = Some span -> 0 <= span.
Proof.
  induction n as [|n IH]; intros r span H; cbn [blocks_span] in H.
  - inversion H. lia.
  - destruct (ReadFull r _) as [[bh r1]|]; [|discriminate].
    destruct (ReadFull r1 _) as [[pl r2]|]; [|discriminate].
    destruct (blocks_span n isReforged r2) as [s|] eqn:E; [|discriminate].
    inversion H. pose proof (Uint16_nonneg bh).
    specialize (IH _ _ E). destruct isReforged; lia.
Qed.

(** Reading from a reader cut after [m] bytes. *)
Lemma ReadFull_firstn (r a b : list byte) (k m : Z) :
  0 <= k -> k <= m ->
  ReadFull r k = Some (a, b) ->
  ReadFull (firstn (Z.to_nat m) r) k
  = Some (a, firstn (Z.to_nat (m - k)) b).
Proof.
  intros Hk Hm H. unfold ReadFull in *.
  destruct (k <=? len r) eqn:E; [|discriminate].
  apply Z.leb_le in E. inversion H; subst a b; clear H.
  assert (Hl : k <= len (firstn (Z.to_nat m) r)).
  { unfold len in *. rewrite length_firstn. lia. }
  rewrite (proj2 (Z.leb_le _ _) Hl). f_equal. f_equal.
  - rewrite firstn_firstn. f_equal. lia.
  - rewrite skipn_firstn_comm. f_equal. lia.
Qed.

Lemma ReadFull_firstn_none (r : list byte) (k m : Z) :
  0 <= m -> m < k -> ReadFull (firstn (Z.to_nat m) r) k = None.
Proof.
  intros H0 Hm. apply ReadFull_none.
  unfold len. rewrite length_firstn. lia.
Qed.

Lemma ReadFull_length (r a b : list byte) (k : Z) :
  0 <= k -> ReadFull r k = Some (a, b) -> len a = k.
Proof.
  intros Hk H. unfold ReadFull in H.
  destruct (k <=? len r) eqn:E; [|discriminate].
  apply Z.leb_le in E. inversion H; subst.
  unfold len in *. rewrite length_firstn. lia.
Qed.

(** A cut that leaves every block whole does not change what
    [decompress_loop] returns. *)
Lemma decompress_loop_prefix go (n : nat) (isReforged : bool) :
  forall (r result : list byte) (span m : Z),
  blocks_span n isReforged r = Some span ->
  span <= m ->
  decompress_loop go n isReforged (firstn (Z.to_nat m) r) result
  = decompress_loop go n isReforged r result.
Proof.
  induction n as [|n IH]; intros r result span m Hs Hm;
    cbn [blocks_span decompress_loop] in *; [reflexivity|].
  set (hdr := if isReforged then 12 else 8) in *.
  assert (Hh : 0 <= hdr) by (subst hdr; destruct isReforged; lia).
  destruct (ReadFull r hdr) as [[blockHeader r1]|] eqn:E1; [|discriminate].
  pose proof (Uint16_nonneg blockHeader) as Hu.
  destruct (ReadFull r1 (Uint16 blockHeader)) as [[payload r2]|] eqn:E2;
    [|discriminate].
  destruct (blocks_span n isReforged r2) as [s|] eqn:E3; [|discriminate].
  inversion Hs; subst span; clear Hs.
  pose proof (blocks_span_nonneg _ _ _ _ E3) as Hs0.
  rewrite (ReadFull_firstn _ _ _ _ m Hh ltac:(lia) E1).
  rewrite (ReadFull_firstn _ _ _ _ (m - hdr) Hu ltac:(lia) E2).
  match goal with
  | |- match ?x with _ => _ end = _ => destruct x as [d|]
  end; [|reflexivity].
  apply IH with (span := s); [exact E3|lia].
Qed.


(** A cut inside the header or the payload of a block makes an accepted
    run of [decompress_loop] fail with Truncated. *)
Lemma decompress_loop_cut go (n : nat) (isReforged : bool) :
  forall (r result d : list byte) (span m : Z),
  blocks_span n isReforged r = Some span ->
  0 <= m -> m < span ->
  decompress_loop go n isReforged r result = Ret d ->
  exists k : Z,
    decompress_loop go n isReforged (firstn (Z.to_nat m) r) result
    = Fail (TruncatedDataError k).
Proof.
  induction n as [|n IH]; intros r result d span m Hs H0 Hm Hd;
    cbn [blocks_span decompress_loop] in *.
  - inversion Hs. lia.
  - set (hdr := if isReforged then 12 else 8) in *.
    assert (Hh : 0 <= hdr) by (subst hdr; destruct isReforged; lia).
    destruct (ReadFull r hdr) as [[blockHeader r1]|] eqn:E1; [|discriminate].
    pose proof (Uint16_nonneg blockHeader) as Hu.
    destruct (ReadFull r1 (Uint16 blockHeader)) as [[payload r2]|] eqn:E2;
      [|discriminate].
    destruct (blocks_span n isReforged r2) as [s|] eqn:E3; [|discriminate].
    inversion Hs; subst span; clear Hs.
    destruct (Z.lt_ge_cases m hdr) as [C1|C1].
    { rewrite ReadFull_firstn_none by lia. eexists. reflexivity. }
    rewrite (ReadFull_firstn _ _ _ _ m Hh C1 E1).
    destruct (Z.lt_ge_cases (m - hdr) (Uint16 blockHeader)) as [C2|C2].
    { rewrite ReadFull_firstn_none by lia. eexists. reflexivity. }
    rewrite (ReadFull_firstn _ _ _ _ (m - hdr) Hu C2 E2).
    match type of Hd with
    | match ?x with _ => _ end = _ => destruct x as [d'|]
    end; [|discriminate].
    eapply IH; [exact E3|lia|lia|exact Hd].
Qed.

(** The header decoder reads the header bytes only. *)
Lemma parseHeader_prefix (file : list byte) (h : ReplayHeader.t)
  (raw rest : list byte) (m : Z) :
  parseHeader file = Ret (h, raw, rest) ->
  len raw <= m ->
  parseHeader (firstn (Z.to_nat m) file)
  = Ret (h, raw, firstn (Z.to_nat (m - len raw)) rest).
Proof.
  unfold parseHeader. intros H Hm.
  destruct (ReadFull file BaseHeaderSize) as [[baseHeader r1]|] eqn:E1;
    [|discriminate].
  assert (Lb : len baseHeader = BaseHeaderSize).
  { eapply ReadFull_length; [|exact E1]. unfold BaseHeaderSize. lia. }
  destruct (negb (bytes_eqb (slice baseHeader 0 28) MagicString)) eqn:Em;
    [discriminate|].
  destruct (if Uint32 (from baseHeader 36) =? 0 then _ else _)
    as [subHeaderSize|] eqn:Es; [|discriminate].
  assert (Hsub : 0 <= subHeaderSize).
  { destruct (Uint32 (from baseHeader 36) =? 0);
      [|destruct (Uint32 (from baseHeader 36) =? 1)];
      inversion Es; unfold SubHeaderV0Size, SubHeaderV1Size; lia. }
  destruct (ReadFull r1 subHeaderSize) as [[subHeader r2]|] eqn:E2;
    [|discriminate].
  pose proof (ReadFull_length _ _ _ _ Hsub E2) as Ls.
  inversion H; subst h raw rest; clear H.
  rewrite len_app, Lb, Ls in Hm.
  assert (Hb0 : 0 <= BaseHeaderSize) by (unfold BaseHeaderSize; lia).
  rewrite (ReadFull_firstn _ _ _ _ m Hb0 ltac:(lia) E1).
  rewrite Em, Es.
  rewrite (ReadFull_firstn _ _ _ _ (m - BaseHeaderSize) Hsub ltac:(lia) E2).
  rewrite len_app, Lb, Ls.
  replace (m - BaseHeaderSize - subHeaderSize)
    with (m - (BaseHeaderSize + subHeaderSize)) by lia.
  reflexivity.
Qed.

Lemma from_firstn (file : list byte) (m a : Z) :
  0 <= a -> 0 <= m ->
  from (firstn (Z.to_nat m) file) a
  = firstn (Z.to_nat (Z.max 0 (m - a))) (from file a).
Proof.
  intros Ha Hm. unfold from. rewrite skipn_firstn_comm. f_equal. lia.
Qed.

Lemma Uint32_nonneg (b : list byte) : 0 <= Uint32 b.
Proof. unfold Uint32. apply le_combine_bound. Qed.

Lemma parseHeader_HeaderSize_nonneg file h raw rest :
  parseHeader file = Ret (h, raw, rest) -> 0 <= ReplayHeader.HeaderSize h.
Proof.
  unfold parseHeader. intros H.
  destruct (ReadFull file BaseHeaderSize) as [[baseHeader r1]|];
    [|discriminate].
  destruct (negb _); [discriminate|].
  destruct (if Uint32 (from baseHeader 36) =? 0 then _ else _)
    as [subHeaderSize|]; [|discriminate].
  destruct (ReadFull r1 subHeaderSize) as [[subHeader r2]|]; [|discriminate].
  inversion H; subst h.
  destruct (Uint32 (from baseHeader 36) =? 0); apply Uint32_nonneg.
Qed.

(** C3 (amended): cutting a file anywhere after its header either keeps
    every declared block whole, and then [Parse] returns exactly what it
    returns on the whole file, or cuts into a declared block, and then a
    file that parsed now fails with a Truncated error, in strict and in
    non-strict mode alike. *)
Theorem Parse_truncated (go : GoLibrary) (strict : bool) (file : list byte)
  (h : ReplayHeader.t) (raw rest : list byte) (span n : Z) :
  parseHeader file = Ret (h, raw, rest) ->
  blocks_span (Z.to_nat (ReplayHeader.NumCompressedBlocks h)) (IsReforged h)
    (from file (ReplayHeader.HeaderSize h)) = Some span ->
  len raw <= n ->
  (blocks_end h span <= n ->
   Parse go strict (firstn (Z.to_nat n) file) = Parse go strict file)
  /\ (n < blocks_end h span ->
      forall r : W3GReplay.t, Parse go strict file = Ret r ->
      exists k : Z,
        Parse go strict (firstn (Z.to_nat n) file)
        = Fail (TruncatedDataError k)).
Proof.
  intros Hh Hs Hn.
  pose proof (parseHeader_HeaderSize_nonneg _ _ _ _ Hh) as Hhs.
  pose proof (len_nonneg raw) as Hraw.
  pose proof (blocks_span_nonneg _ _ _ _ Hs) as Hsp.
  unfold Parse. rewrite (parseHeader_prefix _ _ _ _ n Hh Hn), Hh.
  cbn [bind]. unfold decompressBlocks.
  rewrite from_firstn by lia.
  unfold blocks_end. split.
  - intros He.
    rewrite decompress_loop_prefix with (span := span);
      [reflexivity|exact Hs|].
    destruct (span =? 0) eqn:E0; [apply Z.eqb_eq in E0|]; lia.
  - intros He r Hr.
    destruct (span =? 0) eqn:E0; [lia|]. apply Z.eqb_neq in E0.
    destruct (decompress_loop go _ _ (from file _) [])
      as [d| |] eqn:Ed; cbn [bind] in Hr; try discriminate.
    destruct (decompress_loop_cut go _ _ _ _ _ _
                (Z.max 0 (n - ReplayHeader.HeaderSize h)) Hs
                ltac:(lia) ltac:(lia) Ed) as [k Hk].
    exists k. now rewrite Hk.
Qed.

Lemma go_slice_empty (data spare : list byte) (a : Z) :
  0 <= a -> a <= len data -> go_slice data spare a a = Ret [].
Proof.
  intros H0 Ha. rewrite go_slice_within by lia.
  unfold slice. now rewrite Z.sub_diag.
Qed.

(** The sample Reforged file parses, whatever the library's decompressors
    do: its only block is a zlib header with no data, which the model
    decodes to no bytes itself. *)
Lemma sample_reforged_file_parses (go : GoLibrary) (strict : bool) :
  exists r : W3GReplay.t,
    Parse go strict sample_reforged_file = Ret r
    /\ ReplayHeader.HeaderSize (W3GReplay.Header r) = 68
    /\ W3GReplay.Players r = [] /\ W3GReplay.RawDecompressed r = [].
Proof.
  unfold Parse.
  destruct (parseHeader sample_reforged_file) as [[[h raw] rest]| |] eqn:Eh;
    try (vm_compute in Eh; discriminate Eh).
  vm_compute in Eh. inversion Eh; subst h raw rest; clear Eh.
  cbn [bind].
  match goal with
  | |- context [decompressBlocks go ?r ?h] =>
    replace (decompressBlocks go r h) with (Ret (@nil byte))
      by (vm_compute; reflexivity)
  end.
  cbn [bind]. generalize (buffer_spare go []). intros spare.
  unfold parseGameData, parse_lobby. cbv zeta.
  change (parsePlayerRecord [] _ true) with (@None PlayerInfo.t, 0).
  cbv iota beta.
  change (0 + len (until_nul (from [] 0))) with 0.
  rewrite go_slice_empty by (unfold len; cbn; lia).
  cbn [bind].
  eexists. split; [destruct strict; vm_compute; reflexivity|].
  repeat split; reflexivity.
Qed.

(** Cut right after its header, the sample Reforged file is refused. *)
Lemma sample_reforged_file_cut (go : GoLibrary) (strict : bool) :
  Parse go strict (firstn 68 sample_reforged_file)
  = Fail (TruncatedDataError 0).
Proof. destruct strict; vm_compute; reflexivity. Qed.

Lemma Parse_truncated_witness :
  exists k : Z,
    Parse sample_library false (firstn (Z.to_nat 70) sample_reforged_file)
    = Fail (TruncatedDataError k).
Proof.
  destruct (sample_reforged_file_parses sample_library false) as [r [Hr _]].
  refine (proj2 (Parse_truncated sample_library false sample_reforged_file
                   _ _ _ 14 70 eq_refl eq_refl _) _ r Hr).
  - vm_compute. intros H; discriminate H.
  - vm_compute. reflexivity.
Defined.

(** C3 as stated fails: the sample Reforged file parses in non-strict
    mode, and its prefix of 68 bytes (the whole header, before the first
    block header) is refused with an error instead of yielding a partial
    replay. *)
Lemma Parse_truncated_counterexample :
  ~ (forall (go : GoLibrary) (file : list byte) (r : W3GReplay.t) (n : Z),
       Parse go false file = Ret r ->
       ReplayHeader.HeaderSize (W3GReplay.Header r) <= n <= len file ->
       exists r' : W3GReplay.t,
         Parse go false (firstn (Z.to_nat n) file) = Ret r').
Proof.
  intros H.
  destruct (sample_reforged_file_parses sample_library false)
    as [r [Hr [Hs _]]].
  destruct (H sample_library sample_reforged_file r 68 Hr) as [r' Hr'].
  - rewrite Hs. vm_compute. split; intros C; discriminate C.
  - change (Z.to_nat 68) with 68%nat in Hr'.
    rewrite sample_reforged_file_cut in Hr'. discriminate Hr'.
Qed.

(** * Further properties of the parser *)

Lemma from_app_len (a b : list byte) : from (a ++ b) (len a) = b.
Proof.
  unfold from, len. rewrite Nat2Z.id, skipn_app, Nat.sub_diag.
  now rewrite skipn_all.
Qed.

(** What a pass of the block loop does to the players and to the chat
    messages: the players are left alone, or the first player carrying
    an ID gets its leave fields, or the commands of a time slot are
    counted; the chat messages are left alone, or one message stamped with
    the clock, which the pass leaves as it is, is added. *)
Lemma block_step_players_chat strict data spare version names st st' :
  block_step strict data spare version names st = Ret st' ->
  (Walk.players st' = Walk.players st
   \/ (exists id res,
         Walk.players st'
         = update_first id
             (fun p => set_leave p (Some res) (Some (Walk.currentTimeMs st)))
             (Walk.players st))
   \/ (exists cmds clock,
         Walk.players st'
         = fst (record_commands cmds clock (Walk.players st)
                  (Walk.actions st))))
  /\ (Walk.chatMessages st' = Walk.chatMessages st
      \/ (Walk.currentTimeMs st' = Walk.currentTimeMs st
          /\ exists m,
               Walk.chatMessages st' = Walk.chatMessages st ++ [m]
               /\ ChatMessage.TimestampMs m = Walk.currentTimeMs st)).
Proof.
  intros H. unfold block_step in H.
  destruct (_ =? BlockLeaveGame).
  { destruct (_ <=? len data); inversion H; subst; clear H; cbn;
      (split; [|left; reflexivity]).
    - right; left. eexists _, _. reflexivity.
    - left; reflexivity. }
  destruct (_ || _).
  { inversion H; subst; clear H; cbn. split; left; reflexivity. }
  destruct (_ || _).
  { destruct (_ <=? len data).
    - destruct (2 <? _).
      + destruct (parseCommandData data spare _ _ version)
          as [cmds| |] eqn:Ec; cbn [bind] in H; try discriminate.
        destruct (record_commands cmds _ (Walk.players st) (Walk.actions st))
          as [players actions] eqn:Er.
        inversion H; subst; clear H. cbn.
        split; [|left; reflexivity]. right; right.
        eexists _, _. rewrite Er. reflexivity.
      + inversion H; subst; clear H; cbn. split; left; reflexivity.
    - inversion H; subst; clear H; cbn. split; left; reflexivity. }
  destruct (_ =? BlockChat).
  { destruct (parseChatMessage data (Walk.offset st + 1) names)
      as [[m|] newOffset] eqn:Ec; inversion H; subst; clear H; cbn.
    - split; [left; reflexivity|]. right. split; [reflexivity|].
      eexists. split; reflexivity.
    - split; left; reflexivity. }
  destruct (_ =? BlockChecksum).
  { destruct (_ <? len data); inversion H; subst; clear H; cbn;
      split; left; reflexivity. }
  destruct (_ =? BlockForcedEnd).
  { inversion H; subst; clear H; cbn. split; left; reflexivity. }
  destruct (_ =? 35).
  { destruct (_ <? len data); inversion H; subst; clear H; cbn;
      split; left; reflexivity. }
  destruct (negb strict); inversion H; subst; clear H; cbn;
    split; left; reflexivity.
Qed.

(** ** The clock at the end of the walk *)

(** The clock the block loop ends with is the sum of the time increments
    it walked over, reduced modulo 2^32. *)
Lemma block_loop_final_clock strict data spare version names fuel :
  forall st st',
  block_loop strict data spare version names fuel st = Ret st' ->
  0 <= Walk.currentTimeMs st < 2 ^ 32 ->
  Walk.currentTimeMs st'
  = wrap32 (Walk.currentTimeMs st
            + elapsed strict data spare version names fuel st).
Proof.
  induction fuel as [|fuel IH]; intros st st' H Hc;
    cbn [block_loop elapsed] in *.
  - inversion H; subst. unfold wrap32.
    now rewrite Z.add_0_r, Z.mod_small.
  - destruct (Walk.offset st <? len data).
    2:{ inversion H; subst. unfold wrap32.
        now rewrite Z.add_0_r, Z.mod_small. }
    destruct (block_step strict data spare version names st)
      as [st1| |] eqn:E; cbn [bind] in H; try discriminate.
    destruct (block_step_cases _ _ _ _ _ _ _ E) as [_ [C|C]].
    + destruct C as [Hi [Hk _]]. rewrite Hi, Z.add_0_l.
      rewrite <- Hk. apply IH; [exact H|]. now rewrite Hk.
    + destruct C as [cmds [_ [Hk _]]].
      rewrite (IH _ _ H); rewrite Hk.
      * unfold wrap32. rewrite Zplus_mod_idemp_l. f_equal. lia.
      * unfold wrap32. apply Z.mod_pos_bound. lia.
Qed.

Lemma compute_apm_leave durationMs players :
  map PlayerInfo.LeaveTimeMs (compute_apm durationMs players)
  = map PlayerInfo.LeaveTimeMs players.
Proof.
  unfold compute_apm. destruct (PrimFloat.ltb _ _); [|reflexivity].
  rewrite map_map. reflexivity.
Qed.

(** Every leave time of a parsed replay is the clock at the end of the
    replay: [LeaveTimeMs] points to the one clock variable of
    [parseGameData], which goes on counting after the leave block. *)
Theorem leave_time_is_final_clock strict header data spare r p t :
  parseGameData strict header data spare = Ret r ->
  In p (W3GReplay.Players r) ->
  PlayerInfo.LeaveTimeMs p = Some t ->
  t = wrap32 (game_time strict header data spare).
Proof.
  unfold parseGameData, game_time. intros H Hin Ht.
  destruct (parse_lobby header data spare) as [lobby| |] eqn:El;
    cbn [bind] in H; try discriminate.
  destruct (block_loop strict data spare _ _ _ (Lobby.start lobby))
    as [st| |] eqn:Eb; cbn [bind] in H; try discriminate.
  inversion H; subst r; clear H.
  cbn [W3GReplay.Players finish_replay] in Hin.
  apply in_map_iff in Hin as [q [Hq _]]. subst p.
  destruct (parse_lobby_start _ _ _ _ El) as [Hc _].
  pose proof (block_loop_final_clock _ _ _ _ _ _ _ _ Eb) as Hf.
  rewrite Hc, Z.add_0_l in Hf. rewrite <- Hf by lia.
  unfold resolve_leave_time in Ht.
  destruct (PlayerInfo.LeaveTimeMs q) eqn:Eq; cbn in Ht; congruence.
Qed.

Lemma leave_time_is_final_clock_witness :
  exists (r : W3GReplay.t) (p : PlayerInfo.t),
    parseGameData false sample_header sample_leave_payload [] = Ret r
    /\ In p (W3GReplay.Players r)
    /\ PlayerInfo.Name p = bytes_of_string "alice"
    /\ PlayerInfo.LeaveTimeMs p = Some 2000
    /\ 2000 = wrap32 (game_time false sample_header sample_leave_payload []).
Proof.
  eexists. eexists.
  split; [vm_compute; reflexivity|].
  split; [left; reflexivity|].
  split; [reflexivity|].
  split; [reflexivity|].
  eapply (leave_time_is_final_clock false sample_header sample_leave_payload
            []).
  - vm_compute. reflexivity.
  - left. reflexivity.
  - reflexivity.
Defined.

(** ** Chat timestamps *)






(** ** Invariants of the player list *)

Lemma update_first_map {B : Type} (g : PlayerInfo.t -> B) id f players :
  (forall p, g (f p) = g p) ->
  map g (update_first id f players) = map g players.
Proof.
  intros Hf. induction players as [|p ps IH]; cbn [update_first map];
    [reflexivity|].
  destruct (PlayerInfo.ID p =? id); cbn [map]; [now rewrite Hf|].
  now rewrite IH.
Qed.

Lemma record_commands_map {B : Type} (g : PlayerInfo.t -> B) cmds :
  (forall p, g (count_action p) = g p) ->
  forall clock players actions,
  map g (fst (record_commands cmds clock players actions)) = map g players.
Proof.
  intros Hg. induction cmds as [|[pid a] cmds IH];
    intros clock players actions; cbn [record_commands]; [reflexivity|].
  rewrite IH. now apply update_first_map.
Qed.

(** A view of the players that neither the leave fields nor the action
    count enter is the same after the block loop as before it. *)
Lemma block_loop_map {B : Type} (g : PlayerInfo.t -> B)
  strict data spare version names fuel :
  (forall p r t, g (set_leave p r t) = g p) ->
  (forall p, g (count_action p) = g p) ->
  forall st st',
  block_loop strict data spare version names fuel st = Ret st' ->
  map g (Walk.players st') = map g (Walk.players st).
Proof.
  intros Hl Hc.
  induction fuel as [|fuel IH]; intros st st' H; cbn [block_loop] in H.
  - now inversion H; subst.
  - destruct (Walk.offset st <? len data); [|now inversion H; subst].
    destruct (block_step strict data spare version names st)
      as [st1| |] eqn:E; cbn [bind] in H; try discriminate.
    rewrite (IH _ _ H).
    destruct (block_step_players_chat _ _ _ _ _ _ _ E) as [[C|[C|C]] _].
    + now rewrite C.
    + destruct C as [id [res C]]. rewrite C. apply update_first_map.
      intros p. apply Hl.
    + destruct C as [cmds [clock C]]. rewrite C.
      now apply record_commands_map.
Qed.

(** The event stream never adds, removes or reorders players, and changes
    none of the fields the lobby settled: the players of the replay are
    those of the lobby, one for one. *)
Theorem players_fixed_after_lobby strict header data spare lobby r :
  parse_lobby header data spare = Ret lobby ->
  parseGameData strict header data spare = Ret r ->
  map lobby_fields (W3GReplay.Players r)
  = map lobby_fields (Walk.players (Lobby.start lobby)).
Proof.
  unfold parseGameData. intros El H. rewrite El in H. cbn [bind] in H.
  destruct (block_loop strict data spare _ _ _ (Lobby.start lobby))
    as [st| |] eqn:Eb; cbn [bind] in H; try discriminate.
  inversion H; subst r; clear H.
  cbn [W3GReplay.Players finish_replay].
  rewrite <- (block_loop_map lobby_fields _ _ _ _ _ _
                (fun p r t => eq_refl) (fun p => eq_refl) _ _ Eb).
  rewrite map_map. unfold compute_apm.
  destruct (PrimFloat.ltb _ _); [rewrite map_map|]; apply map_ext;
    intros p; unfold resolve_leave_time;
    match goal with
    | |- context [match ?x with _ => _ end] => destruct x
    end; reflexivity.
Qed.

Lemma players_fixed_after_lobby_witness :
  exists (lobby : Lobby.t) (r : W3GReplay.t),
    parse_lobby sample_header sample_leave_payload [] = Ret lobby
    /\ parseGameData false sample_header sample_leave_payload [] = Ret r
    /\ map PlayerInfo.Name (Walk.players (Lobby.start lobby))
       = [bytes_of_string "alice"; bytes_of_string "bob"]
    /\ map lobby_fields (W3GReplay.Players r)
       = map lobby_fields (Walk.players (Lobby.start lobby)).
Proof.
  eexists. eexists.
  split; [vm_compute; reflexivity|].
  split; [vm_compute; reflexivity|].
  split; [reflexivity|].
  apply (players_fixed_after_lobby false sample_header sample_leave_payload
           []).
  - vm_compute. reflexivity.
  - vm_compute. reflexivity.
Defined.

(** ** APM of a replay of duration zero *)

Lemma parsePlayerRecord_apm data offset isHost p newOffset :
  parsePlayerRecord data offset isHost = (Some p, newOffset) ->
  PlayerInfo.APM p = 0%float.
Proof.
  unfold parsePlayerRecord.
  repeat match goal with
         | |- context [if ?c then _ else _] => destruct c
         end;
    intros H; inversion H; subst; reflexivity.
Qed.

Lemma additional_players_apm fuel :
  forall data offset players names offset' players' names',
  Forall (fun p => PlayerInfo.APM p = 0%float) players ->
  additional_players fuel data offset players names
  = (offset', players', names') ->
  Forall (fun p => PlayerInfo.APM p = 0%float) players'.
Proof.
  induction fuel as [|fuel IH];
    intros data offset players names offset' players' names' Hf H;
    cbn [additional_players] in H.
  - now inversion H; subst.
  - destruct (offset <? len data); [|now inversion H; subst].
    destruct (parsePlayerRecord data offset false) as [[p|] newOffset] eqn:E.
    + eapply IH; [|exact H]. apply Forall_app. split; [exact Hf|].
      constructor; [|constructor].
      eapply parsePlayerRecord_apm; eassumption.
    + now inversion H; subst.
Qed.

Lemma apply_slots_map {B : Type} (g : PlayerInfo.t -> B)
  pmap observerTeam slots :
  (forall slot p, g (stamp_slot slot observerTeam p) = g p) ->
  forall objs appended,
  map g (fst (apply_slots pmap observerTeam slots objs appended))
  = map g objs.
Proof.
  intros Hg. induction slots as [|slot slots IH]; intros objs appended;
    cbn [apply_slots]; [reflexivity|].
  destruct (negb (SlotRecord.SlotStatus slot =? SlotUsed)); [apply IH|].
  destruct (SlotRecord.IsComputer slot); [apply IH|].
  destruct (pmap (SlotRecord.PlayerID slot)) as [i|]; [|apply IH].
  rewrite IH. clear IH. revert i.
  induction objs as [|x objs IHo]; intros i; destruct i;
    cbn [update_at map]; try reflexivity.
  - now rewrite Hg.
  - now rewrite IHo.
Qed.

Lemma applySlotInfoToPlayers_map {B : Type} (g : PlayerInfo.t -> B)
  players slots version :
  (forall slot team p, g (stamp_slot slot team p) = g p) ->
  map g (fst (applySlotInfoToPlayers players slots version)) = map g players.
Proof.
  intros Hg. unfold applySlotInfoToPlayers.
  match goal with
  | |- context [apply_slots ?m ?t ?s ?o ?a] =>
    pose proof (apply_slots_map g m t s (fun slot p => Hg slot t p) o a) as H;
    destruct (apply_slots m t s o a) as [objs appended]
  end.
  exact H.
Qed.

Lemma parse_lobby_apm header data spare lobby :
  parse_lobby header data spare = Ret lobby ->
  Forall (fun p => PlayerInfo.APM p = 0%float)
    (Walk.players (Lobby.start lobby)).
Proof.
  assert (Hs : forall players slots version,
             Forall (fun p => PlayerInfo.APM p = 0%float) players ->
             Forall (fun p => PlayerInfo.APM p = 0%float)
               (fst (applySlotInfoToPlayers players slots version))).
  { intros players slots version Hp.
    pose proof (applySlotInfoToPlayers_map PlayerInfo.APM players slots
                  version (fun _ _ _ => eq_refl)) as Hm.
    apply Forall_forall. intros p Hin.
    apply (in_map PlayerInfo.APM) in Hin. rewrite Hm in Hin.
    apply in_map_iff in Hin as [q [Hq Hin]]. rewrite <- Hq.
    rewrite Forall_forall in Hp. now apply Hp. }
  unfold parse_lobby. cbv zeta.
  destruct (parsePlayerRecord data _ true) as [[host|] newOffset] eqn:Eh;
    (destruct (go_slice data spare _ _) as [gameName| |]; cbn [bind];
       try discriminate;
     destruct (decodeEncodedString data _) as [encodedData newOffset'];
     destruct (if 0 <? len encodedData then _ else _)
       as [[settings mapPath] mapName];
     destruct (additional_players _ data _ _ _)
       as [[offset players] names] eqn:Ea;
     assert (Hp : Forall (fun p => PlayerInfo.APM p = 0%float) players)
       by (eapply additional_players_apm; [|exact Ea];
           repeat constructor;
           eapply parsePlayerRecord_apm; eassumption);
     match goal with
     | |- context [if ?c then _ else (_, players)] => destruct c
     end;
     [ destruct (parseGameStartRecord data _ _) as [[[slots seed] mode] off]
     | ];
     intros H; inversion H; subst; cbn; auto).
Qed.

(** A replay whose header gives a duration of zero has APM 0 for every
    player: the APM pass is skipped and no other code sets the field. *)
Theorem zero_duration_apm strict header data spare r :
  ReplayHeader.DurationMs header = 0 ->
  parseGameData strict header data spare = Ret r ->
  Forall (fun p => PlayerInfo.APM p = 0%float) (W3GReplay.Players r).
Proof.
  unfold parseGameData. intros Hd H.
  destruct (parse_lobby header data spare) as [lobby| |] eqn:El;
    cbn [bind] in H; try discriminate.
  destruct (block_loop strict data spare _ _ _ (Lobby.start lobby))
    as [st| |] eqn:Eb; cbn [bind] in H; try discriminate.
  inversion H; subst r; clear H.
  cbn [W3GReplay.Players finish_replay]. rewrite Hd.
  change (compute_apm 0 (Walk.players st)) with (Walk.players st).
  pose proof (block_loop_map PlayerInfo.APM _ _ _ _ _ _
                (fun p r t => eq_refl) (fun p => eq_refl) _ _ Eb) as Hm.
  pose proof (parse_lobby_apm _ _ _ _ El) as Hz.
  apply Forall_map. apply Forall_forall. intros p Hin.
  assert (Hp : PlayerInfo.APM p = 0%float).
  { apply (in_map PlayerInfo.APM) in Hin. rewrite Hm in Hin.
    apply in_map_iff in Hin as [q [Hq Hin]]. rewrite <- Hq.
    rewrite Forall_forall in Hz. now apply Hz. }
  unfold resolve_leave_time. destruct (PlayerInfo.LeaveTimeMs p); exact Hp.
Qed.

Lemma zero_duration_apm_witness :
  exists r : W3GReplay.t,
    parseGameData false sample_header_no_duration sample_selection_payload []
    = Ret r
    /\ map PlayerInfo.ActionCount (W3GReplay.Players r) = [1; 2]
    /\ Forall (fun p => PlayerInfo.APM p = 0%float) (W3GReplay.Players r).
Proof.
  eexists.
  split; [vm_compute; reflexivity|].
  split; [reflexivity|].
  apply (zero_duration_apm false sample_header_no_duration
           sample_selection_payload []).
  - reflexivity.
  - vm_compute. reflexivity.
Defined.

(** ** The entry points *)

(** What a successful [parseHeader] read: the raw header is the start of
    the input, 64 bytes for variant 0 and 68 for variant 1, it is what
    the header record keeps as [RawHeader], and the reader is left right
    after it. *)
Lemma ReadFull_append (r a b : list byte) (n : Z) :
  ReadFull r n = Some (a, b) -> r = a ++ b.
Proof.
  unfold ReadFull. destruct (n <=? len r); [|discriminate].
  intros H. injection H as <- <-. symmetry. apply firstn_skipn.
Qed.

Lemma parseHeader_split (file : list byte) (h : ReplayHeader.t)
  (raw rest : list byte) :
  parseHeader file = Ret (h, raw, rest) ->
  file = raw ++ rest
  /\ ReplayHeader.RawHeader h = raw
  /\ len raw = (if ReplayHeader.HeaderVersion h =? 0 then 64 else 68)
  /\ (ReplayHeader.HeaderVersion h = 0 \/ ReplayHeader.HeaderVersion h = 1)
  /\ ReplayHeader.Magic h = MagicString.
Proof.
  unfold parseHeader. intros H.
  destruct (ReadFull file BaseHeaderSize) as [[baseHeader r1]|] eqn:E1;
    [|discriminate].
  assert (Lb : len baseHeader = BaseHeaderSize).
  { eapply ReadFull_length; [|exact E1]. unfold BaseHeaderSize. lia. }
  destruct (negb (bytes_eqb (slice baseHeader 0 28) MagicString)) eqn:Em;
    [discriminate|].
  apply negb_false_iff, bytes_eqb_eq in Em.
  destruct (Uint32 (from baseHeader 36) =? 0) eqn:V0.
  - destruct (ReadFull r1 SubHeaderV0Size) as [[subHeader r2]|] eqn:E2;
      [|discriminate].
    assert (Ls : len subHeader = SubHeaderV0Size).
    { eapply ReadFull_length; [|exact E2]. unfold SubHeaderV0Size. lia. }
    inversion H; subst h raw rest; clear H. cbn [ReplayHeader.RawHeader
      ReplayHeader.HeaderVersion ReplayHeader.Magic].
    rewrite V0, len_app, Lb, Ls. apply Z.eqb_eq in V0.
    rewrite (ReadFull_append _ _ _ _ E1), (ReadFull_append _ _ _ _ E2).
    rewrite <- app_assoc. repeat split; auto.
  - destruct (Uint32 (from baseHeader 36) =? 1) eqn:V1; [|discriminate].
    destruct (ReadFull r1 SubHeaderV1Size) as [[subHeader r2]|] eqn:E2;
      [|discriminate].
    assert (Ls : len subHeader = SubHeaderV1Size).
    { eapply ReadFull_length; [|exact E2]. unfold SubHeaderV1Size. lia. }
    inversion H; subst h raw rest; clear H. cbn [ReplayHeader.RawHeader
      ReplayHeader.HeaderVersion ReplayHeader.Magic].
    rewrite V0, len_app, Lb, Ls. apply Z.eqb_eq in V1.
    rewrite (ReadFull_append _ _ _ _ E1), (ReadFull_append _ _ _ _ E2).
    rewrite <- app_assoc. repeat split; auto.
Qed.

(** The raw header of a parsed header is the start of the input it was
    read from, 64 or 68 bytes long by the header variant, and starts with
    the magic string. *)
Theorem parseHeader_raw_header (file : list byte) (h : ReplayHeader.t)
  (raw rest : list byte) :
  parseHeader file = Ret (h, raw, rest) ->
  file = ReplayHeader.RawHeader h ++ rest
  /\ raw = ReplayHeader.RawHeader h
  /\ len (ReplayHeader.RawHeader h)
     = (if ReplayHeader.HeaderVersion h =? 0 then 64 else 68)
  /\ firstn 28 file = MagicString.
Proof.
  intros H. pose proof H as H'.
  apply parseHeader_split in H as [Hf [Hr [Hl [Hv Hm]]]].
  rewrite Hr. repeat split; auto.
  unfold parseHeader in H'.
  destruct (ReadFull file BaseHeaderSize) as [[baseHeader r1]|] eqn:E1;
    [|discriminate].
  destruct (negb (bytes_eqb (slice baseHeader 0 28) MagicString)) eqn:Em;
    [discriminate|].
  apply negb_false_iff, bytes_eqb_eq in Em.
  rewrite (ReadFull_append _ _ _ _ E1), <- Em.
  assert (Lb : len baseHeader = BaseHeaderSize).
  { eapply ReadFull_length; [|exact E1]. unfold BaseHeaderSize. lia. }
  unfold slice, from. change (Z.to_nat (28 - 0)) with 28%nat.
  change (Z.to_nat 0) with 0%nat. cbn [skipn].
  rewrite firstn_app. unfold len, BaseHeaderSize in Lb.
  replace (28 - List.length baseHeader)%nat with 0%nat by lia.
  cbn [firstn]. now rewrite app_nil_r.
Qed.

Lemma parseHeader_raw_header_witness :
  exists (h : ReplayHeader.t) (raw rest : list byte),
    parseHeader sample_reforged_file = Ret (h, raw, rest)
    /\ len rest = 14
    /\ sample_reforged_file = ReplayHeader.RawHeader h ++ rest
    /\ raw = ReplayHeader.RawHeader h
    /\ len (ReplayHeader.RawHeader h)
       = (if ReplayHeader.HeaderVersion h =? 0 then 64 else 68)
    /\ firstn 28 sample_reforged_file = MagicString.
Proof.
  eexists. eexists. eexists.
  split; [vm_compute; reflexivity|].
  split; [reflexivity|].
  eapply (parseHeader_raw_header sample_reforged_file).
  vm_compute. reflexivity.
Defined.

(** [ParseHeaderOnly] returns the header a full [Parse] of the same file
    puts in its replay. *)
Theorem Parse_header_only go strict file r :
  Parse go strict file = Ret r ->
  ParseHeaderOnly file = Ret (W3GReplay.Header r).
Proof.
  unfold Parse, ParseHeaderOnly. intros H.
  destruct (parseHeader file) as [[[h raw] rest]| |]; cbn [bind] in *;
    try discriminate.
  destruct (decompressBlocks go _ h) as [d| |]; cbn [bind] in H;
    try discriminate.
  unfold parseGameData in H.
  destruct (parse_lobby h d _) as [lobby| |]; cbn [bind] in H;
    try discriminate.
  destruct (block_loop _ _ _ _ _ _ _) as [st| |]; cbn [bind] in H;
    try discriminate.
  inversion H; subst. reflexivity.
Qed.

Lemma Parse_header_only_witness :
  exists r : W3GReplay.t,
    Parse sample_library false sample_reforged_file = Ret r
    /\ ReplayHeader.Version (W3GReplay.Header r) = 10032
    /\ ParseHeaderOnly sample_reforged_file = Ret (W3GReplay.Header r).
Proof.
  eexists.
  split; [vm_compute; reflexivity|].
  split; [reflexivity|].
  apply (Parse_header_only sample_library false sample_reforged_file).
  vm_compute. reflexivity.
Defined.

(** When the header gives its own length as the offset of the first
    block, parsing a stream and parsing a file agree: [Parse] seeks to
    [HeaderSize], [ParseStream] reads on from where the header ended. *)
Theorem ParseStream_Parse go strict file h raw rest :
  parseHeader file = Ret (h, raw, rest) ->
  ReplayHeader.HeaderSize h = len raw ->
  ParseStream go strict file = Parse go strict file.
Proof.
  intros H Hs. unfold ParseStream, Parse. rewrite H. cbn [bind].
  apply parseHeader_split in H as [Hf _].
  rewrite Hs, Hf, from_app_len. reflexivity.
Qed.

Lemma ParseStream_Parse_witness :
  exists r : W3GReplay.t,
    Parse sample_library false sample_reforged_file = Ret r
    /\ ParseStream sample_library false sample_reforged_file
       = Parse sample_library false sample_reforged_file.
Proof.
  eexists.
  split; [vm_compute; reflexivity|].
  eapply (ParseStream_Parse sample_library false sample_reforged_file).
  - vm_compute. reflexivity.
  - reflexivity.
Defined.

(** The computer-free player list at the payload whose game-start record
    has a Used computer slot. *)
Lemma parseGameData_no_computer_witness :
  exists r : W3GReplay.t,
    parseGameData false sample_header sample_computer_payload [] = Ret r
    /\ List.length (W3GReplay.Players r) = 2%nat
    /\ Forall (fun p => PlayerInfo.IsComputer p = false)
         (W3GReplay.Players r).
Proof.
  eexists.
  split; [vm_compute; reflexivity|].
  split; [reflexivity|].
  apply (parseGameData_no_computer false sample_header
           sample_computer_payload []).
  vm_compute. reflexivity.
Defined.

(** * Properties of the decoders, one function at a time *)

(** ** Races (models.go) *)

(** [RaceFromFlags] returns [RaceUnknown] exactly when none of the six
    race bits is set in the flags; otherwise it returns a race bit that is
    set in the flags, and no lower race bit is set. *)
Theorem RaceFromFlags_lowest_bit (flags : byte) :
  (RaceFromFlags (u8 flags) = RaceUnknown /\ Z.land (u8 flags) 0x6F = 0)
  \/ (In (RaceFromFlags (u8 flags)) race_bits
      /\ Z.land (u8 flags) 0x6F <> 0
      /\ Z.land (u8 flags) (RaceFromFlags (u8 flags))
         = RaceFromFlags (u8 flags)
      /\ Z.land (Z.land (u8 flags) 0x6F) (RaceFromFlags (u8 flags) - 1) = 0).
Proof.
  destruct flags; vm_compute;
    first [ left; split; reflexivity
          | right; repeat split; try discriminate; tauto ].
Qed.

(** ** Map names (encoded.go) *)

Lemma after_last_sep_no_sep (l r : list byte) :
  after_last_sep l = Some r -> Forall no_sep r.
Proof.
  revert r. induction l as [|b l IH]; intros r H; cbn [after_last_sep] in H;
    [discriminate|].
  destruct (after_last_sep l) as [r'|] eqn:E.
  - inversion H; subst. now apply IH.
  - destruct (is_sep b); [|discriminate]. inversion H; subst. clear H IH.
    induction r as [|c r IHr]; [constructor|].
    cbn [after_last_sep] in E.
    destruct (after_last_sep r) as [r'|]; [discriminate|].
    destruct (is_sep c) eqn:Ec; [discriminate|].
    constructor; [exact Ec|now apply IHr].
Qed.

Lemma after_last_sep_none (l : list byte) :
  after_last_sep l = None -> Forall no_sep l.
Proof.
  induction l as [|c r IHr]; intros E; [constructor|].
  cbn [after_last_sep] in E.
  destruct (after_last_sep r) as [r'|]; [discriminate|].
  destruct (is_sep c) eqn:Ec; [discriminate|].
  constructor; [exact Ec|now apply IHr].
Qed.

Lemma after_last_sep_app (dir name : list byte) (sep : byte) :
  is_sep sep = true -> Forall no_sep name ->
  after_last_sep (dir ++ sep :: name) = Some name.
Proof.
  intros Hs Hn.
  assert (En : after_last_sep name = None).
  { induction Hn as [|c r Hc Hr IH]; [reflexivity|].
    cbn [after_last_sep]. rewrite IH. unfold no_sep in Hc. now rewrite Hc. }
  induction dir as [|d dir IH]; cbn [app after_last_sep].
  - now rewrite En, Hs.
  - now rewrite IH.
Qed.

Lemma Forall_firstn_keeps {A : Type} (P : A -> Prop) (n : nat) (l : list A) :
  Forall P l -> Forall P (firstn n l).
Proof.
  intros H. revert n. induction H as [|x l Hx Hl IH]; intros n;
    destruct n; cbn [firstn]; constructor; auto.
Qed.

(** The map name [extractMapName] returns holds no ['/'] and no ['\']. *)
Theorem extractMapName_no_separator (mapPath : go_string) :
  Forall no_sep (extractMapName mapPath).
Proof.
  unfold extractMapName.
  assert (H : Forall no_sep
                match after_last_sep mapPath with
                | Some r => r
                | None => mapPath
                end).
  { destruct (after_last_sep mapPath) as [r|] eqn:E.
    - eapply after_last_sep_no_sep; eassumption.
    - now apply after_last_sep_none. }
  destruct (after_last_sep mapPath) as [r|];
    (destruct (4 <? _); [|exact H]);
    (destruct (_ || _); [|exact H]);
    unfold slice, from; cbn [Z.to_nat skipn]; now apply Forall_firstn_keeps.
Qed.

(** The directories of a path do not matter: the map name of
    [dir ++ sep :: name], for a separator [sep] and a [name] without
    separators, is the map name of [name] alone. *)
Theorem extractMapName_directory (dir name : go_string) (sep : byte) :
  is_sep sep = true -> Forall no_sep name ->
  extractMapName (dir ++ sep :: name) = extractMapName name.
Proof.
  intros Hs Hn. unfold extractMapName.
  rewrite (after_last_sep_app dir name sep Hs Hn).
  assert (En : after_last_sep name = None).
  { clear Hs. induction Hn as [|c r Hc Hr IH]; [reflexivity|].
    cbn [after_last_sep]. rewrite IH. unfold no_sep in Hc. now rewrite Hc. }
  now rewrite En.
Qed.

Lemma extractMapName_directory_witness :
  extractMapName sample_map_file = bytes_of_string "(2)EchoIsles"
  /\ extractMapName
       (bytes_of_string "Maps\FrozenThrone" ++ Byte.x5c :: sample_map_file)
     = extractMapName sample_map_file.
Proof.
  split; [reflexivity|].
  apply (extractMapName_directory (bytes_of_string "Maps\FrozenThrone")
           sample_map_file Byte.x5c).
  - reflexivity.
  - repeat constructor.
Defined.

(** ** The encoded-string decoder keeps to its data (encoded.go) *)

Lemma decode_bits_bounds (n : nat) :
  forall control bit rest result pos r p rest' returned,
  decode_bits control bit n rest result pos = (r, p, rest', returned) ->
  pos <= p /\ p - pos + len rest' = len rest
  /\ len r - len result <= p - pos.
Proof.
  induction n as [|n IH];
    intros control bit rest result pos r p rest' returned H;
    cbn [decode_bits] in H.
  - inversion H; subst. lia.
  - destruct rest as [|b rest0]; [inversion H; subst; lia|].
    unfold len in *. cbn [List.length].
    destruct (u8 b =? 0).
    + inversion H; subst. rewrite length_app. cbn [List.length]. lia.
    + apply IH in H. rewrite length_app in H. cbn [List.length] in H. lia.
Qed.

Lemma decode_loop_bounds (fuel : nat) :
  forall rest result pos,
  pos <= snd (decode_loop fuel rest result pos) <= pos + len rest
  /\ len (fst (decode_loop fuel rest result pos)) - len result
     <= snd (decode_loop fuel rest result pos) - pos.
Proof.
  induction fuel as [|fuel IH]; intros rest result pos;
    cbn [decode_loop].
  - pose proof (len_nonneg rest). cbn [fst snd]. lia.
  - destruct rest as [|control rest0].
    + cbn [fst snd]. unfold len. cbn [List.length]. lia.
    + pose proof (len_nonneg rest0) as Hr.
      assert (Hl : len (control :: rest0) = 1 + len rest0).
      { unfold len. cbn [List.length]. lia. }
      destruct (u8 control =? 0); [cbn [fst snd]; lia|].
      destruct (decode_bits (u8 control) 0 7 rest0 result (pos + 1))
        as [[[r p] rest'] returned] eqn:E.
      apply decode_bits_bounds in E.
      pose proof (len_nonneg rest') as Hr'.
      destruct returned; [cbn [fst snd]; lia|].
      specialize (IH rest' r p). lia.
Qed.

(** [decodeEncodedString] never moves the cursor backwards or past the
    end of the data, and returns at most as many bytes as it consumed. *)
Theorem decodeEncodedString_bounds (data : list byte) (offset : Z) :
  0 <= offset <= len data ->
  offset <= snd (decodeEncodedString data offset) <= len data
  /\ len (fst (decodeEncodedString data offset))
     <= snd (decodeEncodedString data offset) - offset.
Proof.
  intros H0. unfold decodeEncodedString.
  pose proof (decode_loop_bounds (List.length (from data offset))
                (from data offset) [] offset) as H.
  assert (Hl : len (from data offset) = len data - offset).
  { unfold from, len in *. rewrite length_skipn. lia. }
  rewrite Hl in H. change (len []) with 0 in H. lia.
Qed.

Lemma decodeEncodedString_bounds_witness :
  decodeEncodedString (bytes [0xFF; 0x03; 0x41; 0x00; 0x07]) 1
  = (bytes [0x41; 0x00], 4)
  /\ 1 <= snd (decodeEncodedString (bytes [0xFF; 0x03; 0x41; 0x00; 0x07]) 1)
     <= len (bytes [0xFF; 0x03; 0x41; 0x00; 0x07])
  /\ len (fst (decodeEncodedString (bytes [0xFF; 0x03; 0x41; 0x00; 0x07]) 1))
     <= snd (decodeEncodedString (bytes [0xFF; 0x03; 0x41; 0x00; 0x07]) 1)
        - 1.
Proof.
  split; [reflexivity|].
  apply (decodeEncodedString_bounds (bytes [0xFF; 0x03; 0x41; 0x00; 0x07]) 1).
  vm_compute. split; intros C; discriminate C.
Defined.

(** ** Game settings (encoded.go) *)

(** Fewer than 13 decoded bytes give the default settings (speed 2) and no
    map path.  Otherwise speed and observers are at most 3, visibility at
    most 15, the map checksum has four bytes, and the map path holds no
    NUL byte. *)
Theorem parseEncodedSettings_ranges (encodedData : list byte) :
  let '(settings, mapPath, mapName) := parseEncodedSettings encodedData in
  (len encodedData < 13 ->
   settings = default_settings /\ mapPath = [] /\ mapName = [])
  /\ (13 <= len encodedData ->
      0 <= GameSettings.Speed settings <= 3
      /\ 0 <= GameSettings.Visibility settings <= 15
      /\ 0 <= GameSettings.Observers settings <= 3
      /\ len (GameSettings.MapChecksum settings) = 4
      /\ Forall non_nul mapPath
      /\ mapName = (if len mapPath =? 0 then [] else extractMapName mapPath)).
Proof.
  unfold parseEncodedSettings.
  destruct (len encodedData <? 13) eqn:E.
  - apply Z.ltb_lt in E. split; [repeat split|lia].
  - apply Z.ltb_ge in E.
    assert (Hspeed : 0 <= Z.land (u8 (at_ encodedData 0)) 3 <= 3)
      by (destruct (at_ encodedData 0); vm_compute;
          split; intros C; discriminate C).
    assert (Hb1 : 0 <= Z.land (u8 (at_ encodedData 1)) 15 <= 15
                  /\ 0 <= Z.land (Z.shiftr (u8 (at_ encodedData 1)) 4) 3 <= 3)
      by (destruct (at_ encodedData 1); vm_compute;
          repeat split; intros C; discriminate C).
    assert (Hck : len (slice encodedData 9 13) = 4).
    { unfold slice, from, len in *.
      rewrite length_firstn, length_skipn. lia. }
    cbv zeta.
    match goal with
    | |- context [until_nul ?l] =>
      pose proof (until_nul_nonzero l) as Hnn;
      destruct (0 <? len (until_nul l)) eqn:Ep
    end.
    + apply Z.ltb_lt in Ep. split; [lia|]. intros _.
      cbn [GameSettings.Speed GameSettings.Visibility GameSettings.Observers
           GameSettings.MapChecksum].
      repeat split; try tauto; try lia; try exact Hnn.
      match goal with
      | |- context [len ?x =? 0] =>
        destruct (Z.eqb_spec (len x) 0); [lia|reflexivity]
      end.
    + split; [lia|]. intros _.
      cbn [GameSettings.Speed GameSettings.Visibility GameSettings.Observers
           GameSettings.MapChecksum].
      repeat split; try tauto; try lia. constructor.
Qed.

(** ** Player records (players.go) *)



(** ** The game-start record (players.go) *)

Lemma parseSlotRecord_bounds data offset version :
  offset <= len data ->
  offset <= snd (parseSlotRecord data offset version) <= len data.
Proof.
  intros H. unfold parseSlotRecord.
  destruct (version <? 3); [|destruct (version <? 7)]; cbv zeta;
    match goal with
    | |- context [len data <? ?x] => destruct (Z.ltb_spec (len data) x)
    end; cbn [snd]; lia.
Qed.

Lemma slot_loop_bounds (n : nat) data version :
  forall offset slots,
  offset <= len data ->
  offset <= snd (slot_loop n data offset version slots) <= len data
  /\ (List.length (fst (slot_loop n data offset version slots))
      <= List.length slots + n)%nat.
Proof.
  induction n as [|n IH]; intros offset slots H; cbn [slot_loop].
  - cbn [fst snd]. lia.
  - pose proof (parseSlotRecord_bounds data offset version H) as Hb.
    destruct (parseSlotRecord data offset version) as [slot newOffset].
    cbn [snd] in Hb.
    match goal with
    | |- context [slot_loop n data newOffset version ?s] =>
      specialize (IH newOffset s ltac:(lia));
      assert (Hs : (List.length s <= S (List.length slots))%nat)
        by (destruct slot; [rewrite length_app; cbn [List.length]|]; lia)
    end.
    lia.
Qed.

(** [parseGameStartRecord] never moves the cursor backwards or past the
    end of the data, and returns at most as many slots as the slot-count
    byte of the record announces. *)
Theorem parseGameStartRecord_bounds (data : list byte) (offset version : Z) :
  0 <= offset <= len data ->
  let '(slots, _, _, newOffset) := parseGameStartRecord data offset version in
  offset <= newOffset <= len data
  /\ Z.of_nat (List.length slots) <= u8 (at_ data (offset + 3)).
Proof.
  intros H0. unfold parseGameStartRecord.
  pose proof (u8_range (at_ data (offset + 3))) as Hu.
  destruct (_ || _) eqn:E1.
  { cbn [List.length Z.of_nat]. split; [lia|apply Hu]. }
  apply orb_false_iff in E1 as [E1 _]. apply Z.leb_gt in E1.
  destruct (Z.ltb_spec (len data) (offset + 1 + 2)).
  { cbn [List.length Z.of_nat]. split; [lia|apply Hu]. }
  destruct (Z.leb_spec (len data) (offset + 1 + 2)).
  { cbn [List.length Z.of_nat]. split; [lia|apply Hu]. }
  cbv zeta.
  pose proof (slot_loop_bounds
                (Z.to_nat (u8 (at_ data (offset + 1 + 2)))) data version
                (offset + 1 + 2 + 1) [] ltac:(lia)) as [Hb Hl].
  destruct (slot_loop _ data (offset + 1 + 2 + 1) version [])
    as [slots off1].
  cbn [fst snd List.length] in Hb, Hl.
  replace (offset + 3) with (offset + 1 + 2) in * by lia.
  assert (Hlen : Z.of_nat (List.length slots)
                 <= u8 (at_ data (offset + 1 + 2))) by lia.
  destruct (Z.leb_spec (off1 + 4) (len data));
    match goal with
    | |- context [if ?o <? len data then (_, ?o + 1) else _] =>
      destruct (Z.ltb_spec o (len data))
    end;
    match goal with
    | |- context [if ?o <? len data then ?o + 1 else ?o] =>
      destruct (Z.ltb_spec o (len data))
    end; split; try exact Hlen; lia.
Qed.

(** The theorem at the sample game-start record, which starts at offset
    38, announces two slots and ends at offset 66, the end of the data. *)
Lemma parseGameStartRecord_bounds_witness :
  snd (parseGameStartRecord sample_computer_payload 38 26) = 66
  /\ len sample_computer_payload = 66
  /\ let '(slots, _, _, newOffset) :=
       parseGameStartRecord sample_computer_payload 38 26 in
     38 <= newOffset <= len sample_computer_payload
     /\ Z.of_nat (List.length slots)
        <= u8 (at_ sample_computer_payload (38 + 3)).
Proof.
  split; [vm_compute; reflexivity|].
  split; [vm_compute; reflexivity|].
  apply (parseGameStartRecord_bounds sample_computer_payload 38 26).
  vm_compute. split; intros C; discriminate C.
Defined.

(** ** Slot application (players.go) *)

Lemma apply_slots_appended pmap observerTeam slots :
  forall objs appended,
  snd (apply_slots pmap observerTeam slots objs appended)
  = appended ++ map computer_player (computer_slots slots).
Proof.
  unfold computer_slots.
  induction slots as [|slot slots IH]; intros objs appended;
    cbn [apply_slots filter map].
  - now rewrite app_nil_r.
  - destruct (SlotRecord.SlotStatus slot =? SlotUsed); cbn [negb andb];
      [|apply IH].
    destruct (SlotRecord.IsComputer slot).
    + rewrite IH, <- app_assoc. reflexivity.
    + destruct (pmap (SlotRecord.PlayerID slot)); apply IH.
Qed.

(** What [applySlotInfoToPlayers] leaves to its caller, and what it
    drops.  The caller's players keep their number, order, IDs, names,
    host flags and action counts.  The computer players, one for each Used
    computer slot in slot order, are appended to the function's own slice
    only, after the caller's players. *)
Theorem applySlotInfoToPlayers_slices (players : list PlayerInfo.t)
  (slots : list SlotRecord.t) (version : Z) :
  let '(seen, local) := applySlotInfoToPlayers players slots version in
  map PlayerInfo.ID seen = map PlayerInfo.ID players
  /\ map PlayerInfo.Name seen = map PlayerInfo.Name players
  /\ map PlayerInfo.IsHost seen = map PlayerInfo.IsHost players
  /\ map PlayerInfo.IsComputer seen = map PlayerInfo.IsComputer players
  /\ map PlayerInfo.ActionCount seen = map PlayerInfo.ActionCount players
  /\ local = seen ++ map computer_player (computer_slots slots).
Proof.
  pose proof (applySlotInfoToPlayers_map PlayerInfo.ID players slots version
                (fun _ _ _ => eq_refl)) as H1.
  pose proof (applySlotInfoToPlayers_map PlayerInfo.Name players slots
                version (fun _ _ _ => eq_refl)) as H2.
  pose proof (applySlotInfoToPlayers_map PlayerInfo.IsHost players slots
                version (fun _ _ _ => eq_refl)) as H3.
  pose proof (applySlotInfoToPlayers_map PlayerInfo.IsComputer players slots
                version (fun _ _ _ => eq_refl)) as H4.
  pose proof (applySlotInfoToPlayers_map PlayerInfo.ActionCount players slots
                version (fun _ _ _ => eq_refl)) as H5.
  unfold applySlotInfoToPlayers in *.
  match goal with
  | |- context [apply_slots ?m ?t ?s ?o ?a] =>
    pose proof (apply_slots_appended m t s o a) as H6;
    destruct (apply_slots m t s o a) as [objs appended]
  end.
  cbn [fst snd app] in *. subst appended. repeat split; assumption.
Qed.

(** ** Chat blocks (chat.go) *)

(** A chat block with fewer than four bytes left gives no message and
    leaves the cursor where it was.  Any other chat block gives a message:
    its sender is the first byte of the block, its text holds no NUL
    byte, its sender name is never empty, its timestamp is left at 0 for
    the caller, and the cursor moves on by at least five bytes. *)
Theorem parseChatMessage_cursor (data : list byte) (offset : Z)
  (playerNames : list (Z * go_string)) :
  (len data < offset + 4 ->
   parseChatMessage data offset playerNames = (None, offset))
  /\ (offset + 4 <= len data ->
      exists (m : ChatMessage.t) (newOffset : Z),
        parseChatMessage data offset playerNames = (Some m, newOffset)
        /\ ChatMessage.PlayerID m = u8 (at_ data offset)
        /\ Forall non_nul (ChatMessage.Message m)
        /\ ChatMessage.PlayerName m <> []
        /\ ChatMessage.TimestampMs m = 0
        /\ offset + 5 + len (ChatMessage.Message m) <= newOffset).
Proof.
  unfold parseChatMessage. split; intros H.
  - now rewrite (proj2 (Z.ltb_lt _ _) H).
  - rewrite (proj2 (Z.ltb_ge _ _) H).
    assert (Hname : forall id : Z,
              (if len (lookup_name playerNames id) =? 0
               then bytes_of_string "Player " ++ decimal id
               else lookup_name playerNames id) <> []).
    { intros id. destruct (Z.eqb_spec (len (lookup_name playerNames id)) 0)
        as [E|E].
      - discriminate.
      - intros C. rewrite C in E. now apply E. }
    destruct (_ =? ChatFlagStartup); [|destruct (_ =? ChatFlagNormal);
      [destruct (_ <=? len data)|]];
      eexists; eexists; (split; [reflexivity|]);
      cbn [ChatMessage.PlayerID ChatMessage.Message ChatMessage.PlayerName
           ChatMessage.TimestampMs];
      (repeat split;
       [ apply until_nul_nonzero
       | apply Hname
       | match goal with
         | |- context [len (until_nul ?l)] =>
           pose proof (len_nonneg (until_nul l)); lia
         end ]).
Qed.

(** ** The action decoder's cursor (actions.go) *)

Lemma unit_loop_ge (n : nat) data :
  forall offset, offset <= unit_loop n data offset.
Proof.
  induction n as [|n IH]; intros offset; cbn [unit_loop]; [lia|].
  destruct (offset + 8 <=? len data); [|lia].
  specialize (IH (offset + 8)). lia.
Qed.

Lemma action_body_ge data spare version actionID offset name newOffset :
  action_body data spare version actionID offset
  = Ret (Some (name, newOffset)) ->
  offset <= newOffset.
Proof.
  unfold action_body. cbv zeta.
  pose proof (len_nonneg (until_nul (from data offset))).
  pose proof (len_nonneg (until_nul (from data (offset + 8)))).
  repeat match goal with
         | |- context [if ?c then _ else _] => destruct c
         | |- context [unit_loop ?n ?d ?o] =>
           let u := fresh "u" in
           pose proof (unit_loop_ge n d o);
           set (u := unit_loop n d o) in *; clearbody u
         | |- context [go_slice ?d ?s ?a ?b] =>
           destruct (go_slice d s a b); cbn [bind]
         end;
    intros E; inversion E; subst; lia.
Qed.

Lemma go_slice_length data spare a b r :
  0 <= a -> a <= b -> go_slice data spare a b = Ret r ->
  len r = b - a /\ b <= len data + len spare.
Proof.
  unfold go_slice. intros Ha Hab H.
  destruct (Z.leb_spec b (len data + len spare)); [|discriminate].
  inversion H; subst. unfold slice, from, len in *.
  rewrite length_firstn, length_skipn, length_app.
  rewrite <- Nat2Z.inj_add in *. lia.
Qed.

(** A case of the [switch] that knows the opcode returns an action. *)
Ltac action_known E :=
  repeat match type of E with
         | context [go_slice ?d ?s ?a ?b] =>
           destruct (go_slice d s a b); cbn [bind] in E
         | (if ?c then _ else _) = _ => destruct c
         end;
  discriminate E.

(** Only an opcode without a name that is no cheat has no case. *)
Lemma action_body_none data spare version (actionID : Z) offset :
  action_body data spare version actionID offset = Ret None ->
  ActionNames actionID = ""%string /\ ~ (0x20 <= actionID <= 0x32).
Proof.
  intros Eb. unfold action_body in Eb. cbv zeta in Eb.
  unfold ActionNames.
  repeat match type of Eb with
         | (if (?c =? ?k) || _ then _ else _) = _ =>
           destruct (c =? k); cbn [orb] in Eb;
           [solve [action_known Eb]|]
         | (if ?c =? ?k then _ else _) = _ =>
           destruct (c =? k); [solve [action_known Eb]|]
         end.
  match type of Eb with
  | context [if ?c then _ else _] => destruct c eqn:Ec
  end; [discriminate Eb|].
  split; [reflexivity|].
  intros [C1 C2]. apply andb_false_iff in Ec as [Ec|Ec];
    apply Z.leb_gt in Ec; lia.
Qed.

(** What [parseAction] returns.  An action comes with a cursor past its
    opcode; it carries the opcode byte as its type, player ID and
    timestamp 0 for the caller to fill in, and as payload the
    [newOffset - offset] bytes the cursor moved over.  No action ([nil])
    is returned at the end of the data, with the cursor unmoved, and for
    an opcode that has no name and is no cheat (0x20 to 0x32), with the
    cursor after the opcode. *)
Theorem parseAction_result (data spare : list byte) (offset version : Z)
  (result : option GameAction.t * Z) :
  0 <= offset ->
  parseAction data spare offset version = Ret result ->
  match result with
  | (Some a, newOffset) =>
    offset < len data
    /\ offset + 1 <= newOffset <= len data + len spare
    /\ GameAction.ActionType a = u8 (at_ data offset)
    /\ GameAction.PlayerID a = 0
    /\ GameAction.TimestampMs a = 0
    /\ len (GameAction.Payload a) = newOffset - offset
  | (None, newOffset) =>
    (len data <= offset /\ newOffset = offset)
    \/ (offset < len data /\ newOffset = offset + 1
        /\ ActionNames (u8 (at_ data offset)) = ""%string
        /\ ~ (0x20 <= u8 (at_ data offset) <= 0x32))
  end.
Proof.
  intros H0 H. unfold parseAction in H.
  destruct (Z.leb_spec (len data) offset) as [L|L].
  { inversion H; subst. left. split; [assumption|reflexivity]. }
  destruct (action_body data spare version (u8 (at_ data offset))
              (offset + 1)) as [[[name off]|]| |] eqn:Eb;
    cbn [bind] in H; try discriminate.
  - pose proof (action_body_ge _ _ _ _ _ _ _ Eb) as Hge.
    destruct (go_slice data spare offset off) as [payload| |] eqn:Es;
      cbn [bind] in H; try discriminate.
    inversion H; subst; clear H.
    apply go_slice_length in Es as [Hl Hb]; [|lia|lia].
    cbn [GameAction.ActionType GameAction.PlayerID GameAction.TimestampMs
         GameAction.Payload].
    repeat split; try assumption; try lia.
  - inversion H; subst; clear H. right.
    split; [assumption|]. split; [reflexivity|].
    now apply action_body_none in Eb.
Qed.

Lemma parseAction_result_witness :
  exists (a : GameAction.t) (newOffset : Z),
    parseAction sample_drop_item [] 0 26 = Ret (Some a, newOffset)
    /\ newOffset = 38
    /\ 0 < len sample_drop_item
    /\ 0 + 1 <= newOffset <= len sample_drop_item + len (@nil byte)
    /\ GameAction.ActionType a = u8 (at_ sample_drop_item 0)
    /\ GameAction.PlayerID a = 0
    /\ GameAction.TimestampMs a = 0
    /\ len (GameAction.Payload a) = newOffset - 0.
Proof.
  eexists. eexists.
  split; [vm_compute; reflexivity|].
  split; [reflexivity|].
  refine (parseAction_result sample_drop_item [] 0 26 (Some _, _) _ _).
  - lia.
  - vm_compute. reflexivity.
Defined.

(** ** Duration formatting (w3g.go) *)

Lemma intToStr_loop_value (fuel : nat) :
  forall n digits,
  0 <= n -> (Z.to_nat n <= fuel)%nat ->
  fold_left (fun a b => a * 10 + (u8 b - 48))
    (intToStr_loop fuel n digits) 0
  = fold_left (fun a b => a * 10 + (u8 b - 48)) digits n.
Proof.
  induction fuel as [|fuel IH]; intros n digits H0 Hf;
    cbn [intToStr_loop].
  - f_equal. lia.
  - destruct (Z.ltb_spec 0 n) as [L|L]; [|f_equal; lia].
    assert (Hd : 0 <= n / 10 < n).
    { split; [apply Z.div_pos; lia|apply Z.div_lt; lia]. }
    pose proof (Z.mod_pos_bound n 10 ltac:(lia)) as Hm.
    rewrite IH by lia. cbn [fold_left]. f_equal.
    rewrite u8_of_Z. change (2 ^ 8) with 256.
    rewrite Z.mod_small by lia.
    pose proof (Z.div_mod n 10 ltac:(lia)). lia.
Qed.

Lemma intToStr_loop_digits (fuel : nat) :
  forall n digits,
  Forall is_digit digits -> Forall is_digit (intToStr_loop fuel n digits).
Proof.
  induction fuel as [|fuel IH]; intros n digits H; cbn [intToStr_loop];
    [exact H|].
  destruct (Z.ltb_spec 0 n) as [L|L]; [|exact H].
  apply IH. constructor; [|exact H].
  pose proof (Z.mod_pos_bound n 10 ltac:(lia)) as Hm.
  unfold is_digit. rewrite u8_of_Z. change (2 ^ 8) with 256.
  rewrite Z.mod_small by lia. lia.
Qed.

Lemma intToStr_value (n : Z) :
  Forall is_digit (intToStr n)
  /\ digits_value (intToStr n) = Z.max 0 n
  /\ (n < 0 -> intToStr n = []).
Proof.
  unfold intToStr, digits_value.
  destruct (Z.eqb_spec n 0) as [E|E].
  - subst n. split; [repeat constructor; vm_compute; discriminate|].
    split; [reflexivity|lia].
  - split; [apply intToStr_loop_digits; constructor|].
    split.
    + destruct (Z.lt_ge_cases n 0) as [L|L].
      * replace (Z.to_nat n) with 0%nat by lia. cbn. lia.
      * rewrite intToStr_loop_value by lia. cbn [fold_left]. lia.
    + intros L. replace (Z.to_nat n) with 0%nat by lia. reflexivity.
Qed.

(** [intToStr] writes decimal digits only, and they read back as the
    number: at least one digit for a number that is not negative.  For a
    negative number the digit loop does not run and the result is the
    empty string. *)
Theorem intToStr_reads_back (n : Z) :
  Forall is_digit (intToStr n)
  /\ digits_value (intToStr n) = Z.max 0 n
  /\ (0 <= n -> intToStr n <> [])
  /\ (n < 0 -> intToStr n = []).
Proof.
  destruct (intToStr_value n) as [Hd [Hv Hn]].
  split; [exact Hd|]. split; [exact Hv|]. split; [|exact Hn].
  intros H0 C. unfold intToStr in C, Hv.
  destruct (Z.eqb_spec n 0) as [E|E]; [discriminate C|].
  rewrite C in Hv. cbn in Hv. lia.
Qed.

Lemma colon_fields_digits (a : list byte) :
  Forall is_digit a -> colon_fields a = [a].
Proof.
  induction 1 as [|b a Hb Ha IH]; cbn [colon_fields]; [reflexivity|].
  unfold is_digit in Hb.
  destruct (Z.eqb_spec (u8 b) 58); [lia|]. now rewrite IH.
Qed.

Lemma colon_fields_app (a rest : list byte) :
  Forall is_digit a ->
  colon_fields (a ++ Byte.x3a :: rest) = a :: colon_fields rest.
Proof.
  induction 1 as [|b a Hb Ha IH]; cbn [colon_fields app].
  - reflexivity.
  - unfold is_digit in Hb.
    destruct (Z.eqb_spec (u8 b) 58); [lia|]. now rewrite IH.
Qed.

Lemma padInt_reads_back (n : Z) :
  0 <= n -> Forall is_digit (padInt n) /\ digits_value (padInt n) = n.
Proof.
  intros H0. destruct (intToStr_value n) as [Hd [Hv _]].
  rewrite Z.max_r in Hv by lia.
  unfold padInt. destruct (n <? 10); [|now split].
  split.
  - constructor; [vm_compute; split; discriminate|exact Hd].
  - unfold digits_value in *. cbn [bytes_of_string app fold_left].
    exact Hv.
Qed.

(** The fields between the colons of a formatted duration read back as
    hours, minutes and seconds of the whole seconds of [ms], the hours
    being left out when they are zero. *)
Theorem FormatDuration_fields (ms : Z) :
  0 <= ms < 2 ^ 32 ->
  map digits_value (colon_fields (FormatDuration ms))
  = (if 0 <? ms / 1000 / 3600
     then [ms / 1000 / 3600; (ms / 1000) mod 3600 / 60; (ms / 1000) mod 60]
     else [(ms / 1000) mod 3600 / 60; (ms / 1000) mod 60]).
Proof.
  intros H0. unfold FormatDuration. cbv zeta.
  set (t := ms / 1000).
  assert (Ht : 0 <= t) by (apply Z.div_pos; lia).
  assert (Hh : 0 <= t / 3600) by (apply Z.div_pos; lia).
  pose proof (Z.mod_pos_bound t 3600 ltac:(lia)) as Hm0.
  assert (Hm : 0 <= t mod 3600 / 60) by (apply Z.div_pos; lia).
  pose proof (Z.mod_pos_bound t 60 ltac:(lia)) as Hs.
  destruct (padInt_reads_back (t / 3600) Hh) as [Dh Vh].
  destruct (padInt_reads_back (t mod 3600 / 60) Hm) as [Dm Vm].
  destruct (padInt_reads_back (t mod 60) ltac:(lia)) as [Ds Vs].
  destruct (intToStr_value (t mod 3600 / 60)) as [Di [Vi _]].
  rewrite Z.max_r in Vi by lia.
  change (bytes_of_string ":") with [Byte.x3a].
  destruct (0 <? t / 3600).
  - unfold formatDurationParts.
    change (bytes_of_string ":") with [Byte.x3a]. cbn [app].
    rewrite colon_fields_app by exact Dh.
    rewrite colon_fields_app by exact Dm.
    rewrite colon_fields_digits by exact Ds.
    cbn [map]. now rewrite Vh, Vm, Vs.
  - unfold formatDurationMinSec.
    change (bytes_of_string ":") with [Byte.x3a]. cbn [app].
    rewrite colon_fields_app by exact Di.
    rewrite colon_fields_digits by exact Ds.
    cbn [map]. now rewrite Vi, Vs.
Qed.

Lemma FormatDuration_fields_witness :
  FormatDuration 3725000 = bytes_of_string "01:02:05"
  /\ FormatDuration 125000 = bytes_of_string "2:05"
  /\ map digits_value (colon_fields (FormatDuration 3725000))
     = (if 0 <? 3725000 / 1000 / 3600
        then [3725000 / 1000 / 3600; (3725000 / 1000) mod 3600 / 60;
              (3725000 / 1000) mod 60]
        else [(3725000 / 1000) mod 3600 / 60; (3725000 / 1000) mod 60]).
Proof.
  split; [vm_compute; reflexivity|].
  split; [vm_compute; reflexivity|].
  apply (FormatDuration_fields 3725000). lia.
Defined.

(** ** Looking a player up (models.go) *)

(** [GetPlayer] returns the first player of the list that carries the ID,
    and nothing exactly when no player carries it. *)
Theorem GetPlayer_first (players : list PlayerInfo.t) (id : Z) :
  match GetPlayer players id with
  | Some p =>
    exists before after : list PlayerInfo.t,
      players = before ++ p :: after
      /\ PlayerInfo.ID p = id
      /\ Forall (fun q => PlayerInfo.ID q <> id) before
  | None => Forall (fun q => PlayerInfo.ID q <> id) players
  end.
Proof.
  unfold GetPlayer.
  induction players as [|q players IH]; cbn [find]; [constructor|].
  destruct (Z.eqb_spec (PlayerInfo.ID q) id) as [E|E].
  - exists [], players. repeat split; [exact E|constructor].
  - destruct (find _ players) as [p|].
    + destruct IH as [before [after [Hp [Hi Hb]]]].
      exists (q :: before), after. rewrite Hp.
      repeat split; [exact Hi|constructor; assumption].
    + constructor; assumption.
Qed.

(** ** Action counts and duplicate player IDs *)

Lemma existsb_eqb_false (id : Z) (seen : list Z) :
  ~ In id seen -> existsb (Z.eqb id) seen = false.
Proof.
  intros H. induction seen as [|s seen IH]; [reflexivity|].
  cbn [existsb]. destruct (Z.eqb_spec id s) as [E|E].
  - exfalso. apply H. now left.
  - apply IH. intros C. apply H. now right.
Qed.

Lemma update_first_shadowed id f players :
  (forall p, PlayerInfo.ID (f p) = PlayerInfo.ID p) ->
  forall seen, ~ In id seen ->
  shadowed seen (update_first id f players) = shadowed seen players.
Proof.
  intros Hf. induction players as [|p players IH]; intros seen Hs;
    cbn [update_first shadowed]; [reflexivity|].
  destruct (Z.eqb_spec (PlayerInfo.ID p) id) as [E|E]; cbn [shadowed].
  - rewrite Hf, E, existsb_eqb_false by exact Hs. reflexivity.
  - destruct (existsb _ seen); [now rewrite IH|].
    apply IH. intros [C|C]; [congruence|contradiction].
Qed.

Lemma record_commands_shadowed cmds :
  forall clock players actions,
  shadowed [] (fst (record_commands cmds clock players actions))
  = shadowed [] players.
Proof.
  induction cmds as [|[pid a] cmds IH]; intros clock players actions;
    cbn [record_commands]; [reflexivity|].
  rewrite IH. apply update_first_shadowed; [reflexivity|].
  intros [].
Qed.

Lemma block_loop_shadowed strict data spare version names fuel :
  forall st st',
  block_loop strict data spare version names fuel st = Ret st' ->
  shadowed [] (Walk.players st') = shadowed [] (Walk.players st).
Proof.
  induction fuel as [|fuel IH]; intros st st' H; cbn [block_loop] in H.
  - now inversion H; subst.
  - destruct (Walk.offset st <? len data); [|now inversion H; subst].
    destruct (block_step strict data spare version names st)
      as [st1| |] eqn:E; cbn [bind] in H; try discriminate.
    rewrite (IH _ _ H).
    destruct (block_step_players_chat _ _ _ _ _ _ _ E) as [[C|[C|C]] _].
    + now rewrite C.
    + destruct C as [id [res C]]. rewrite C.
      apply update_first_shadowed; [reflexivity|intros []].
    + destruct C as [cmds [clock C]]. rewrite C.
      apply record_commands_shadowed.
Qed.

Lemma shadowed_map (f : PlayerInfo.t -> PlayerInfo.t) players :
  (forall p, PlayerInfo.ID (f p) = PlayerInfo.ID p) ->
  forall seen, shadowed seen (map f players) = map f (shadowed seen players).
Proof.
  intros Hf. induction players as [|p players IH]; intros seen;
    cbn [map shadowed]; [reflexivity|].
  rewrite Hf. destruct (existsb _ seen); cbn [map]; now rewrite IH.
Qed.

Lemma shadowed_Forall (P : PlayerInfo.t -> Prop) players :
  Forall P players -> forall seen, Forall P (shadowed seen players).
Proof.
  induction 1 as [|p players Hp Hps IH]; intros seen; cbn [shadowed];
    [constructor|].
  destruct (existsb _ seen); [constructor; [exact Hp|]|]; apply IH.
Qed.

(** The action counts of a parsed replay.  The first player of the list
    that carries an ID has as many actions counted as the action list holds
    for that ID: every decoded action counts, whatever its opcode.  A
    player that comes after another one with the same ID has none. *)
Theorem action_counts strict header data spare r :
  parseGameData strict header data spare = Ret r ->
  (forall id p,
     GetPlayer (W3GReplay.Players r) id = Some p ->
     PlayerInfo.ActionCount p = actions_of id (W3GReplay.Actions r))
  /\ Forall (fun p => PlayerInfo.ActionCount p = 0)
       (shadowed [] (W3GReplay.Players r)).
Proof.
  intros H. split.
  - intros id p Hg. eapply action_count_exact; eassumption.
  - unfold parseGameData in H.
    destruct (parse_lobby header data spare) as [lobby| |] eqn:El;
      cbn [bind] in H; try discriminate.
    destruct (block_loop strict data spare _ _ _ (Lobby.start lobby))
      as [st| |] eqn:Eb; cbn [bind] in H; try discriminate.
    inversion H; subst r; clear H.
    destruct (finish_replay_players header data lobby st) as [f [Hpl Hf]].
    rewrite Hpl, shadowed_map by (intros p; apply Hf).
    apply Forall_map. rewrite (block_loop_shadowed _ _ _ _ _ _ _ _ Eb).
    apply shadowed_Forall.
    destruct (parse_lobby_start _ _ _ _ El) as [_ [_ Hfresh]].
    eapply Forall_impl; [|exact Hfresh].
    intros p [Hc _]. cbv beta. now rewrite (proj1 (proj2 (Hf p))).
Qed.

Lemma action_counts_witness :
  exists r : W3GReplay.t,
    parseGameData false sample_header sample_duplicate_payload [] = Ret r
    /\ map PlayerInfo.Name (W3GReplay.Players r)
       = [bytes_of_string "alice"; bytes_of_string "bob"]
    /\ map PlayerInfo.ID (W3GReplay.Players r) = [1; 1]
    /\ map PlayerInfo.ActionCount (W3GReplay.Players r) = [1; 0]
    /\ (forall id p,
          GetPlayer (W3GReplay.Players r) id = Some p ->
          PlayerInfo.ActionCount p = actions_of id (W3GReplay.Actions r))
    /\ Forall (fun p => PlayerInfo.ActionCount p = 0)
         (shadowed [] (W3GReplay.Players r)).
Proof.
  eexists.
  split; [vm_compute; reflexivity|].
  split; [reflexivity|].
  split; [reflexivity|].
  split; [reflexivity|].
  apply (action_counts false sample_header sample_duplicate_payload []).
  vm_compute. reflexivity.
Defined.

(** ** Ability actions at the end of the data (actions.go) *)

Lemma action_body_no_params_short (data spare : list byte)
  (version offset : Z) :
  len data < offset + (if version <? 13 then 13 else 14) - 1 ->
  action_body data spare version ActionAbilityNoParams offset
  = Ret (Some ("ability"%string, offset)).
Proof.
  intros H. unfold action_body.
  change (ActionAbilityNoParams =? ActionPause) with false.
  change (ActionAbilityNoParams =? ActionResume) with false.
  change (ActionAbilityNoParams =? ActionSetSpeed) with false.
  change (ActionAbilityNoParams =? ActionIncSpeed) with false.
  change (ActionAbilityNoParams =? ActionDecSpeed) with false.
  change (ActionAbilityNoParams =? ActionSaveGame) with false.
  change (ActionAbilityNoParams =? ActionSaveFinished) with false.
  change (ActionAbilityNoParams =? ActionAbilityNoParams) with true.
  cbv beta iota zeta. cbn [orb].
  now rewrite (proj2 (Z.leb_gt _ _) H).
Qed.

(** The no-parameter ability action (0x10) checks that its body is in the
    data.  When it is, the cursor moves 13 bytes past the opcode (12 before
    version 13) and the payload is the opcode with these bytes.  When it is
    not, the action is returned all the same, with the opcode as its whole
    payload and the cursor right after it. *)
Theorem parseAction_no_params (data spare : list byte) (offset version : Z) :
  0 <= offset -> offset < len data ->
  u8 (at_ data offset) = ActionAbilityNoParams ->
  exists a : GameAction.t,
    parseAction data spare offset version
    = Ret (Some a,
           if offset + 1 + (if version <? 13 then 12 else 13) <=? len data
           then offset + 1 + (if version <? 13 then 12 else 13)
           else offset + 1)
    /\ GameAction.ActionName a = "ability"%string
    /\ GameAction.Payload a
       = slice data offset
           (if offset + 1 + (if version <? 13 then 12 else 13) <=? len data
            then offset + 1 + (if version <? 13 then 12 else 13)
            else offset + 1).
Proof.
  intros H0 Hlt Hop. unfold parseAction.
  rewrite (proj2 (Z.leb_gt _ _) Hlt), Hop.
  destruct (Z.leb_spec (offset + 1 + (if version <? 13 then 12 else 13))
              (len data)) as [L|L].
  - rewrite action_body_no_params by (destruct (version <? 13); lia).
    cbn [bind].
    replace (offset + 1 + ((if version <? 13 then 13 else 14) - 1))
      with (offset + 1 + (if version <? 13 then 12 else 13))
      by (destruct (version <? 13); lia).
    rewrite go_slice_within by (destruct (version <? 13); lia).
    cbn [bind]. eexists. split; [reflexivity|]. split; reflexivity.
  - rewrite action_body_no_params_short by (destruct (version <? 13); lia).
    cbn [bind]. rewrite go_slice_within by lia.
    cbn [bind]. eexists. split; [reflexivity|]. split; reflexivity.
Qed.

Lemma parseAction_no_params_witness :
  exists a : GameAction.t,
    parseAction (bytes [0x10; 1; 2; 3]) [] 0 26 = Ret (Some a, 1)
    /\ GameAction.ActionName a = "ability"%string
    /\ GameAction.Payload a = bytes [0x10].
Proof.
  destruct (parseAction_no_params (bytes [0x10; 1; 2; 3]) [] 0 26)
    as [a [H1 [H2 H3]]].
  - lia.
  - vm_compute. reflexivity.
  - reflexivity.
  - exists a. split; [exact H1|]. split; [exact H2|exact H3].
Defined.

(** The drop-item (0x13) and two-position (0x14) ability actions do not
    check that their body is in the data: the cursor moves past it
    regardless.  When the body ends past the capacity of the data slice,
    taking the payload panics (slice bounds out of range). *)
Theorem parseAction_opaque_overrun (data spare : list byte)
  (offset version : Z) :
  0 <= offset -> offset < len data ->
  u8 (at_ data offset) = ActionAbilityDropItem
  \/ u8 (at_ data offset) = ActionAbilityTwoPos ->
  len data + len spare
  < offset + 1 + opaque_width (u8 (at_ data offset)) version ->
  parseAction data spare offset version = Panic.
Proof.
  intros H0 Hlt Hop Hw. unfold parseAction.
  rewrite (proj2 (Z.leb_gt _ _) Hlt).
  unfold opaque_width in Hw.
  destruct Hop as [E|E]; rewrite E in *.
  - change (ActionAbilityDropItem =? ActionAbilityDropItem) with true in Hw.
    cbv iota in Hw.
    rewrite action_body_drop_item. cbn [bind]. unfold go_slice.
    rewrite (proj2 (Z.leb_gt _ _)); [reflexivity|].
    destruct (13 <=? version); lia.
  - change (ActionAbilityTwoPos =? ActionAbilityDropItem) with false in Hw.
    cbv iota in Hw.
    rewrite action_body_two_pos. cbn [bind]. unfold go_slice.
    rewrite (proj2 (Z.leb_gt _ _)); [reflexivity|].
    destruct (13 <=? version); lia.
Qed.

Lemma parseAction_opaque_overrun_witness :
  parseAction (bytes [0x13; 1; 2; 3]) [] 0 26 = Panic.
Proof.
  apply (parseAction_opaque_overrun (bytes [0x13; 1; 2; 3]) [] 0 26).
  - lia.
  - vm_compute. reflexivity.
  - left. reflexivity.
  - vm_compute. reflexivity.
Defined.

(** ** The loops terminate *)

(** Every loop of the parser is modelled with a bound on its passes.  The
    lemmas below show that each bound is never reached: a pass moves the
    cursor forward, so the loop ends by its own condition, and more passes
    would change nothing. *)












(** ** The host *)

(** A view of the players that the leave fields, the action count and the
    APM do not enter is the same in the replay as after the lobby. *)
Lemma parseGameData_map {B : Type} (g : PlayerInfo.t -> B)
  strict header data spare lobby r :
  (forall p res t, g (set_leave p res t) = g p) ->
  (forall p, g (count_action p) = g p) ->
  (forall p a, g (set_apm p a) = g p) ->
  parse_lobby header data spare = Ret lobby ->
  parseGameData strict header data spare = Ret r ->
  map g (W3GReplay.Players r) = map g (Walk.players (Lobby.start lobby)).
Proof.
  unfold parseGameData. intros Hl Hc Ha El H. rewrite El in H.
  cbn [bind] in H.
  destruct (block_loop strict data spare _ _ _ (Lobby.start lobby))
    as [st| |] eqn:Eb; cbn [bind] in H; try discriminate.
  inversion H; subst r; clear H.
  cbn [W3GReplay.Players finish_replay].
  rewrite <- (block_loop_map g _ _ _ _ _ _ Hl Hc _ _ Eb).
  rewrite map_map. unfold compute_apm.
  destruct (PrimFloat.ltb _ _); [rewrite map_map|]; apply map_ext;
    intros p; unfold resolve_leave_time;
    match goal with
    | |- context [match ?x with _ => _ end] => destruct x eqn:Ex
    end; rewrite ?Hl, ?Ha; reflexivity.
Qed.

Lemma additional_players_hosts (fuel : nat) :
  forall data offset players names offset' players' names',
  additional_players fuel data offset players names
  = (offset', players', names') ->
  exists more : list PlayerInfo.t,
    players' = players ++ more
    /\ Forall (fun q => PlayerInfo.IsHost q = false) more.
Proof.
  induction fuel as [|fuel IH];
    intros data offset players names offset' players' names' H;
    cbn [additional_players] in H.
  - inversion H; subst. exists []. now rewrite app_nil_r.
  - destruct (offset <? len data).
    2:{ inversion H; subst. exists []. now rewrite app_nil_r. }
    destruct (parsePlayerRecord data offset false) as [[p|] newOffset] eqn:E.
    + apply IH in H as [more [Hp Hm]].
      exists (p :: more). rewrite Hp, <- app_assoc. split; [reflexivity|].
      constructor; [|exact Hm].
      unfold parsePlayerRecord in E.
      repeat match type of E with
             | context [if ?c then _ else _] => destruct c
             end; inversion E; subst; reflexivity.
    + inversion H; subst. exists []. now rewrite app_nil_r.
Qed.

Lemma parsePlayerRecord_host data offset p newOffset :
  parsePlayerRecord data offset true = (Some p, newOffset) ->
  PlayerInfo.IsHost p = true.
Proof.
  unfold parsePlayerRecord. intros E.
  repeat match type of E with
         | context [if ?c then _ else _] => destruct c
         end; inversion E; subst; reflexivity.
Qed.

Lemma parse_lobby_host header data spare lobby :
  parse_lobby header data spare = Ret lobby ->
  match Walk.players (Lobby.start lobby) with
  | [] => Lobby.hostName lobby = []
  | p :: rest =>
    Forall (fun q => PlayerInfo.IsHost q = false) rest
    /\ Lobby.hostName lobby
       = (if PlayerInfo.IsHost p then PlayerInfo.Name p else [])
  end.
Proof.
  assert (Hview : forall (players seen : list PlayerInfo.t) (host : go_string),
            map PlayerInfo.IsHost seen = map PlayerInfo.IsHost players ->
            map PlayerInfo.Name seen = map PlayerInfo.Name players ->
            match players with
            | [] => host = []
            | p :: rest =>
              Forall (fun q => PlayerInfo.IsHost q = false) rest
              /\ host = (if PlayerInfo.IsHost p then PlayerInfo.Name p else [])
            end ->
            match seen with
            | [] => host = []
            | p :: rest =>
              Forall (fun q => PlayerInfo.IsHost q = false) rest
              /\ host = (if PlayerInfo.IsHost p then PlayerInfo.Name p else [])
            end).
  { intros players seen host Hh Hn Hp.
    destruct players as [|p rest]; destruct seen as [|p' rest'];
      try discriminate; [exact Hp|].
    cbn [map] in Hh, Hn. injection Hh as Hh1 Hh2. injection Hn as Hn1 _.
    destruct Hp as [Hr Hhost]. rewrite Hh1, Hn1. split; [|exact Hhost].
    apply Forall_forall. intros q Hq.
    apply (in_map PlayerInfo.IsHost) in Hq. rewrite Hh2 in Hq.
    apply in_map_iff in Hq as [q' [Hq' Hin]].
    rewrite Forall_forall in Hr. rewrite <- Hq'. now apply Hr. }
  unfold parse_lobby. cbv zeta.
  destruct (parsePlayerRecord data _ true) as [[host|] newOffset] eqn:Eh;
    (destruct (go_slice data spare _ _) as [gameName| |]; cbn [bind];
       try discriminate;
     destruct (decodeEncodedString data _) as [encodedData newOffset'];
     destruct (if 0 <? len encodedData then _ else _)
       as [[settings mapPath] mapName];
     destruct (additional_players _ data _ _ _)
       as [[offset players] names] eqn:Ea;
     apply additional_players_hosts in Ea as [more [Hp Hm]]; subst players;
     match goal with
     | |- context [if ?c then _ else (_, ?ps)] => destruct c
     end;
     [ destruct (parseGameStartRecord data _ _) as [[[slots seed] mode] off]
     | ];
     intros H; inversion H; subst; clear H;
     cbn [Lobby.start Lobby.hostName Walk.players]).
  - eapply Hview;
      [ apply applySlotInfoToPlayers_map; reflexivity
      | apply applySlotInfoToPlayers_map; reflexivity | ].
    cbn [app]. split; [exact Hm|].
    now rewrite (parsePlayerRecord_host _ _ _ _ Eh).
  - cbn [app]. split; [exact Hm|].
    now rewrite (parsePlayerRecord_host _ _ _ _ Eh).
  - eapply Hview;
      [ apply applySlotInfoToPlayers_map; reflexivity
      | apply applySlotInfoToPlayers_map; reflexivity | ].
    cbn [app]. destruct more as [|p rest]; [reflexivity|].
    inversion Hm; subst. split; [assumption|].
    match goal with Hq : PlayerInfo.IsHost p = false |- _ => now rewrite Hq end.
  - cbn [app]. destruct more as [|p rest]; [reflexivity|].
    inversion Hm; subst. split; [assumption|].
    match goal with Hq : PlayerInfo.IsHost p = false |- _ => now rewrite Hq end.
Qed.

(** Only the first player of a parsed replay can be the host, and the
    replay's host name is that player's name; without a host record the
    host name is empty and no player is the host. *)
Theorem replay_host strict header data spare r :
  parseGameData strict header data spare = Ret r ->
  match W3GReplay.Players r with
  | [] => W3GReplay.HostName r = []
  | p :: rest =>
    Forall (fun q => PlayerInfo.IsHost q = false) rest
    /\ W3GReplay.HostName r
       = (if PlayerInfo.IsHost p then PlayerInfo.Name p else [])
  end.
Proof.
  intros H.
  destruct (parse_lobby header data spare) as [lobby| |] eqn:El;
    try (unfold parseGameData in H; rewrite El in H; discriminate H).
  pose proof (parse_lobby_host _ _ _ _ El) as Hl.
  assert (Hhn : W3GReplay.HostName r = Lobby.hostName lobby).
  { unfold parseGameData in H. rewrite El in H. cbn [bind] in H.
    destruct (block_loop _ _ _ _ _ _ _) as [st| |]; cbn [bind] in H;
      try discriminate.
    inversion H; subst. reflexivity. }
  rewrite Hhn.
  pose proof (parseGameData_map PlayerInfo.IsHost _ _ _ _ _ _
                (fun _ _ _ => eq_refl) (fun _ => eq_refl)
                (fun _ _ => eq_refl) El H) as Hh.
  pose proof (parseGameData_map PlayerInfo.Name _ _ _ _ _ _
                (fun _ _ _ => eq_refl) (fun _ => eq_refl)
                (fun _ _ => eq_refl) El H) as Hn.
  destruct (Walk.players (Lobby.start lobby)) as [|p rest];
    destruct (W3GReplay.Players r) as [|p' rest'];
    try discriminate; [exact Hl|].
  cbn [map] in Hh, Hn. injection Hh as Hh1 Hh2. injection Hn as Hn1 _.
  destruct Hl as [Hr Hhost]. rewrite Hh1, Hn1. split; [|exact Hhost].
  apply Forall_forall. intros q Hq.
  apply (in_map PlayerInfo.IsHost) in Hq. rewrite Hh2 in Hq.
  apply in_map_iff in Hq as [q' [Hq' Hin]].
  rewrite Forall_forall in Hr. rewrite <- Hq'. now apply Hr.
Qed.

Lemma replay_host_witness :
  exists r : W3GReplay.t,
    parseGameData false sample_header sample_leave_payload [] = Ret r
    /\ W3GReplay.HostName r = bytes_of_string "alice"
    /\ match W3GReplay.Players r with
       | [] => W3GReplay.HostName r = []
       | p :: rest =>
         Forall (fun q => PlayerInfo.IsHost q = false) rest
         /\ W3GReplay.HostName r
            = (if PlayerInfo.IsHost p then PlayerInfo.Name p else [])
       end.
Proof.
  eexists.
  split; [vm_compute; reflexivity|].
  split; [reflexivity|].
  apply (replay_host false sample_header sample_leave_payload []).
  vm_compute. reflexivity.
Defined.
